(** * go-dcpp: hub configuration, NMDC/ADC client connections, IRC bridge

    A shallow embedding of the parts of go-dcpp that the specification
    talks about:

    - [Config]: hub/config.go, the live configuration of the hub;
    - [NMDC]:   package nmdc, the NMDC client connection;
    - [ADC]:    adc/client/client2hub.go, the ADC client-to-hub connection;
    - [IRC]:    package hub, the IRC bridge of the hub.

    Go code that mutates a receiver is written as explicit state passing;
    a function that returns an [error] returns it next to its other
    results, the way Go does, with [None] for [nil]. *)

From Stdlib Require Import ZArith NArith Ascii String Floats Sorted.
From stdpp Require Import base strings pretty gmap list.

Open Scope string_scope.
Open Scope list_scope.

(** Go's [error] values. [None] is [nil]; the text of a formatted error
    keeps the format and the rendered arguments apart. *)
Inductive err :=
| io_EOF
| errors_New (text : string)
| fmt_Errorf (format : string) (args : list string)
| net_err (text : string).

Definition error := option err.

Definition is_err (e : error) : bool :=
  match e with Some _ => true | None => false end.

(* ===================================================================== *)
(** * hub/config.go *)
(* ===================================================================== *)

Module Config.

Definition ConfigHubName    := "hub.name".
Definition ConfigHubDesc    := "hub.desc".
Definition ConfigHubTopic   := "hub.topic".
Definition ConfigHubOwner   := "hub.owner".
Definition ConfigHubWebsite := "hub.website".
Definition ConfigHubEmail   := "hub.email".
Definition ConfigBotName    := "bot.name".
Definition ConfigBotDesc    := "bot.desc".
Definition ConfigHubMOTD    := "hub.motd".
Definition ConfigHubPrivate := "hub.private".

Definition ConfigChatGlobalEnabled := "chat.global.enabled".

Definition ConfigZlibLevel       := "zlib.level".
Definition ConfigNMDCRedirectTLS := "nmdc.redirect.tls".
Definition ConfigNMDCRedirectADC := "nmdc.redirect.adc".
Definition ConfigADCRedirectTLS  := "adc.redirect.tls".

Definition configAliases : gmap string string :=
  list_to_map [
    ("name",    ConfigHubName);
    ("desc",    ConfigHubDesc);
    ("topic",   ConfigHubTopic);
    ("owner",   ConfigHubOwner);
    ("website", ConfigHubWebsite);
    ("email",   ConfigHubEmail);
    ("botname", ConfigBotName);
    ("botdesc", ConfigBotDesc);
    ("motd",    ConfigHubMOTD);
    ("private", ConfigHubPrivate)
  ].

(** configIgnored is a list of ignored config keys that can only be set in
    the config file. *)
Definition configIgnored : gset string :=
  list_to_set [
    "chat.encoding";
    "chat.log.join";
    "chat.log.max";
    "database.path";
    "database.type";
    "plugins.path";
    "serve.host";
    "serve.port";
    "serve.tls.cert";
    "serve.tls.key";
    ConfigHubPrivate
  ].

(** The built-in keys, as [ConfigKeys] lists them. *)
Definition builtinKeys : list string := [
  ConfigHubName; ConfigHubDesc; ConfigHubTopic; ConfigHubMOTD;
  ConfigHubOwner; ConfigHubWebsite; ConfigHubEmail;
  ConfigBotName; ConfigBotDesc; ConfigHubPrivate;
  ConfigChatGlobalEnabled; ConfigZlibLevel;
  ConfigNMDCRedirectTLS; ConfigNMDCRedirectADC; ConfigADCRedirectTLS
].

(** A float32 is kept as the float64 it converts to (the conversion is
    exact). *)
Record float32 := F32 { float64_of : float }.

(** The dynamic values ([interface{}]) that reach the configuration.
    Integers are unbounded here; the widening conversions of [setConfig]
    ([int64(int)], [uint64(uint32)], ...) keep the value. *)
Inductive GoVal :=
| VNil
| VBool (b : bool)
| VString (s : string)
| VInt (i : Z)
| VInt64 (i : Z)
| VInt32 (i : Z)
| VUint (u : Z)
| VUint64 (u : Z)
| VUint32 (u : Z)
| VFloat64 (f : float)
| VFloat32 (f : float32)
| VOther (type_name : string).

(** [Map], with [None] for the nil map. *)
Definition Map := option (gmap string GoVal).

(** The configuration state of a hub: the generic map [h.conf.m], the
    topic [h.conf.Topic], and the dedicated fields behind the typed keys. *)
Record Hub := mkHub {
  conf_m     : Map;
  conf_Topic : string;
  f_Name : string;  f_Desc : string;  f_MOTD : string;
  f_Owner : string; f_Website : string; f_Email : string;
  f_BotName : string; f_BotDesc : string;
  f_Private : bool;
  f_GlobalChat : bool;
  f_ZlibLevel : Z;
  f_RedirectNMDCToTLS : bool;
  f_RedirectNMDCToADC : bool;
  f_RedirectADCToTLS : bool
}.

Definition with_m (m : Map) (h : Hub) : Hub :=
  mkHub m (conf_Topic h) (f_Name h) (f_Desc h) (f_MOTD h) (f_Owner h)
        (f_Website h) (f_Email h) (f_BotName h) (f_BotDesc h) (f_Private h)
        (f_GlobalChat h) (f_ZlibLevel h) (f_RedirectNMDCToTLS h)
        (f_RedirectNMDCToADC h) (f_RedirectADCToTLS h).

(** The typed setters and getters live in hub.go, which config.go only
    calls; the configuration code is verified against this interface, for
    every implementation of it. *)
Class TypedAccess := {
  setName : string -> Hub -> Hub;
  setDesc : string -> Hub -> Hub;
  setTopic : string -> Hub -> Hub;
  setMOTD : string -> Hub -> Hub;
  setOwner : string -> Hub -> Hub;
  setWebsite : string -> Hub -> Hub;
  setEmail : string -> Hub -> Hub;
  setBotName : string -> Hub -> Hub;
  setBotDesc : string -> Hub -> Hub;
  setGlobalChatEnabled : bool -> Hub -> Hub;
  setRedirectNMDCToTLS : bool -> Hub -> Hub;
  setRedirectNMDCToADC : bool -> Hub -> Hub;
  setRedirectADCToTLS : bool -> Hub -> Hub;
  setZlibLevel : Z -> Hub -> Hub;
  getName : Hub -> string;
  getDesc : Hub -> string;
  getMOTD : Hub -> string;
  getOwner : Hub -> string;
  getWebsite : Hub -> string;
  getEmail : Hub -> string;
  getBotName : Hub -> string;
  getBotDesc : Hub -> string;
  (** [fmt.Sprint] on a stored value *)
  Sprint : GoVal -> string
}.

(** A call that may panic. *)
Inductive outcome (A : Type) :=
| Done (a : A)
| Panicked (msg : string).
Arguments Done {A} a.
Arguments Panicked {A} msg.

(** [if alias, ok := configAliases[key]; ok { key = alias }] *)
Definition resolve (key : string) : string :=
  match configAliases !! key with
  | Some alias => alias
  | None => key
  end.

Definition ignored (key : string) : bool := bool_decide (key ∈ configIgnored).

Definition saveConfig (key : string) (val : GoVal) (h : Hub) : Hub :=
  if ignored key then h else (* TODO: persist config *) h.

Definition setConfigMap (key : string) (val : GoVal) (h : Hub) : Hub :=
  if ignored key then h
  else
    let m := match conf_m h with None => ∅ | Some m => m end in
    with_m (Some (<[key := val]> m)) h.

Definition getConfigMap (key : string) (h : Hub) : GoVal * bool :=
  match conf_m h with
  | None => (VNil, false)
  | Some m => match m !! key with
              | Some v => (v, true)
              | None => (VNil, false)
              end
  end.

Section Ops.
Context `{TypedAccess}.

Definition setConfigString (key : string) (val : string) (h : Hub) : Hub :=
  let key := resolve key in
  if decide (key = ConfigHubName) then setName val h
  else if decide (key = ConfigHubDesc) then setDesc val h
  else if decide (key = ConfigHubTopic) then setTopic val h
  else if decide (key = ConfigHubMOTD) then setMOTD val h
  else if decide (key = ConfigHubOwner) then setOwner val h
  else if decide (key = ConfigHubWebsite) then setWebsite val h
  else if decide (key = ConfigHubEmail) then setEmail val h
  else if decide (key = ConfigBotName) then setBotName val h
  else if decide (key = ConfigBotDesc) then setBotDesc val h
  else setConfigMap key (VString val) h.

Definition SetConfigString (key : string) (val : string) (h : Hub) : Hub :=
  saveConfig key (VString val) (setConfigString key val h).

Definition GetConfigString (key : string) (h : Hub) : string * bool :=
  let key := resolve key in
  if decide (key = ConfigHubName) then (getName h, true)
  else if decide (key = ConfigHubDesc) then (getDesc h, true)
  else if decide (key = ConfigHubTopic) then (conf_Topic h, true)
  else if decide (key = ConfigHubMOTD) then (getMOTD h, true)
  else if decide (key = ConfigHubOwner) then (getOwner h, true)
  else if decide (key = ConfigHubWebsite) then (getWebsite h, true)
  else if decide (key = ConfigHubEmail) then (getEmail h, true)
  else if decide (key = ConfigBotName) then (getBotName h, true)
  else if decide (key = ConfigBotDesc) then (getBotDesc h, true)
  else
    match getConfigMap key h with
    | (_, false) | (VNil, _) => ("", false)
    | (VString v, true) => (v, true)
    | (v, true) => (Sprint v, true)
    end.

Definition setConfigBool (key : string) (val : bool) (h : Hub) : Hub :=
  let key := resolve key in
  if ignored key then h
  else if decide (key = ConfigChatGlobalEnabled) then setGlobalChatEnabled val h
  else if decide (key = ConfigNMDCRedirectTLS) then setRedirectNMDCToTLS val h
  else if decide (key = ConfigNMDCRedirectADC) then setRedirectNMDCToADC val h
  else if decide (key = ConfigADCRedirectTLS) then setRedirectADCToTLS val h
  else setConfigMap key (VBool val) h.

Definition SetConfigBool (key : string) (val : bool) (h : Hub) : Hub :=
  saveConfig key (VBool val) (setConfigBool key val h).

Definition setConfigInt (key : string) (val : Z) (h : Hub) : Hub :=
  let key := resolve key in
  if ignored key then h
  else if decide (key = ConfigZlibLevel) then setZlibLevel val h
  else setConfigMap key (VInt64 val) h.

Definition SetConfigInt (key : string) (val : Z) (h : Hub) : Hub :=
  saveConfig key (VInt64 val) (setConfigInt key val h).

Definition setConfigUint (key : string) (val : Z) (h : Hub) : Hub :=
  let key := resolve key in
  if ignored key then h
  else setConfigMap key (VUint64 val) h.

Definition SetConfigUint (key : string) (val : Z) (h : Hub) : Hub :=
  saveConfig key (VUint64 val) (setConfigUint key val h).

Definition setConfigFloat (key : string) (val : float) (h : Hub) : Hub :=
  let key := resolve key in
  if ignored key then h
  else setConfigMap key (VFloat64 val) h.

Definition SetConfigFloat (key : string) (val : float) (h : Hub) : Hub :=
  saveConfig key (VFloat64 val) (setConfigFloat key val h).

Definition setConfig (key : string) (val : GoVal) (save : bool) (h : Hub)
  : outcome Hub :=
  if ignored key then Done h
  else
    let after (h' : Hub) :=
      Done (if save then saveConfig key val h' else h') in
    match val with
    | VBool b => after (setConfigBool key b h)
    | VString s => after (setConfigString key s h)
    | VInt i => after (setConfigInt key i h)
    | VInt64 i => after (setConfigInt key i h)
    | VInt32 i => after (setConfigInt key i h)
    | VUint u => after (setConfigUint key u h)
    | VUint64 u => after (setConfigUint key u h)
    | VUint32 u => after (setConfigUint key u h)
    | VFloat64 f => after (setConfigFloat key f h)
    | VFloat32 f => after (setConfigFloat key (float64_of f) h)
    | VNil => Panicked "unsupported config type: <nil>"
    | VOther t => Panicked ("unsupported config type: " +:+ t)
    end.

Definition SetConfig (key : string) (val : GoVal) (h : Hub) : outcome Hub :=
  setConfig key val true h.

End Ops.

(** An implementation of [TypedAccess]: every setter stores into the
    dedicated field of its key and every getter reads it back ("built-in
    keys have typed getters that back onto dedicated fields"). *)
Definition plainFields : TypedAccess := {|
  setName v h := mkHub (conf_m h) (conf_Topic h) v (f_Desc h) (f_MOTD h)
    (f_Owner h) (f_Website h) (f_Email h) (f_BotName h) (f_BotDesc h)
    (f_Private h) (f_GlobalChat h) (f_ZlibLevel h) (f_RedirectNMDCToTLS h)
    (f_RedirectNMDCToADC h) (f_RedirectADCToTLS h);
  setDesc v h := mkHub (conf_m h) (conf_Topic h) (f_Name h) v (f_MOTD h)
    (f_Owner h) (f_Website h) (f_Email h) (f_BotName h) (f_BotDesc h)
    (f_Private h) (f_GlobalChat h) (f_ZlibLevel h) (f_RedirectNMDCToTLS h)
    (f_RedirectNMDCToADC h) (f_RedirectADCToTLS h);
  setTopic v h := mkHub (conf_m h) v (f_Name h) (f_Desc h) (f_MOTD h)
    (f_Owner h) (f_Website h) (f_Email h) (f_BotName h) (f_BotDesc h)
    (f_Private h) (f_GlobalChat h) (f_ZlibLevel h) (f_RedirectNMDCToTLS h)
    (f_RedirectNMDCToADC h) (f_RedirectADCToTLS h);
  setMOTD v h := mkHub (conf_m h) (conf_Topic h) (f_Name h) (f_Desc h) v
    (f_Owner h) (f_Website h) (f_Email h) (f_BotName h) (f_BotDesc h)
    (f_Private h) (f_GlobalChat h) (f_ZlibLevel h) (f_RedirectNMDCToTLS h)
    (f_RedirectNMDCToADC h) (f_RedirectADCToTLS h);
  setOwner v h := mkHub (conf_m h) (conf_Topic h) (f_Name h) (f_Desc h)
    (f_MOTD h) v (f_Website h) (f_Email h) (f_BotName h) (f_BotDesc h)
    (f_Private h) (f_GlobalChat h) (f_ZlibLevel h) (f_RedirectNMDCToTLS h)
    (f_RedirectNMDCToADC h) (f_RedirectADCToTLS h);
  setWebsite v h := mkHub (conf_m h) (conf_Topic h) (f_Name h) (f_Desc h)
    (f_MOTD h) (f_Owner h) v (f_Email h) (f_BotName h) (f_BotDesc h)
    (f_Private h) (f_GlobalChat h) (f_ZlibLevel h) (f_RedirectNMDCToTLS h)
    (f_RedirectNMDCToADC h) (f_RedirectADCToTLS h);
  setEmail v h := mkHub (conf_m h) (conf_Topic h) (f_Name h) (f_Desc h)
    (f_MOTD h) (f_Owner h) (f_Website h) v (f_BotName h) (f_BotDesc h)
    (f_Private h) (f_GlobalChat h) (f_ZlibLevel h) (f_RedirectNMDCToTLS h)
    (f_RedirectNMDCToADC h) (f_RedirectADCToTLS h);
  setBotName v h := mkHub (conf_m h) (conf_Topic h) (f_Name h) (f_Desc h)
    (f_MOTD h) (f_Owner h) (f_Website h) (f_Email h) v (f_BotDesc h)
    (f_Private h) (f_GlobalChat h) (f_ZlibLevel h) (f_RedirectNMDCToTLS h)
    (f_RedirectNMDCToADC h) (f_RedirectADCToTLS h);
  setBotDesc v h := mkHub (conf_m h) (conf_Topic h) (f_Name h) (f_Desc h)
    (f_MOTD h) (f_Owner h) (f_Website h) (f_Email h) (f_BotName h) v
    (f_Private h) (f_GlobalChat h) (f_ZlibLevel h) (f_RedirectNMDCToTLS h)
    (f_RedirectNMDCToADC h) (f_RedirectADCToTLS h);
  setGlobalChatEnabled v h := mkHub (conf_m h) (conf_Topic h) (f_Name h)
    (f_Desc h) (f_MOTD h) (f_Owner h) (f_Website h) (f_Email h)
    (f_BotName h) (f_BotDesc h) (f_Private h) v (f_ZlibLevel h)
    (f_RedirectNMDCToTLS h) (f_RedirectNMDCToADC h) (f_RedirectADCToTLS h);
  setRedirectNMDCToTLS v h := mkHub (conf_m h) (conf_Topic h) (f_Name h)
    (f_Desc h) (f_MOTD h) (f_Owner h) (f_Website h) (f_Email h)
    (f_BotName h) (f_BotDesc h) (f_Private h) (f_GlobalChat h)
    (f_ZlibLevel h) v (f_RedirectNMDCToADC h) (f_RedirectADCToTLS h);
  setRedirectNMDCToADC v h := mkHub (conf_m h) (conf_Topic h) (f_Name h)
    (f_Desc h) (f_MOTD h) (f_Owner h) (f_Website h) (f_Email h)
    (f_BotName h) (f_BotDesc h) (f_Private h) (f_GlobalChat h)
    (f_ZlibLevel h) (f_RedirectNMDCToTLS h) v (f_RedirectADCToTLS h);
  setRedirectADCToTLS v h := mkHub (conf_m h) (conf_Topic h) (f_Name h)
    (f_Desc h) (f_MOTD h) (f_Owner h) (f_Website h) (f_Email h)
    (f_BotName h) (f_BotDesc h) (f_Private h) (f_GlobalChat h)
    (f_ZlibLevel h) (f_RedirectNMDCToTLS h) (f_RedirectNMDCToADC h) v;
  setZlibLevel v h := mkHub (conf_m h) (conf_Topic h) (f_Name h)
    (f_Desc h) (f_MOTD h) (f_Owner h) (f_Website h) (f_Email h)
    (f_BotName h) (f_BotDesc h) (f_Private h) (f_GlobalChat h) v
    (f_RedirectNMDCToTLS h) (f_RedirectNMDCToADC h) (f_RedirectADCToTLS h);
  getName := f_Name;
  getDesc := f_Desc;
  getMOTD := f_MOTD;
  getOwner := f_Owner;
  getWebsite := f_Website;
  getEmail := f_Email;
  getBotName := f_BotName;
  getBotDesc := f_BotDesc;
  Sprint v :=
    match v with
    | VString s => s
    | VBool true => "true"
    | VBool false => "false"
    | VInt i | VInt64 i | VInt32 i | VUint i | VUint64 i | VUint32 i =>
      pretty i
    | VNil => "<nil>"
    | VFloat64 _ | VFloat32 _ | VOther _ => "?"
    end
|}.

(** A hub before any configuration. *)
Definition emptyHub : Hub :=
  mkHub None "" "" "" "" "" "" "" "" "" false true (-1) false false false.

End Config.


(* ===================================================================== *)
(** * package nmdc: the NMDC connection *)
(* ===================================================================== *)

Module NMDC.

(** ** Text encodings (golang.org/x/text/encoding and unicode/utf8) *)

(** Go strings and byte slices are sequences of bytes, as [string] is. *)
Definition byte_val (a : ascii) : N := N_of_ascii a.

Definition between (lo hi b : N) : bool := (lo <=? b)%N && (b <=? hi)%N.

Definition continuation (b : N) : bool := between 0x80 0xBF b.

(** The second byte a lead byte of a three-byte sequence admits. *)
Definition second_of3 (b0 b1 : N) : bool :=
  if (b0 =? 0xE0)%N then between 0xA0 0xBF b1
  else if (b0 =? 0xED)%N then between 0x80 0x9F b1
  else between 0xE1 0xEF b0 && continuation b1.

(** The second byte a lead byte of a four-byte sequence admits. *)
Definition second_of4 (b0 b1 : N) : bool :=
  if (b0 =? 0xF0)%N then between 0x90 0xBF b1
  else if (b0 =? 0xF4)%N then between 0x80 0x8F b1
  else between 0xF1 0xF3 b0 && continuation b1.

(** [utf8.ValidString]. *)
Fixpoint ValidString (s : string) : bool :=
  match s with
  | EmptyString => true
  | String a0 s1 =>
    let b0 := byte_val a0 in
    if (b0 <? 0x80)%N then ValidString s1
    else
      match s1 with
      | EmptyString => false
      | String a1 s2 =>
        let b1 := byte_val a1 in
        if between 0xC2 0xDF b0 then continuation b1 && ValidString s2
        else
          match s2 with
          | EmptyString => false
          | String a2 s3 =>
            let b2 := byte_val a2 in
            if between 0xE0 0xEF b0
            then second_of3 b0 b1 && continuation b2 && ValidString s3
            else
              match s3 with
              | EmptyString => false
              | String a3 s4 =>
                second_of4 b0 b1 && continuation b2
                  && continuation (byte_val a3) && ValidString s4
              end
          end
      end
  end.

(** An [encoding.Encoding]: what its decoder's [String] method returns. *)
Record Encoding := {
  enc_name : string;
  dec_String : string -> string * error
}.

(** [enc.NewDecoder()] *)
Inductive Decoder :=
| NewDecoder (enc : Encoding).

(** [enc.NewEncoder()] and [encoding.HTMLEscapeUnsupported(e)] *)
Inductive Encoder :=
| NewEncoder (enc : Encoding)
| HTMLEscapeUnsupported (e : Encoder).

Definition Decoder_String (d : Decoder) (s : string) : string * error :=
  match d with NewDecoder enc => dec_String enc s end.

(** ** The writer, the reader and the socket

    [nmdc.Writer], [nmdc.Reader] (package go-dc) and [net.Conn] are used
    through their methods only. Each keeps what the connection sets on it,
    counts the calls of its [Close], and carries the error its [Close]
    answers with. *)

Record Writer := {
  w_enc : option Encoder;
  w_closes : nat;
  w_close_err : error
}.

Record Reader := {
  r_dec : option Decoder;
  r_zlib : bool;          (* the inflater is active *)
  r_wire : string;        (* the bytes the reader has still to read *)
  r_closes : nat;
  r_close_err : error
}.

Record NetConn := {
  n_closes : nat;
  n_close_err : error
}.

Definition Writer_SetEncoder (e : option Encoder) (w : Writer) : Writer :=
  {| w_enc := e; w_closes := w_closes w; w_close_err := w_close_err w |}.

Definition Writer_Close (w : Writer) : Writer * error :=
  ({| w_enc := w_enc w; w_closes := S (w_closes w);
      w_close_err := w_close_err w |}, w_close_err w).

Definition Reader_SetDecoder (d : option Decoder) (r : Reader) : Reader :=
  {| r_dec := d; r_zlib := r_zlib r; r_wire := r_wire r;
     r_closes := r_closes r; r_close_err := r_close_err r |}.

Definition Reader_Close (r : Reader) : Reader * error :=
  ({| r_dec := r_dec r; r_zlib := r_zlib r; r_wire := r_wire r;
      r_closes := S (r_closes r); r_close_err := r_close_err r |},
   r_close_err r).

Definition NetConn_Close (n : NetConn) : NetConn * error :=
  ({| n_closes := S (n_closes n); n_close_err := n_close_err n |},
   n_close_err n).

(** What a zlib inflater makes of the rest of a byte stream: the inflated
    bytes up to the end of the compressed stream, then what follows it. *)
Class Inflater := inflate : string -> string.

(** Modelled from the spec: [EnableZlib] belongs to the reader of go-dc,
    which is not among these sources. It switches "the underlying byte
    stream through a zlib inflater until end-of-stream"; "ZOn is one-shot
    per direction; a second ZOn is a protocol error". *)
Definition EnableZlib `{Inflater} (r : Reader) : Reader * error :=
  if r_zlib r then (r, Some (errors_New "zlib already enabled"))
  else ({| r_dec := r_dec r; r_zlib := true; r_wire := inflate (r_wire r);
           r_closes := r_closes r; r_close_err := r_close_err r |}, None).

(** ** Conn is a NMDC protocol connection. *)
Record Conn := {
  kps : list string;
  fallback : option Encoding;
  conn : NetConn;
  w : Writer;
  closed : bool;
  r : Reader
}.

Definition with_w (w' : Writer) (c : Conn) : Conn :=
  {| kps := kps c; fallback := fallback c; conn := conn c; w := w';
     closed := closed c; r := r c |}.

Definition with_r (r' : Reader) (c : Conn) : Conn :=
  {| kps := kps c; fallback := fallback c; conn := conn c; w := w c;
     closed := closed c; r := r' |}.

Definition with_conn (n : NetConn) (c : Conn) : Conn :=
  {| kps := kps c; fallback := fallback c; conn := n; w := w c;
     closed := closed c; r := r c |}.

Definition with_closed (b : bool) (c : Conn) : Conn :=
  {| kps := kps c; fallback := fallback c; conn := conn c; w := w c;
     closed := b; r := r c |}.

Definition with_fallback (f : option Encoding) (c : Conn) : Conn :=
  {| kps := kps c; fallback := f; conn := conn c; w := w c;
     closed := closed c; r := r c |}.

Definition FallbackEncoding (c : Conn) : option Encoding := fallback c.

Definition TextEncoder (c : Conn) : option Encoder := w_enc (w c).

Definition TextDecoder (c : Conn) : option Decoder := r_dec (r c).

Definition setEncoding (enc : option Encoding) (event : bool) (c : Conn)
  : Conn :=
  match enc with
  | Some enc =>
    let e := NewEncoder enc in
    let e := HTMLEscapeUnsupported e in
    let c := with_w (Writer_SetEncoder (Some e) (w c)) c in
    if negb event
    then with_r (Reader_SetDecoder (Some (NewDecoder enc)) (r c)) c
    else c
  | None =>
    let c := with_w (Writer_SetEncoder None (w c)) c in
    if negb event
    then with_r (Reader_SetDecoder None (r c)) c
    else c
  end.

Definition SetEncoding (enc : option Encoding) (c : Conn) : Conn :=
  setEncoding enc false c.

Definition SetFallbackEncoding (enc : option Encoding) (c : Conn) : Conn :=
  with_fallback enc c.

(** Close closes the connection. *)
Definition Close (c : Conn) : Conn * error :=
  if closed c then (c, None)
  else
    let c := with_closed true c in
    let last : error := None in
    (* first close the writer so it flushes all buffers *)
    let '(w', err) := Writer_Close (w c) in
    let c := with_w w' c in
    let last := if is_err err then err else last in
    (* then close the connection so it unblocks the reader *)
    let '(n', _) := NetConn_Close (conn c) in
    let c := with_conn n' c in
    (* finally close the reader *)
    let '(r', err) := Reader_Close (r c) in
    let c := with_r r' c in
    let last := if is_err err then err else last in
    (c, last).

(** [K] calls of [Close] in a row: the connection they leave and what each
    of them returned, in order. *)
Fixpoint CloseTimes (k : nat) (c : Conn) : Conn * list error :=
  match k with
  | O => (c, [])
  | S k' =>
    let '(c1, e) := Close c in
    let '(c2, es) := CloseTimes k' c1 in
    (c2, e :: es)
  end.

Definition onUnknownEncoding (c : Conn) (text : string)
  : Conn * option Decoder * error :=
  match FallbackEncoding c with
  | None => (c, None, None)
  | Some fallback =>
    (* try fallback encoding *)
    let dec := NewDecoder fallback in
    let '(str, err) := Decoder_String dec text in
    if is_err err || negb (ValidString str)
    then (c, None, None) (* use current decoder *)
    else
      (* fallback is valid - switch encoding *)
      let c := setEncoding (Some fallback) true c in
      (c, Some dec, None)
  end.

(** ** The reader at work

    How [nmdc.Reader] (go-dc) drives the two hooks that [NewConn] installs
    on it, [OnUnknownEncoding] and the raw-message hook. The reader is not
    part of these sources: this is the contract of its hooks. A raw-message
    hook answers [true] to let the message through (as [NewConn]'s debug
    hooks do for lines) and [false] to have the reader skip it; a decoder returned by
    [OnUnknownEncoding] becomes the reader's decoder and decodes the text
    again, [nil] leaves the decoding error in place. *)

Definition ErrUnknownEncoding : err := errors_New "unknown text encoding".

(** Decoding with the reader's decoder; without one the text has to be
    valid UTF-8 already. *)
Definition decodeWith (d : option Decoder) (text : string) : string * error :=
  match d with
  | Some d => Decoder_String d text
  | None => if ValidString text then (text, None)
            else (EmptyString, Some ErrUnknownEncoding)
  end.

(** The reader decodes one incoming text. *)
Definition readText (c : Conn) (text : string) : Conn * (string * error) :=
  match decodeWith (TextDecoder c) text with
  | (str, None) => (c, (str, None))
  | (_, Some e) =>
    (* c.r.OnUnknownEncoding = c.onUnknownEncoding *)
    match onUnknownEncoding c text with
    | (c, _, Some e') => (c, (EmptyString, Some e'))
    | (c, None, None) => (c, (EmptyString, Some e))
    | (c, Some dec, None) =>
      let c := with_r (Reader_SetDecoder (Some dec) (r c)) c in
      (c, decodeWith (Some dec) text)
    end
  end.

(** The hook [NewConn] passes to [c.r.OnRawMessage]. *)
Definition onRawMessage `{Inflater} (c : Conn) (cmd args : string)
  : Conn * bool * error :=
  if decide (cmd = "ZOn") then
    let '(r', err) := EnableZlib (r c) in
    (with_r r' c, false, err)
  else (c, true, None).

(** The bytes before the next ['|'] and the bytes after it. *)
Fixpoint splitLine (s : string) : option (string * string) :=
  match s with
  | EmptyString => None
  | String a s' =>
    if decide (a = "|"%char) then Some (EmptyString, s')
    else match splitLine s' with
         | Some (line, rest) => Some (String a line, rest)
         | None => None
         end
  end.

(** The name and the arguments of a command, cut at the first space. *)
Fixpoint splitCmd (s : string) : string * string :=
  match s with
  | EmptyString => (EmptyString, EmptyString)
  | String a s' =>
    if decide (a = " "%char) then (EmptyString, s')
    else let '(cmd, args) := splitCmd s' in (String a cmd, args)
  end.

(** What the consumer of the reader receives. *)
Inductive Incoming :=
| RawCommand (cmd args : string)
| ChatLine (line : string).

Inductive Step :=
| Delivered (m : Incoming)
| Skipped
| Failed (e : err).

Definition with_wire (bytes : string) (c : Conn) : Conn :=
  with_r {| r_dec := r_dec (r c); r_zlib := r_zlib (r c); r_wire := bytes;
            r_closes := r_closes (r c); r_close_err := r_close_err (r c) |} c.

(** The reader takes one line off the stream and runs the hook on it. *)
Definition readStep `{Inflater} (c : Conn) : Conn * Step :=
  match splitLine (r_wire (r c)) with
  | None => (c, Failed io_EOF)
  | Some (line, rest) =>
    let c := with_wire rest c in
    match line with
    | EmptyString => (c, Skipped) (* keep-alive *)
    | String a body =>
      if decide (a = "$"%char) then
        let '(cmd, args) := splitCmd body in
        match onRawMessage c cmd args with
        | (c, _, Some e) => (c, Failed e)
        | (c, false, None) => (c, Skipped)
        | (c, true, None) => (c, Delivered (RawCommand cmd args))
        end
      else (c, Delivered (ChatLine line))
    end
  end.

(** [ReadMsg]: lines are read until one is delivered or the read fails;
    [fuel] bounds the number of lines, [None] is "lines left to read". *)
Fixpoint ReadMsg `{Inflater} (fuel : nat) (c : Conn)
  : option (Conn * (Incoming + err)) :=
  match fuel with
  | O => None
  | S fuel' =>
    match readStep c with
    | (c, Delivered m) => Some (c, inl m)
    | (c, Failed e) => Some (c, inr e)
    | (c, Skipped) => ReadMsg fuel' c
    end
  end.

(** A connection as [NewConn] makes it, on a stream of incoming bytes;
    [DefaultFallbackEncoding] is the variable of the package. *)
Definition NewConn (DefaultFallbackEncoding : option Encoding)
    (bytes : string) (w_err n_err r_err : error) : Conn :=
  let c :=
    {| kps := [];
       fallback := None;
       conn := {| n_closes := 0; n_close_err := n_err |};
       w := {| w_enc := None; w_closes := 0; w_close_err := w_err |};
       closed := false;
       r := {| r_dec := None; r_zlib := false; r_wire := bytes;
               r_closes := 0; r_close_err := r_err |} |} in
  match DefaultFallbackEncoding with
  | Some enc => SetFallbackEncoding (Some enc) c
  | None => c
  end.

(** ISO 8859-1 as an [Encoding]: a byte below 0x80 stands for itself, any
    other byte for the two-byte UTF-8 sequence of its code point. *)
Fixpoint latin1_decode (s : string) : string :=
  match s with
  | EmptyString => EmptyString
  | String a s' =>
    let b := byte_val a in
    if (b <? 0x80)%N then String a (latin1_decode s')
    else String (ascii_of_N (N.lor 0xC0 (N.shiftr b 6)))
           (String (ascii_of_N (N.lor 0x80 (N.land b 0x3F)))
              (latin1_decode s'))
  end.

Definition latin1 : Encoding :=
  {| enc_name := "iso-8859-1";
     dec_String := fun s => (latin1_decode s, None) |}.

(** An encoding whose decoder passes the bytes through unchanged. *)
Definition raw_bytes : Encoding :=
  {| enc_name := "raw"; dec_String := fun s => (s, None) |}.

(** An inflater for streams that were deflated without compression: the
    two-byte zlib header, stored blocks (a header byte, LEN and NLEN, then
    LEN bytes of data), and the four-byte checksum; the bytes after the
    end of the compressed stream follow as they are. *)
Fixpoint take_stored (n : nat) (s : string) : string * string :=
  match n, s with
  | S n', String a s' =>
    let '(d, rest) := take_stored n' s' in (String a d, rest)
  | _, _ => (EmptyString, s)
  end.

Fixpoint stored_blocks (fuel : nat) (s : string) : string :=
  match fuel, s with
  | S fuel', String h (String l0 (String l1 (String _ (String _ s')))) =>
    let len := N.to_nat (byte_val l0 + 256 * byte_val l1) in
    let '(d, rest) := take_stored len s' in
    if N.odd (byte_val h)
    then d +:+ snd (take_stored 4 rest)
    else d +:+ stored_blocks fuel' rest
  | _, _ => EmptyString
  end.

Definition stored_inflate : Inflater := fun s =>
  match s with
  | String _ (String _ s') => stored_blocks (String.length s') s'
  | _ => EmptyString
  end.

(** A byte string given by the values of its bytes. *)
Definition of_bytes (l : list N) : string :=
  foldr (fun b s => String (ascii_of_N b) s) EmptyString l.

(** A stream on which the hub turns compression on: [$ZOn|], then the
    zlib stream of [$Lock x|] (deflated without compression), then
    [$Quit|] in the clear. *)
Definition zon_stream : string :=
  "$ZOn|" +:+ of_bytes [120; 1; 1; 8; 0; 247; 255]%N +:+ "$Lock x|"
    +:+ of_bytes [11; 61; 2; 194]%N +:+ "$Quit|".

End NMDC.

(* ===================================================================== *)
(** * adc/client/client2hub.go *)
(* ===================================================================== *)

Module ADC.

(** A feature is a four-letter name. *)
Definition Feature := string.

Definition FeaBASE : Feature := "BASE".
Definition FeaBAS0 : Feature := "BAS0".
Definition FeaTIGR : Feature := "TIGR".
Definition FeaBZIP : Feature := "BZIP".

(** [adcp.ModFeatures] is a [map[Feature]bool]. *)
Abbreviation ModFeatures := (gmap Feature bool).

(** [Intersect] and [IsSet] are methods of go-dc's [ModFeatures]; the
    handshake is verified for every implementation of them. *)
Class FeatureOps := {
  Intersect : ModFeatures -> ModFeatures -> ModFeatures;
  IsSet : ModFeatures -> Feature -> bool
}.

(** A session identifier is four bytes wide; [SID{}] is all zeros. *)
Definition SID := Z.
Definition zeroSID : SID := 0%Z.

Inductive Message :=
| Supported (Features : ModFeatures)
| SIDAssign (sid : SID)
| OtherMessage (cmd : string).

(** [adc.Conn], the packet connection under the client: the messages the
    hub is going to send (or the errors the reads are going to hit), the
    answers of the write side, and what has been written and closed. *)
Record Transport := {
  incoming : list (Message + err);
  write_err : error;
  flush_err : error;
  outgoing : list Message;
  flushes : nat;
  t_closes : nat;
  t_close_err : error
}.

Definition WriteHubMsg (m : Message) (t : Transport) : Transport * error :=
  ({| incoming := incoming t; write_err := write_err t;
      flush_err := flush_err t;
      outgoing := if is_err (write_err t) then outgoing t
                  else outgoing t ++ [m];
      flushes := flushes t; t_closes := t_closes t;
      t_close_err := t_close_err t |}, write_err t).

Definition Flush (t : Transport) : Transport * error :=
  ({| incoming := incoming t; write_err := write_err t;
      flush_err := flush_err t; outgoing := outgoing t;
      flushes := S (flushes t); t_closes := t_closes t;
      t_close_err := t_close_err t |}, flush_err t).

Definition with_incoming (l : list (Message + err)) (t : Transport)
  : Transport :=
  {| incoming := l; write_err := write_err t; flush_err := flush_err t;
     outgoing := outgoing t; flushes := flushes t; t_closes := t_closes t;
     t_close_err := t_close_err t |}.

(** [ReadInfoMsg(deadline)]: nothing left to read runs into the deadline. *)
Definition ReadInfoMsg (t : Transport) : Transport * option Message * error :=
  match incoming t with
  | [] => (t, None, Some (net_err "i/o timeout"))
  | inl m :: rest => (with_incoming rest t, Some m, None)
  | inr e :: rest => (with_incoming rest t, None, Some e)
  end.

Definition Transport_Close (t : Transport) : Transport * error :=
  ({| incoming := incoming t; write_err := write_err t;
      flush_err := flush_err t; outgoing := outgoing t;
      flushes := flushes t; t_closes := S (t_closes t);
      t_close_err := t_close_err t |}, t_close_err t).

Definition ourFeatures : ModFeatures :=
  list_to_map [
    (* should always be set for ADC *)
    (FeaBASE, true);
    (FeaBAS0, true);
    (FeaTIGR, true);
    (* extensions *)
    (FeaBZIP, true)
  ].

Definition protocolToHub `{FeatureOps} (conn : Transport)
  : Transport * (SID * option ModFeatures * error) :=
  (* Send supported features (SUP), initiating the PROTOCOL state. *)
  let '(conn, err) := WriteHubMsg (Supported ourFeatures) conn in
  if is_err err then (conn, (zeroSID, None, err)) else
  let '(conn, err) := Flush conn in
  if is_err err then (conn, (zeroSID, None, err)) else
  (* first, we expect a SUP from the hub with a list of supported features *)
  let '(conn, msg, err) := ReadInfoMsg conn in
  if is_err err then (conn, (zeroSID, None, err)) else
  match msg with
  | Some (Supported hubFeatures) =>
    (* check mutual features *)
    let mutual := Intersect ourFeatures hubFeatures in
    if negb (IsSet mutual FeaBASE) && negb (IsSet mutual FeaBAS0) then
      (conn, (zeroSID, None,
              Some (fmt_Errorf "hub does not support BASE" [])))
    else if negb (IsSet mutual FeaTIGR) then
      (conn, (zeroSID, None,
              Some (fmt_Errorf "hub does not support TIGR" [])))
    else
      (* next, we expect a SID that will assign a Session ID *)
      let '(conn, msg, err) := ReadInfoMsg conn in
      if is_err err then (conn, (zeroSID, None, err)) else
      match msg with
      | Some (SIDAssign sid) => (conn, (sid, Some mutual, None))
      | _ => (conn, (zeroSID, None,
                     Some (fmt_Errorf "expected SID command, got: %#v" [])))
      end
  | _ => (conn, (zeroSID, None,
                 Some (fmt_Errorf "expected SUP command, got: %#v" [])))
  end.

(** A reference implementation of [FeatureOps]: a feature is set when the
    map holds it, and the intersection keeps what both sides have on. *)
Definition refIsSet (m : ModFeatures) (f : Feature) : bool :=
  bool_decide (is_Some (m !! f)).

Definition refIntersect (a b : ModFeatures) : ModFeatures :=
  filter (fun kv => a !! kv.1 = Some true /\ kv.2 = true) b.

Definition refFeatures : FeatureOps :=
  {| Intersect := refIntersect; IsSet := refIsSet |}.

(** Conn represents a Client-to-Hub connection. The channels [closing]
    and [closed] carry no values: each is either open ([false]) or closed
    ([true]). *)
Record Conn := {
  conn : Transport;
  fea : ModFeatures;
  closing : bool;
  closed : bool;
  sid : SID
}.

Definition with_conn (t : Transport) (c : Conn) : Conn :=
  {| conn := t; fea := fea c; closing := closing c; closed := closed c;
     sid := sid c |}.

Definition with_closing (b : bool) (c : Conn) : Conn :=
  {| conn := conn c; fea := fea c; closing := b; closed := closed c;
     sid := sid c |}.

Definition with_closed (b : bool) (c : Conn) : Conn :=
  {| conn := conn c; fea := fea c; closing := closing c; closed := b;
     sid := sid c |}.

(** [<-c.closed]. The channel is closed by [readLoop] when it returns
    ([defer close(c.closed)]), which it does once [ReadPacketRaw] fails,
    as it does on a closed connection. [None]: the receive blocks for
    good, the connection is open and nobody is going to close it. *)
Definition recv_closed (c : Conn) : option Conn :=
  if closed c then Some c
  else if (0 <? t_closes (conn c))%nat then Some (with_closed true c)
  else None.

Definition Close (c : Conn) : option (Conn * error) :=
  if closing c then
    (* case <-c.closing: *)
    match recv_closed c with
    | Some c => Some (c, None)
    | None => None
    end
  else
    let c := with_closing true c in
    let '(t, err) := Transport_Close (conn c) in
    let c := with_conn t c in
    match recv_closed c with
    | Some c => Some (c, err)
    | None => None
    end.

Fixpoint CloseTimes (k : nat) (c : Conn) : option (Conn * list error) :=
  match k with
  | O => Some (c, [])
  | S k' =>
    match Close c with
    | None => None
    | Some (c1, e) =>
      match CloseTimes k' c1 with
      | None => None
      | Some (c2, es) => Some (c2, e :: es)
      end
    end
  end.

(** The connection as [HubHandshake] returns it. *)
Definition newConn (t : Transport) (s : SID) (mutual : ModFeatures) : Conn :=
  {| conn := t; fea := mutual; closing := false; closed := false; sid := s |}.

End ADC.

(* ===================================================================== *)
(** * package hub: the IRC bridge *)
(* ===================================================================== *)

Module IRC.

Definition ircHubChan := "#hub".

(** [irc.Prefix] and [irc.Message] of go-irc. *)
Record irc_Prefix := {
  Name : string;
  User : string;
  Host : string
}.

Record irc_Message := {
  Prefix : option irc_Prefix;
  Command : string;
  Params : list string
}.

Definition with_Command (cmd : string) (m : irc_Message) : irc_Message :=
  {| Prefix := Prefix m; Command := cmd; Params := Params m |}.

Record ircPeer := {
  hostPref : irc_Prefix;
  ownPref : irc_Prefix;
  peer_name : string
}.

(** The peers of the hub: IRC peers, and the peers of the other
    protocols, of which the bridge uses the name only. *)
Inductive Peer :=
| IrcPeer (p : ircPeer)
| OtherPeer (name : string).

Record ConnInfo := {
  Secure : bool;
  TLSVers : Z
}.

(** What a run does to the hub and to the network, in order. *)
Inductive Event :=
| EvWrite (m : irc_Message) (res : error)   (* c.WriteMessage(m) *)
| EvReserve (name : string) (ok : bool)     (* h.reserveName(name, nil, nil) *)
| EvUnbind (name : string)                  (* unbind() *)
| EvAccept (peer : ircPeer)                 (* h.acceptPeer(peer, nil, ...) *)
| EvBroadcastJoin (peer : ircPeer) (notify : list Peer)
| EvSendChat (from : ircPeer) (text : string)
| EvPrivateChat (from : ircPeer) (to : Peer) (text : string)
| EvClose (peer : ircPeer).                 (* peer.Close() *)

Abbreviation Trace := (list Event).

(** The rest of the hub and the network, as the bridge sees them. Other
    connections change the roster and the configuration while a handshake
    runs, so an answer may depend on everything that has happened so far. *)
Record Hub := {
  validateUserName : Trace -> string -> error;
  nameAvailable : Trace -> string -> bool;
  reserveName : Trace -> string -> bool;
  (** [usr != nil], [rec != nil], [err] *)
  getUser : Trace -> string -> bool * bool * error;
  IsPrivate : Trace -> bool;
  getGlobalChatEnabled : Trace -> bool;
  Peers : Trace -> list Peer;
  listPeers : Trace -> list Peer;
  PeerByName : Trace -> string -> option Peer;
  callOnJoined : Trace -> ircPeer -> bool;
  (** the outcome of a write on the connection *)
  write_result : Trace -> irc_Message -> error;
  (** [net.SplitHostPort(conn.LocalAddr().String())] *)
  local_host : string;
  local_port : string;
  getName : string;
  soft_Name : string;
  soft_Version : string;
  created_date : string;   (* h.created.Format("Mon Jan 2 2006") *)
  created_time : string;   (* h.created.UTC().Format("15:04:05") *)
  errNickTaken : err;
  errConnInsecure : err;
  errServerIsPrivate : err
}.

(** What the client sends: a message, or the error the read ends with.
    Once the list is used up the client is gone and reads return EOF. *)
Abbreviation Input := (irc_Message + err)%type.

(** The text of an error, for the [%v] of [fmt.Errorf]. *)
Definition Error (e : err) : string :=
  match e with
  | io_EOF => "EOF"
  | errors_New s => s
  | fmt_Errorf f _ => f
  | net_err s => s
  end.

(** The rendering of a message for [%#v]. *)
Definition render (m : irc_Message) : string := Command m.

(** A run threads the trace and may stop with an error. *)
Definition M (A : Type) : Type := Trace -> (A + err) * Trace.

Definition ret {A} (a : A) : M A := fun t => (inl a, t).

Definition fail {A} (e : err) : M A := fun t => (inr e, t).

Definition bind {A B} (c : M A) (k : A -> M B) : M B := fun t =>
  match c t with
  | (inl a, t') => k a t'
  | (inr e, t') => (inr e, t')
  end.

Notation "x <- c1 ;; c2" := (bind c1 (fun x => c2))
  (at level 100, c1 at next level, right associativity).
Notation "c1 ;;; c2" := (bind c1 (fun _ => c2))
  (at level 100, right associativity).

Definition emit (e : Event) : M unit := fun t => (inl tt, t ++ [e]).

(** A call returns its results or panics. *)
Inductive Outcome (A : Type) :=
| Returned (a : A)
| Panicked.
Arguments Returned {A} a.
Arguments Panicked {A}.

Section Bridge.
Variable h : Hub.

Definition writeMessage (m : irc_Message) : M unit := fun t =>
  let res := write_result h t m in
  (match res with Some e => inr e | None => inl tt end,
   t ++ [EvWrite m res]).

(** [_ = c.WriteMessage(m)] *)
Definition writeMessage_ (m : irc_Message) (t : Trace) : Trace :=
  snd (writeMessage m t).

Definition nickTaken (pref : irc_Prefix) (name : string) : irc_Message :=
  {| Prefix := Some pref;
     Command := "433";
     Params := ["*"; name; Error (errNickTaken h)] |}.

(** How the NICK loop of [ircHandshake] ends. *)
Inductive Reserved :=
| LoopFailed (e : err) (t : Trace)
| LoopReserved (name user : string) (rest : list Input) (t : Trace).

(** The loop body from [name = tname] on: validate the name, check that
    it is available, reserve it; [again] is the next round of the loop. *)
Definition tryName (pref : irc_Prefix) (name user : string)
    (rest : list Input) (again : string -> string -> Trace -> Reserved)
    (t : Trace) : Reserved :=
  match validateUserName h t name with
  | Some err => LoopFailed err t
  | None =>
    if negb (nameAvailable h t name) then
      again name user (writeMessage_ (nickTaken pref name) t)
    else
      let ok := reserveName h t name in
      let t := t ++ [EvReserve name ok] in
      if ok then LoopReserved name user rest t
      else again name user (writeMessage_ (nickTaken pref name) t)
  end.

Fixpoint nickLoop (pref : irc_Prefix) (inbox : list Input)
    (name user : string) (t : Trace) {struct inbox} : Reserved :=
  match inbox with
  | [] => LoopFailed (fmt_Errorf "expected nick: %v" [Error io_EOF]) t
  | inr err :: _ => LoopFailed (fmt_Errorf "expected nick: %v" [Error err]) t
  | inl m :: rest =>
    match Params m with
    | [tname] =>
      if decide (Command m = "NICK") then
        if decide (name = "") then
          (* first time we expect the USER command as well *)
          match rest with
          | [] => LoopFailed (fmt_Errorf "expected user: %v" [Error io_EOF]) t
          | inr err :: _ =>
            LoopFailed (fmt_Errorf "expected user: %v" [Error err]) t
          | inl m :: rest =>
            match Params m with
            | [user; _; _; _] =>
              if decide (Command m = "USER")
              then tryName pref tname user rest (nickLoop pref rest) t
              else LoopFailed
                     (fmt_Errorf "expected user, got: %#v" [render m]) t
            | _ => LoopFailed
                     (fmt_Errorf "expected user, got: %#v" [render m]) t
            end
          end
        else tryName pref tname user rest (nickLoop pref rest) t
      else LoopFailed (fmt_Errorf "expected nick, got: %#v" [render m]) t
    | _ => LoopFailed (fmt_Errorf "expected nick, got: %#v" [render m]) t
    end
  end.

Definition numeric (peer : ircPeer) (cmd : string) (params : list string)
  : irc_Message :=
  {| Prefix := Some (hostPref peer); Command := cmd; Params := params |}.

Definition vers : string := soft_Name h +:+ "-" +:+ soft_Version h.

Definition welcome (peer : ircPeer) : list irc_Message := [
  numeric peer "001" [
    peer_name peer;
    "Welcome to the " +:+ getName h +:+ " Internet Relay Chat Network "
      +:+ peer_name peer
  ];
  numeric peer "002" [
    peer_name peer;
    "Your host is " +:+ local_host h +:+ "[" +:+ local_host h +:+ "/"
      +:+ local_port h +:+ "], running version " +:+ vers
  ];
  numeric peer "003" [
    peer_name peer;
    "This server was created " +:+ created_date h +:+ " at "
      +:+ created_time h +:+ " UTC"
  ];
  numeric peer "004" [
    peer_name peer;
    local_host h;
    vers;
    "DOQRSZaghilopswz"; "CFILMPQSbcefgijklmnopqrstvz"; "bkloveqjfI"
  ];
  numeric peer "005" [
    peer_name peer;
    "CHANTYPES=#"; "EXCEPTS"; "INVEX";
    "CHANMODES=eIbq,k,flj,CFLMPQScgimnprstz";
    "CHANLIMIT=#:120"; "PREFIX=(ov)@+"; "MAXLIST=bqeI:100";
    "MODES=4"; "NETWORK=freenode"; "STATUSMSG=@+";
    "CALLERID=g"; "CASEMAPPING=rfc1459";
    "are supported by this server"
  ]
].

(** Writes in a row, up to the first one that fails. *)
Fixpoint writeAll (ms : list irc_Message) : M unit :=
  match ms with
  | [] => ret tt
  | m :: ms' => writeMessage m ;;; writeAll ms'
  end.

(** wait until the user joins the #hub channel *)
Fixpoint waitJoin (inbox : list Input) (t : Trace)
  : (list Input + err) * Trace :=
  match inbox with
  | [] => (inr io_EOF, t)
  | inr err :: _ => (inr err, t)
  | inl m :: rest =>
    if decide (Command m = "PING") then
      match writeMessage (with_Command "PONG" m) t with
      | (inr err, t) => (inr err, t)
      | (inl _, t) => waitJoin rest t
      end
    else if decide (Command m = "JOIN") then
      match Params m with
      | [channel] =>
        if decide (channel <> ircHubChan) then
          (inr (fmt_Errorf "expected the user to join %s, got: %q"
                  [ircHubChan; channel]), t)
        else (inl rest, t)
      | _ => (inr (fmt_Errorf "expected the channel name, got: %#v"
                     [render m]), t)
      end
    else (* h.Log("unknown command:", m) *) waitJoin rest t
  end.

Definition joinOf (p : ircPeer) (peer : Peer) : irc_Message :=
  {| Prefix := Some match peer with
                    | IrcPeer p2 => ownPref p2
                    | OtherPeer name =>
                      {| Name := name; User := name;
                         Host := Name (hostPref p) |}
                    end;
     Command := "JOIN";
     Params := [ircHubChan] |}.

Fixpoint PeersJoin (p : ircPeer) (peers : list Peer) : M unit :=
  match peers with
  | [] => ret tt
  | peer :: peers' => writeMessage (joinOf p peer) ;;; PeersJoin p peers'
  end.

Definition ircAccept (peer : ircPeer) (inbox : list Input)
  : M (list Input) :=
  writeAll (welcome peer) ;;;
  rest <- waitJoin inbox ;;
  writeMessage {| Prefix := Some (ownPref peer);
                  Command := "JOIN";
                  Params := [ircHubChan] |} ;;;
  (fun t => PeersJoin peer (Peers h t) t) ;;;
  (* accept the user *)
  (fun t => (emit (EvAccept peer) ;;;
             emit (EvBroadcastJoin peer (listPeers h t))) t) ;;;
  ret rest.

Definition ircHandshake (cinfo : option ConnInfo) (inbox : list Input)
    (t : Trace) : Outcome ((ircPeer * list Input) + err) * Trace :=
  let host := local_host h in
  let pref := {| Name := host; User := ""; Host := "" |} in
  match nickLoop pref inbox "" "" t with
  | LoopFailed err t => (Returned (inr err), t)
  | LoopReserved name user rest t =>
    let unbind := emit (EvUnbind name) in
    let '(usr, rec, err) := getUser h t name in
    match err with
    | Some err => (Returned (inr err), snd (unbind t))
    | None =>
      if usr && rec then
        if match cinfo with Some ci => negb (Secure ci) | None => false end
        then (Returned (inr (errConnInsecure h)), snd (unbind t))
        else
          (* TODO(dennwc): support passwords for IRC *)
          (Returned
             (inr (errors_New "password login is not supported for IRC yet")),
           snd (unbind t))
      else if IsPrivate h t then
        (Returned (inr (errServerIsPrivate h)), snd (unbind t))
      else
        let peer := {| hostPref := pref;
                       ownPref := {| Name := name; User := user;
                                     Host := host |};
                       peer_name := name |} in
        match cinfo with
        | None => (* cinfo.Proto = "IRC" *) (Panicked, t)
        | Some _ =>
          match ircAccept peer rest t with
          | (inr err, t) => (Returned (inr err), snd (unbind t))
          | (inl rest, t) => (Returned (inl (peer, rest)), t)
          end
        end
    end
  end.

(** The command loop of [ServeIRC]. *)
Fixpoint serveLoop (peer : ircPeer) (inbox : list Input) (t : Trace)
  : error * Trace :=
  match inbox with
  | [] => (None, t)
  | inr io_EOF :: _ => (None, t)
  | inr err :: _ => (Some err, t)
  | inl m :: rest =>
    if decide (Command m = "PING") then
      match writeMessage (with_Command "PONG" m) t with
      | (inr err, t) => (Some err, t)
      | (inl _, t) => serveLoop peer rest t
      end
    else if decide (Command m = "PRIVMSG") then
      match Params m with
      | [dst; msg] =>
        if decide (dst = ircHubChan) then
          if negb (getGlobalChatEnabled h t) then (None, t)
          else serveLoop peer rest (t ++ [EvSendChat peer msg])
        else
          match PeerByName h t dst with
          | Some dst => serveLoop peer rest (t ++ [EvPrivateChat peer dst msg])
          | None => serveLoop peer rest t
          end
      | _ => (Some (fmt_Errorf "invalid chat command: %#v" [render m]), t)
      end
    else if decide (Command m = "QUIT") then (None, t)
    else serveLoop peer rest t
  end.

(** [ServeIRC] from the handshake's success on: [defer peer.Close()], the
    joined callback, the command loop. *)
Definition serve (peer : ircPeer) (inbox : list Input) (t : Trace)
  : error * Trace :=
  let '(res, t) :=
    if negb (callOnJoined h t peer) then (None, t)
    else serveLoop peer inbox t in
  (res, t ++ [EvClose peer]).

Definition ServeIRC (cinfo : option ConnInfo) (inbox : list Input)
  : Outcome error * Trace :=
  match cinfo with
  | None => (* cinfo.TLSVers on a nil cinfo *) (Panicked, [])
  | Some _ =>
    match ircHandshake cinfo inbox [] with
    | (Panicked, t) => (Panicked, t)
    | (Returned (inr err), t) => (Returned (Some err), t)
    | (Returned (inl (peer, rest)), t) =>
      let '(res, t) := serve peer rest t in (Returned res, t)
    end
  end.

End Bridge.

(** ** Reading traces *)

(** The number of calls of a release function in a trace. *)
Definition is_unbind (e : Event) : bool :=
  match e with EvUnbind _ => true | _ => false end.

Definition unbinds (t : Trace) : nat := length (filter is_unbind t).

(** Events that neither reserve a name nor release one. *)
Definition quiet (e : Event) : bool :=
  match e with
  | EvUnbind _ | EvReserve _ true => false
  | _ => true
  end.

(** [c] appends events to the trace, none of which reserves or releases a
    name. *)
Definition appends_quietly {A} (c : M A) : Prop :=
  forall t, exists ev, (c t).2 = t ++ ev /\ Forall (fun e => quiet e = true) ev.

(** The trace the NICK loop leaves, from the trace [t] it starts on:
    quiet events, closed by the one reservation that went through when the
    loop ends on a reserved name. *)
Definition loop_shape (t : Trace) (r : Reserved) : Prop :=
  match r with
  | LoopFailed _ t' =>
    exists ev, t' = t ++ ev /\ Forall (fun e => quiet e = true) ev
  | LoopReserved name _ _ t' =>
    exists ev, t' = t ++ ev ++ [EvReserve name true]
               /\ Forall (fun e => quiet e = true) ev
  end.

(** The events of writes that succeed. *)
Definition sent (ms : list irc_Message) : Trace :=
  map (fun m => EvWrite m None) ms.

(** The answers to the PINGs among the messages of a client. *)
Definition pongs (ms : list irc_Message) : list irc_Message :=
  map (with_Command "PONG")
      (filter (fun m => bool_decide (Command m = "PING")) ms).

Definition NICK (name : string) : irc_Message :=
  {| Prefix := None; Command := "NICK"; Params := [name] |}.

Definition USER (user : string) : irc_Message :=
  {| Prefix := None; Command := "USER"; Params := [user; "0"; "*"; user] |}.

Definition JOIN (channel : string) : irc_Message :=
  {| Prefix := None; Command := "JOIN"; Params := [channel] |}.

Definition PRIVMSG (dst text : string) : irc_Message :=
  {| Prefix := None; Command := "PRIVMSG"; Params := [dst; text] |}.

(** A small hub for examples: the names in [taken] are in use, [alice]
    (an NMDC peer) is online, nobody is registered, writes succeed. *)
Definition exampleHub (taken : list string) (private chat : bool) : Hub := {|
  validateUserName _ name :=
    if decide (name = "") then Some (errors_New "name is empty") else None;
  nameAvailable _ name := bool_decide (name ∉ taken);
  reserveName _ name := bool_decide (name ∉ taken);
  getUser _ _ := (false, false, None);
  IsPrivate _ := private;
  getGlobalChatEnabled _ := chat;
  Peers _ := [OtherPeer "alice"];
  listPeers _ := [OtherPeer "alice"];
  PeerByName _ name :=
    if decide (name = "alice") then Some (OtherPeer "alice") else None;
  callOnJoined _ _ := true;
  write_result _ _ := None;
  local_host := "hub.example";
  local_port := "1411";
  getName := "Hub";
  soft_Name := "GoHub";
  soft_Version := "0.1";
  created_date := "Mon Jan 2 2006";
  created_time := "15:04:05";
  errNickTaken := errors_New "nick taken";
  errConnInsecure := errors_New "connection is insecure";
  errServerIsPrivate := errors_New "server is private"
|}.

Definition plainConn : option ConnInfo :=
  Some {| Secure := false; TLSVers := 0 |}.

(** The example hub with [bob], an IRC peer, online beside [alice]. *)
Definition bob : ircPeer :=
  {| hostPref := {| Name := "hub.example"; User := ""; Host := "" |};
     ownPref := {| Name := "bob"; User := "robert"; Host := "hub.example" |};
     peer_name := "bob" |}.

Definition busyHub : Hub :=
  let h := exampleHub [] false true in {|
  validateUserName := validateUserName h;
  nameAvailable := nameAvailable h;
  reserveName := reserveName h;
  getUser := getUser h;
  IsPrivate := IsPrivate h;
  getGlobalChatEnabled := getGlobalChatEnabled h;
  Peers _ := [OtherPeer "alice"; IrcPeer bob];
  listPeers _ := [OtherPeer "alice"; IrcPeer bob];
  PeerByName := PeerByName h;
  callOnJoined := callOnJoined h;
  write_result := write_result h;
  local_host := local_host h;
  local_port := local_port h;
  getName := getName h;
  soft_Name := soft_Name h;
  soft_Version := soft_Version h;
  created_date := created_date h;
  created_time := created_time h;
  errNickTaken := errNickTaken h;
  errConnInsecure := errConnInsecure h;
  errServerIsPrivate := errServerIsPrivate h
|}.

End IRC.

(* ===================================================================== *)
(** * strconv, as the getters of hub/config.go call it *)
(* ===================================================================== *)

(** The parsers of the Go standard library, with the base 10 and the
    64 bits that every call in config.go passes. *)
Module strconv.

Inductive NumError := ErrSyntax | ErrRange.

(** [strconv.ParseBool] *)
Definition ParseBool (str : string) : bool * option NumError :=
  if bool_decide (str ∈ ["1"; "t"; "T"; "TRUE"; "true"; "True"])
  then (true, None)
  else if bool_decide (str ∈ ["0"; "f"; "F"; "FALSE"; "false"; "False"])
  then (false, None)
  else (false, Some ErrSyntax).

Definition maxUint64 : Z := 2 ^ 64 - 1.

(** [cutoff] is the smallest number such that [cutoff * base > maxUint64]. *)
Definition cutoff : Z := maxUint64 / 10 + 1.

(** The digit a byte stands for; a letter is no digit below base 11. *)
Definition digit (c : ascii) : option Z :=
  let b := Z.of_N (N_of_ascii c) in
  if (48 <=? b)%Z && (b <=? 57)%Z then Some (b - 48)%Z else None.

(** The loop of [ParseUint] over the bytes of the string; [n] is the
    number read so far. *)
Fixpoint parseDigits (s : string) (n : Z) : Z * option NumError :=
  match s with
  | EmptyString => (n, None)
  | String c s' =>
    match digit c with
    | None => (0%Z, Some ErrSyntax)
    | Some d =>
      if (cutoff <=? n)%Z then
        (* n*base overflows *)
        (maxUint64, Some ErrRange)
      else
        let n1 := (n * 10 + d)%Z in
        if (maxUint64 <? n1)%Z then
          (* n+d overflows *)
          (maxUint64, Some ErrRange)
        else parseDigits s' n1
    end
  end.

(** [strconv.ParseUint(s, 10, 64)] *)
Definition ParseUint (s : string) : Z * option NumError :=
  if decide (s = "") then (0%Z, Some ErrSyntax) else parseDigits s 0.

(** [strconv.ParseInt(s, 10, 64)] *)
Definition ParseInt (s : string) : Z * option NumError :=
  match s with
  | EmptyString => (0%Z, Some ErrSyntax)
  | String c s' =>
    (* Pick off leading sign. *)
    let '(neg, s1) :=
      if decide (c = "+"%char) then (false, s')
      else if decide (c = "-"%char) then (true, s')
      else (false, s) in
    (* Convert unsigned and check range. *)
    match ParseUint s1 with
    | (_, Some ErrSyntax) => (0%Z, Some ErrSyntax)
    | (un, _) =>
      let cutoff := (2 ^ 63)%Z in
      if negb neg && (cutoff <=? un)%Z
      then ((cutoff - 1)%Z, Some ErrRange)
      else if neg && (cutoff <? un)%Z
      then ((- cutoff)%Z, Some ErrRange)
      else ((if neg then - un else un)%Z, None)
    end
  end.

(** A string of decimal digits, and the number it writes. *)
Fixpoint digits (s : string) : bool :=
  match s with
  | EmptyString => true
  | String c s' => bool_decide (is_Some (digit c)) && digits s'
  end.

Fixpoint decimal (s : string) (n : Z) : Z :=
  match s with
  | EmptyString => n
  | String c s' => decimal s' (n * 10 + default 0%Z (digit c))
  end.

End strconv.

(* ===================================================================== *)
(** * hub/config.go: the getters, the key list and the config file *)
(* ===================================================================== *)

Module ConfigRead.
Import Config.

(** The getters of hub.go behind the typed keys that are not strings, and
    what the generic getters use of floating point: the parser of
    [strconv] and the conversions of the Go language, whose result for a
    float64 out of the range of the integer type depends on the
    platform. *)
Class TypedReads := {
  IsPrivate : Hub -> bool;
  getGlobalChatEnabled : Hub -> bool;
  getRedirectNMDCToTLS : Hub -> bool;
  getRedirectNMDCToADC : Hub -> bool;
  getRedirectADCToTLS : Hub -> bool;
  zlibLevel : Hub -> Z;
  (** [f, _ := strconv.ParseFloat(v, 64)]: the value returned, whatever
      the error *)
  ParseFloat : string -> float;
  (** [int64(v)], [uint64(v)] of a float64, [float64(v)] of an integer *)
  int64_of_float : float -> Z;
  uint64_of_float : float -> Z;
  float_of_int : Z -> float
}.

(** [int64(v)] of an integer: the value modulo 2^64, signed. *)
Definition to_int64 (v : Z) : Z := ((v + 2 ^ 63) mod 2 ^ 64 - 2 ^ 63)%Z.

(** [uint64(v)] of an integer: the value modulo 2^64. *)
Definition to_uint64 (v : Z) : Z := (v mod 2 ^ 64)%Z.

Section Getters.
Context `{TypedAccess} `{TypedReads}.

Definition GetConfigBool (key : string) (h : Hub) : bool * bool :=
  let key := resolve key in
  if decide (key = ConfigHubPrivate) then (IsPrivate h, true)
  else if decide (key = ConfigChatGlobalEnabled)
  then (getGlobalChatEnabled h, true)
  else if decide (key = ConfigNMDCRedirectTLS)
  then (getRedirectNMDCToTLS h, true)
  else if decide (key = ConfigNMDCRedirectADC)
  then (getRedirectNMDCToADC h, true)
  else if decide (key = ConfigADCRedirectTLS)
  then (getRedirectADCToTLS h, true)
  else
    match getConfigMap key h with
    | (_, false) | (VNil, _) => (false, false)
    | (VBool v, true) => (v, true)
    | (VInt64 v, true) => (negb (v =? 0)%Z, true)
    | (VUint64 v, true) => (negb (v =? 0)%Z, true)
    | (VFloat64 v, true) => (negb (v =? 0)%float, true)
    | (VString v, true) => ((strconv.ParseBool v).1, true)
    | (_, true) => (false, true)
    end.

Definition GetConfigInt (key : string) (h : Hub) : Z * bool :=
  let key := resolve key in
  if decide (key = ConfigZlibLevel) then (zlibLevel h, true)
  else
    match getConfigMap key h with
    | (_, false) | (VNil, _) => (0%Z, false)
    | (VInt64 v, true) => (v, true)
    | (VUint64 v, true) => (to_int64 v, true)
    | (VFloat64 v, true) => (int64_of_float v, true)
    | (VBool v, true) => (if v then 1%Z else 0%Z, true)
    | (VString v, true) => ((strconv.ParseInt v).1, true)
    | (_, true) => (0%Z, true)
    end.

Definition GetConfigUint (key : string) (h : Hub) : Z * bool :=
  let key := resolve key in
  match getConfigMap key h with
  | (_, false) | (VNil, _) => (0%Z, false)
  | (VUint64 v, true) => (v, true)
  | (VInt64 v, true) => (to_uint64 v, true)
  | (VFloat64 v, true) => (uint64_of_float v, true)
  | (VBool v, true) => (if v then 1%Z else 0%Z, true)
  | (VString v, true) => ((strconv.ParseUint v).1, true)
  | (_, true) => (0%Z, true)
  end.

Definition GetConfigFloat (key : string) (h : Hub) : float * bool :=
  let key := resolve key in
  match getConfigMap key h with
  | (_, false) | (VNil, _) => (0%float, false)
  | (VUint64 v, true) => (float_of_int v, true)
  | (VInt64 v, true) => (float_of_int v, true)
  | (VFloat64 v, true) => (v, true)
  | (VBool v, true) => (if v then 1%float else 0%float, true)
  | (VString v, true) => (ParseFloat v, true)
  | (_, true) => (0%float, true)
  end.

Definition GetConfig (key : string) (h : Hub) : GoVal * bool :=
  let key := resolve key in
  if bool_decide (key ∈ [ConfigHubName; ConfigHubDesc; ConfigHubTopic;
                         ConfigHubMOTD; ConfigHubOwner; ConfigHubWebsite;
                         ConfigHubEmail; ConfigBotName; ConfigBotDesc])
  then
    match GetConfigString key h with
    | (_, false) => (VNil, false)
    | (v, true) => (VString v, true)
    end
  else if decide (key = ConfigZlibLevel) then
    match GetConfigInt key h with
    | (_, false) => (VNil, false)
    | (v, true) => (VInt64 v, true)
    end
  else if bool_decide (key ∈ [ConfigHubPrivate; ConfigChatGlobalEnabled;
                              ConfigNMDCRedirectTLS; ConfigNMDCRedirectADC;
                              ConfigADCRedirectTLS])
  then
    match GetConfigBool key h with
    | (_, false) => (VNil, false)
    | (v, true) => (VBool v, true)
    end
  else
    match conf_m h with
    | None => (VNil, false)
    | Some m =>
      match m !! key with
      | Some VNil | None => (VNil, false)
      | Some v => (v, true)
      end
    end.

End Getters.

(** [sort.Strings]: strings are ordered byte by byte. *)
Fixpoint insert_sorted (k : string) (l : list string) : list string :=
  match l with
  | [] => [k]
  | x :: l' => if String.leb k x then k :: l else x :: insert_sorted k l'
  end.

Definition sort_Strings (l : list string) : list string :=
  foldr insert_sorted [] l.

(** [ConfigKeys]; the keys of [h.conf.m] come in the order the map
    yields them. *)
Definition ConfigKeys (h : Hub) : list string :=
  let keys := builtinKeys in
  let keys :=
    foldl (fun keys k => if ignored k then keys else keys ++ [k]) keys
          (match conf_m h with
           | None => []
           | Some m => (map_to_list m).*1
           end) in
  sort_Strings keys.

(** ** The config file *)

(** A value of a config [Map]: a primitive, a nested [Map], or a nested
    [map[string]interface{}]; the entries of a map come in the order in
    which [range] yields them. *)
#[warnings="-register-all"]
Inductive ConfValue :=
| Prim (v : GoVal)
| InMap (m : list (string * ConfValue))
| InRawMap (m : list (string * ConfValue)).

(** [if path != "" { k = path + "." + k }] *)
Definition joinPath (path k : string) : string :=
  if decide (path = "") then k else path +:+ "." +:+ k.

Section Merge.
Context `{TypedAccess}.

(** One entry of the loop of [MergeConfigPath], under its full key. *)
Fixpoint mergeEntry (k : string) (v : ConfValue) (h : Hub) : outcome Hub :=
  let MergeConfigPath :=
    fix go (path : string) (m : list (string * ConfValue)) (h : Hub)
      : outcome Hub :=
      match m with
      | [] => Done h
      | (k, v) :: m' =>
        match mergeEntry (joinPath path k) v h with
        | Done h' => go path m' h'
        | Panicked msg => Panicked msg
        end
      end in
  match v with
  | InMap m => MergeConfigPath k m h
  | InRawMap m => MergeConfigPath k m h
  | Prim v => setConfig k v false h
  end.

Fixpoint MergeConfigPath (path : string) (m : list (string * ConfValue))
    (h : Hub) : outcome Hub :=
  match m with
  | [] => Done h
  | (k, v) :: m' =>
    match mergeEntry (joinPath path k) v h with
    | Done h' => MergeConfigPath path m' h'
    | Panicked msg => Panicked msg
    end
  end.

Definition MergeConfig (m : list (string * ConfValue)) (h : Hub)
  : outcome Hub :=
  MergeConfigPath "" m h.

(** The calls of [setConfig] one after the other, up to the first panic. *)
Fixpoint setAll (kvs : list (string * GoVal)) (h : Hub) : outcome Hub :=
  match kvs with
  | [] => Done h
  | (k, v) :: kvs' =>
    match setConfig k v false h with
    | Done h' => setAll kvs' h'
    | Panicked msg => Panicked msg
    end
  end.

End Merge.

(** The primitive values of a config map under their dotted keys, in the
    order of the traversal. *)
Fixpoint dotted (k : string) (v : ConfValue) : list (string * GoVal) :=
  let under :=
    fix go (path : string) (m : list (string * ConfValue))
      : list (string * GoVal) :=
      match m with
      | [] => []
      | (k, v) :: m' => dotted (joinPath path k) v ++ go path m'
      end in
  match v with
  | InMap m => under k m
  | InRawMap m => under k m
  | Prim v => [(k, v)]
  end.

Fixpoint dottedKeys (path : string) (m : list (string * ConfValue))
  : list (string * GoVal) :=
  match m with
  | [] => []
  | (k, v) :: m' => dotted (joinPath path k) v ++ dottedKeys path m'
  end.

(** The value [setConfig] stores for a value it supports: integers are
    widened to 64 bits and a float32 to a float64. *)
Definition stored_as (v : GoVal) : GoVal :=
  match v with
  | VInt i | VInt32 i => VInt64 i
  | VUint u | VUint32 u => VUint64 u
  | VFloat32 f => VFloat64 (float64_of f)
  | _ => v
  end.

(** [float64(v)] of an integer: the nearest float64, ties to even. *)
Definition nearest_float (v : Z) : float :=
  SF2Prim (binary_normalize prec emax v 0 false).

(** The integer part of a float64, and [None] for NaN and the
    infinities. *)
Definition truncate (f : float) : option Z :=
  match Prim2SF f with
  | S754_zero _ => Some 0%Z
  | S754_finite sign m e =>
    let q := Z.shiftl (Z.pos m) e in
    Some (if sign then - q else q)%Z
  | _ => None
  end.

(** An integer literal, with its sign, for the examples of [ParseFloat]. *)
Definition integer_literal (s : string) : option Z :=
  match s with
  | EmptyString => None
  | String c s' =>
    let '(neg, s1) :=
      if decide (c = "+"%char) then (false, s')
      else if decide (c = "-"%char) then (true, s')
      else (false, s) in
    if strconv.digits s1 && negb (bool_decide (s1 = ""))
    then Some (if neg then - strconv.decimal s1 0 else strconv.decimal s1 0)%Z
    else None
  end.

(** An implementation of [TypedReads] over the dedicated fields. The
    conversions of a float64 in the range of the integer type are the
    ones of the language; out of that range, where the language leaves
    the result to the platform, this instance answers the pattern
    [0x8000000000000000]. Its [ParseFloat] reads integer literals only,
    and answers 0, as for a syntax error, on everything else. *)
Definition plainReads : TypedReads := {|
  IsPrivate := f_Private;
  getGlobalChatEnabled := f_GlobalChat;
  getRedirectNMDCToTLS := f_RedirectNMDCToTLS;
  getRedirectNMDCToADC := f_RedirectNMDCToADC;
  getRedirectADCToTLS := f_RedirectADCToTLS;
  zlibLevel := f_ZlibLevel;
  ParseFloat s :=
    match integer_literal s with
    | Some v => nearest_float v
    | None => 0%float
    end;
  int64_of_float f :=
    match truncate f with
    | Some v => if (- 2 ^ 63 <=? v)%Z && (v <? 2 ^ 63)%Z then v
                else (- 2 ^ 63)%Z
    | None => (- 2 ^ 63)%Z
    end;
  uint64_of_float f :=
    match truncate f with
    | Some v => if (0 <=? v)%Z && (v <? 2 ^ 64)%Z then v else (2 ^ 63)%Z
    | None => (2 ^ 63)%Z
    end;
  float_of_int := nearest_float
|}.

End ConfigRead.


(* ===================================================================== *)
(** * package nmdc: the state of the text codec *)
(* ===================================================================== *)

Module NMDCState.
Import NMDC.

(** The writer's encoder and the reader's decoder belong to the same
    encoding, or there is neither. *)
Definition paired (c : Conn) : Prop :=
  (TextEncoder c = None /\ TextDecoder c = None) \/
  exists enc, TextEncoder c = Some (HTMLEscapeUnsupported (NewEncoder enc))
              /\ TextDecoder c = Some (NewDecoder enc).

End NMDCState.


(* ===================================================================== *)
(** * package hub: more of the IRC peer *)
(* ===================================================================== *)

Module IRCPeer.
Import IRC.

(** The successful reservations and the closes of peers in a trace. *)
Definition is_reserved (e : Event) : bool :=
  match e with EvReserve _ true => true | _ => false end.

Definition reserves (t : Trace) : nat := length (filter is_reserved t).

Definition is_close (e : Event) : bool :=
  match e with EvClose _ => true | _ => false end.

Definition closes (t : Trace) : nat := length (filter is_close t).

(** [c] appends events to the trace, all of them of the kind [P]. *)
Definition appends_only {A} (P : Event -> bool) (c : M A) : Prop :=
  forall t, exists ev, (c t).2 = t ++ ev /\ Forall (fun e => P e = true) ev.

#[global] Instance irc_Prefix_eq_dec : EqDecision irc_Prefix.
Proof. solve_decision. Defined.

#[global] Instance ircPeer_eq_dec : EqDecision ircPeer.
Proof. solve_decision. Defined.

(** What the command loop of [ServeIRC] does for a peer: it answers a PING
    with a PONG and passes chat on, from that peer. *)
Definition session_event (peer : ircPeer) (e : Event) : bool :=
  match e with
  | EvWrite m _ => bool_decide (Command m = "PONG")
  | EvSendChat from _ => bool_decide (from = peer)
  | EvPrivateChat from _ _ => bool_decide (from = peer)
  | _ => false
  end.

(** The messages of the write events of a trace, and their outcomes. *)
Definition written (t : Trace) : list irc_Message :=
  omap (fun e => match e with EvWrite m _ => Some m | _ => None end) t.

Definition write_failed (e : Event) : bool :=
  match e with EvWrite _ (Some _) => true | _ => false end.

Section Leave.
Variable h : Hub.

Definition partOf (p : ircPeer) (peer : Peer) : irc_Message :=
  {| Prefix := Some match peer with
                    | IrcPeer p2 => ownPref p2
                    | OtherPeer name =>
                      {| Name := name; User := name;
                         Host := Name (hostPref p) |}
                    end;
     Command := "PART";
     Params := [ircHubChan; "disconnect"] |}.

Fixpoint PeersLeave (p : ircPeer) (peers : list Peer) : M unit :=
  match peers with
  | [] => ret tt
  | peer :: peers' => writeMessage h (partOf p peer) ;;; PeersLeave p peers'
  end.

Definition PeersUpdate (p : ircPeer) (peers : list Peer) : M unit :=
  ret tt. (* no updates *)

End Leave.

(** A hub on which the write of the second message of a run fails. *)
Definition flakyHub : Hub := {|
  validateUserName _ _ := None;
  nameAvailable _ _ := true;
  reserveName _ _ := true;
  getUser _ _ := (false, false, None);
  IsPrivate _ := false;
  getGlobalChatEnabled _ := true;
  Peers _ := [];
  listPeers _ := [];
  PeerByName _ _ := None;
  callOnJoined _ _ := true;
  write_result t _ :=
    if decide (length t = 1) then Some (net_err "broken pipe") else None;
  local_host := "hub.example";
  local_port := "1411";
  getName := "Hub";
  soft_Name := "GoHub";
  soft_Version := "0.1";
  created_date := "Mon Jan 2 2006";
  created_time := "15:04:05";
  errNickTaken := errors_New "nick taken";
  errConnInsecure := errors_New "connection is insecure";
  errServerIsPrivate := errors_New "server is private"
|}.

End IRCPeer.


(* ===================================================================== *)
(** * adc/client/client2hub.go: the client behind the handshake *)
(* ===================================================================== *)

Module ADCClient.

Abbreviation SID := ADC.SID.
Abbreviation Feature := ADC.Feature.
Abbreviation outcome := Config.outcome.
Abbreviation Done := Config.Done.
Abbreviation Panicked := Config.Panicked.

(** A client identifier is 24 bytes wide; the zero value is all zeros. *)
Definition CID := Z.
Definition zeroCID : CID := 0%Z.

Definition FeaSEGA : Feature := "SEGA".
Definition FeaTCP4 : Feature := "TCP4".

(** [adcp.UserInfo] (go-dc): the fields that this file reads or writes. *)
Record UserInfo := {
  Id : CID;
  Pid : option CID;
  Name : string;
  Application : string;
  Version : string;
  Features : list Feature;
  Slots : Z;
  Ip4 : string
}.

Definition zeroUser : UserInfo :=
  {| Id := zeroCID; Pid := None; Name := ""; Application := "";
     Version := ""; Features := []; Slots := 0; Ip4 := "" |}.

(** A call that may panic, then the next. *)
Definition andThen {A B} (o : outcome A) (k : A -> outcome B) : outcome B :=
  match o with
  | Config.Done a => k a
  | Config.Panicked msg => Panicked msg
  end.

(** ** Peers

    A [*Peer] is an address into the store of the [Peer] values that have
    been allocated; the two maps of the connection hold such addresses,
    and [None] is a nil map. *)
Record Peer := {
  sid : option SID; (* may change if user disconnects *)
  user : UserInfo
}.

Definition ptr := nat.

Record Peers := {
  heap : gmap ptr Peer;
  (* keeps both online and offline users *)
  byCID : option (gmap CID ptr);
  (* only keeps online users *)
  bySID : option (gmap SID ptr)
}.

Definition noPeers : Peers := {| heap := ∅; byCID := None; bySID := None |}.

Definition with_heap (hp : gmap ptr Peer) (ps : Peers) : Peers :=
  {| heap := hp; byCID := byCID ps; bySID := bySID ps |}.

Definition online (p : ptr) (s : SID) (ps : Peers) : Peers :=
  with_heap (alter (fun o => {| sid := Some s; user := user o |}) p (heap ps))
            ps.

Definition offline (p : ptr) (ps : Peers) : Peers :=
  with_heap (alter (fun o => {| sid := None; user := user o |}) p (heap ps))
            ps.

Definition getSID (p : ptr) (ps : Peers) : option SID :=
  match heap ps !! p with
  | Some o => sid o
  | None => None
  end.

Definition Online (p : ptr) (ps : Peers) : bool :=
  bool_decide (is_Some (getSID p ps)).

Definition Info (p : ptr) (ps : Peers) : option UserInfo :=
  user <$> heap ps !! p.

Definition update (p : ptr) (u : UserInfo) (ps : Peers) : outcome Peers :=
  match heap ps !! p with
  | None => Panicked "nil pointer dereference"
  | Some o =>
    if decide (Id (user o) <> Id u) then Panicked "wrong cid"
    else Done (with_heap (<[p := {| sid := sid o; user := u |}]> (heap ps)) ps)
  end.

Definition peerBySID (s : SID) (ps : Peers) : option ptr :=
  match bySID ps with
  | Some m => m !! s
  | None => None
  end.

(** [c.peers.bySID[sid] = p] and [c.peers.byCID[cid] = p] *)
Definition set_bySID (s : SID) (p : ptr) (ps : Peers) : outcome Peers :=
  match bySID ps with
  | None => Panicked "assignment to entry in nil map"
  | Some m =>
    Done {| heap := heap ps; byCID := byCID ps; bySID := Some (<[s := p]> m) |}
  end.

Definition set_byCID (c : CID) (p : ptr) (ps : Peers) : outcome Peers :=
  match byCID ps with
  | None => Panicked "assignment to entry in nil map"
  | Some m =>
    Done {| heap := heap ps; byCID := Some (<[c := p]> m); bySID := bySID ps |}
  end.

(** [if c.peers.byCID == nil { ... make both maps ... }] *)
Definition make_maps (ps : Peers) : Peers :=
  match byCID ps with
  | None => {| heap := heap ps; byCID := Some ∅; bySID := Some ∅ |}
  | Some _ => ps
  end.

(** [&Peer{hub: c, user: &u}] *)
Definition new_peer (u : UserInfo) (ps : Peers) : Peers * ptr :=
  let p := fresh (dom (heap ps)) in
  (with_heap (<[p := {| sid := None; user := u |}]> (heap ps)) ps, p).

Definition peerJoins (s : SID) (u : UserInfo) (ps : Peers)
  : outcome (Peers * ptr) :=
  let ps := make_maps ps in
  match byCID ps ≫= (fun m => m !! Id u) with
  | Some p =>
    andThen (set_bySID s p ps) (fun ps =>
    let ps := online p s ps in
    andThen (update p u ps) (fun ps =>
    Done (ps, p)))
  | None =>
    let '(ps, p) := new_peer u ps in
    andThen (set_bySID s p ps) (fun ps =>
    andThen (set_byCID (Id u) p ps) (fun ps =>
    let ps := online p s ps in
    Done (ps, p)))
  end.

Definition peerQuit (s : SID) (ps : Peers) : Peers * error :=
  match peerBySID s ps with
  | None => (ps, Some (fmt_Errorf "unknown user quits: %v" [pretty s]))
  | Some p =>
    let ps := offline p ps in
    ({| heap := heap ps; byCID := byCID ps;
        bySID := delete s <$> bySID ps |}, None)
  end.

(** [pck.DecodeMessageTo(target)]: what the target holds afterwards, and
    the error. *)
Definition Decoder := UserInfo -> UserInfo * error.

Definition peerUpdate (s : SID) (pck : Decoder) (ps : Peers)
  : outcome (Peers * error) :=
  match peerBySID s ps with
  | Some p =>
    match heap ps !! p with
    | None => Panicked "nil pointer dereference"
    | Some o =>
      let '(u, err) := pck (user o) in
      Done (with_heap (<[p := {| sid := sid o; user := u |}]> (heap ps)) ps,
            err)
    end
  | None =>
    let '(u, err) := pck zeroUser in
    if is_err err then Done (ps, err) else
    let ps := make_maps ps in
    let '(ps, p) := new_peer u ps in
    andThen (set_bySID s p ps) (fun ps =>
    andThen (set_byCID (Id u) p ps) (fun ps =>
    let ps := online p s ps in
    Done (ps, None)))
  end.

Definition OnlinePeers (ps : Peers) : list ptr :=
  match bySID ps with
  | Some m => (map_to_list m).*2
  | None => []
  end.

(** The registry hangs together: the two maps are made together, and
    every address in them is allocated. *)
Definition consistent (ps : Peers) : Prop :=
  (byCID ps = None <-> bySID ps = None) /\
  (forall c p, byCID ps ≫= (fun m => m !! c) = Some p -> is_Some (heap ps !! p))
  /\
  (forall s p, peerBySID s ps = Some p -> is_Some (heap ps !! p)).

(** Nothing that was allocated or filed under a CID is dropped. *)
Definition remembers (ps ps' : Peers) : Prop :=
  (forall q, is_Some (heap ps !! q) -> is_Some (heap ps' !! q)) /\
  (forall c, is_Some (byCID ps ≫= (fun m => m !! c)) ->
             is_Some (byCID ps' ≫= (fun m => m !! c))).

(** ** Feature broadcasts *)

Record FeatureSel := {
  Fea : Feature;
  Sel : bool
}.

(** The loop of [handleFeature]: [false] as soon as a selector disagrees
    with the extensions of the client. *)
Fixpoint selected (ext : gset Feature) (sels : list FeatureSel) : bool :=
  match sels with
  | [] => true
  | f :: sels' =>
    let enabled := bool_decide (Fea f ∈ ext) in
    if negb (Bool.eqb enabled (Sel f)) then false
    else selected ext sels'
  end.

Definition handleFeature {St Msg : Type}
    (handleBroadcast : SID -> Msg -> St -> St * error)
    (ext : gset Feature) (ID : SID) (sels : list FeatureSel) (msg : Msg)
    (st : St) : St * error :=
  if selected ext sels then
    (* FIXME: this allows F-MSG that we should probably avoid *)
    handleBroadcast ID msg st
  else (st, None).

(** ** Reverse connections *)

(** The channels of a token carry one answer; the answer is what
    [handleConnReq] returns here. *)
Record revConnToken := {
  cid : CID
}.

Abbreviation Tokens := (option (gmap string revConnToken)).

(** [revConnToken]; [rand.Int()] yields the numbers of [random] in turn,
    and [None] means that they were all taken. *)
Fixpoint newRevConnToken (random : list Z) (c : CID) (tokens : Tokens)
  : option (Tokens * string) :=
  match random with
  | [] => None
  | n :: random' =>
    let tok := pretty n in
    match default ∅ tokens !! tok with
    | None =>
      Some (Some (<[tok := {| cid := c |}]> (default ∅ tokens)), tok)
    | Some _ =>
      (* collision, pick another token *)
      newRevConnToken random' c tokens
    end
  end.

Inductive DirectMsg :=
| ConnectRequest (Proto : string) (Port : Z) (Token : string)
| OtherDirect (cmd : string).

Definition ProtoADC := "ADC/1.0".

(** Declared in another file of the package; only its identity counts. *)
Definition ErrPeerOffline : err := errors_New "peer is offline".

(** [handleConnReq]: the address sent on [tok.addr], or the error sent on
    [tok.errc]. *)
Definition handleConnReq (p : option UserInfo) (Proto : string) (Port : Z)
  : string + err :=
  match p with
  | None => inr ErrPeerOffline
  | Some info =>
    if decide (Proto <> ProtoADC)
    then inr (fmt_Errorf "unsupported protocol: %q" [Proto])
    else if decide (Port = 0%Z)
    then inr (errors_New "no port to connect to")
    else
      let addr := Ip4 info in
      if decide (addr = "")
      then inr (errors_New "no address to connect to")
      else inl (addr +:+ ":" +:+ pretty Port)
  end.

(** [handleDirect]: the tokens afterwards, the error, and the answer that
    the goroutine it starts gives to the holder of the token, if any; the
    goroutine is taken to run before the peers change again. *)
Definition handleDirect (ID : SID) (decoded : DirectMsg + err)
    (ps : Peers) (tokens : Tokens)
  : Tokens * error * option (revConnToken * (string + err)) :=
  match decoded with
  | inr e => (tokens, Some e, None)
  | inl (ConnectRequest Proto Port Token) =>
    let found := default ∅ tokens !! Token in
    let tokens := delete Token <$> tokens in
    match found with
    | None => (tokens, None, None)
    | Some tok =>
      let p := peerBySID ID ps ≫= (fun p => Info p ps) in
      (tokens, None, Some (tok, handleConnReq p Proto Port))
    end
  | inl (OtherDirect _) => (tokens, None, None)
  end.

(** ** The IDENTIFY phase *)

(** What the build provides: the name and the version of the program, and
    the hash that turns a PID into a CID. *)
Class Build := {
  version_Name : string;
  version_Vers : string;
  Hash : CID -> CID
}.

(** The write side of the connection for broadcasts. *)
Record Out := {
  broadcasts : list (SID * UserInfo);
  out_write_err : error;
  out_flush_err : error;
  out_flushes : nat
}.

Definition with_Features (fs : list Feature) (u : UserInfo) : UserInfo :=
  {| Id := Id u; Pid := Pid u; Name := Name u; Application := Application u;
     Version := Version u; Features := fs; Slots := Slots u; Ip4 := Ip4 u |}.

Definition with_Id (c : CID) (u : UserInfo) : UserInfo :=
  {| Id := c; Pid := Pid u; Name := Name u; Application := Application u;
     Version := Version u; Features := Features u; Slots := Slots u;
     Ip4 := Ip4 u |}.

Definition with_Pid (pid : option CID) (u : UserInfo) : UserInfo :=
  {| Id := Id u; Pid := pid; Name := Name u; Application := Application u;
     Version := Version u; Features := Features u; Slots := Slots u;
     Ip4 := Ip4 u |}.

Definition with_App (name vers : string) (u : UserInfo) : UserInfo :=
  {| Id := Id u; Pid := Pid u; Name := Name u; Application := name;
     Version := vers; Features := Features u; Slots := Slots u;
     Ip4 := Ip4 u |}.

(** [if !user.Features.Has(f) { user.Features = append(user.Features, f) }] *)
Definition ensureFeature (f : Feature) (u : UserInfo) : UserInfo :=
  if bool_decide (f ∈ Features u) then u
  else with_Features (Features u ++ [f]) u.

(** [identifyToHub]: the user info as the caller sees it afterwards, the
    connection, and the error. *)
Definition identifyToHub `{Build} (conn : Out) (s : SID) (u : UserInfo)
  : outcome (Out * UserInfo * error) :=
  andThen
    (if decide (Id u = zeroCID) then
       match Pid u with
       | None => Panicked "nil pointer dereference"
       | Some pid => Done (with_Id (Hash pid) u)
       end
     else Done u) (fun u =>
  let u := if decide (Application u = "")
           then with_App version_Name version_Vers u else u in
  let u := foldl (fun u f => ensureFeature f u) u [FeaSEGA; FeaTCP4] in
  match out_write_err conn with
  | Some e => Done (conn, u, Some e)
  | None =>
    let conn := {| broadcasts := broadcasts conn ++ [(s, u)];
                   out_write_err := out_write_err conn;
                   out_flush_err := out_flush_err conn;
                   out_flushes := S (out_flushes conn) |} in
    Done (conn, u, out_flush_err conn)
  end).

(** ** The user list *)

Record HubInfo := {
  HubName : string;
  HubVersion : string;
  HubDesc : string
}.

Record Status := {
  Sev : Z;
  Code : Z;
  Msg : string
}.

(** [st.Ok()] and [st.Err()] *)
Definition Ok (st : Status) : bool := (Sev st =? 0)%Z.

Definition Err (st : Status) : err :=
  fmt_Errorf "%d: %s" [pretty (Sev st * 100 + Code st)%Z; Msg st].

(** A raw packet: its kind, what [Msg.Cmd()] says, and what decoding its
    message gives for the target the code decodes it into. *)
Inductive Packet :=
| InfoPacket (typ : string)
             (DecodeHub : HubInfo -> HubInfo * error)
             (DecodeStatus : Status * error)
| BroadcastPacket (ID : SID) (DecodeUser : Decoder)
| OtherPacket (kind : string).

Record Client := {
  c_sid : SID;
  c_user : UserInfo;
  c_hub : HubInfo;
  c_peers : Peers
}.

Inductive Stage := hubInfo | optStatus | userList.

Definition stage_no (st : Stage) : Z :=
  match st with hubInfo => 0 | optStatus => 1 | userList => 2 end.

Definition unexpected_in (st : Stage) : err :=
  fmt_Errorf "unexpected command in stage %d: %#v" [pretty (stage_no st)].

(** The loop of [acceptUsersList]; the packets come from [incoming], a
    read past them runs into the deadline. Returned with the client and
    the error are the packets that were not read. *)
Fixpoint acceptLoop (stage : Stage) (incoming : list (Packet + err))
    (c : Client) : outcome (Client * error * list (Packet + err)) :=
  match incoming with
  | [] => Done (c, Some (net_err "i/o timeout"), [])
  | inr e :: rest => Done (c, Some e, rest)
  | inl (InfoPacket typ DecodeHub DecodeStatus) :: rest =>
    match stage with
    | hubInfo =>
      (* waiting for hub info *)
      if decide (typ <> "INF")
      then Done (c, Some (fmt_Errorf "expected hub info, received: %#v" []),
                 rest)
      else
        let '(hub, e) := DecodeHub (c_hub c) in
        let c := {| c_sid := c_sid c; c_user := c_user c; c_hub := hub;
                    c_peers := c_peers c |} in
        if is_err e then Done (c, e, rest)
        else acceptLoop optStatus rest c
    | optStatus =>
      (* optionally wait for status command *)
      if decide (typ <> "STA")
      then Done (c, Some (fmt_Errorf "expected status, received: %#v" []),
                 rest)
      else
        let '(st, e) := DecodeStatus in
        if is_err e then Done (c, e, rest)
        else if negb (Ok st) then Done (c, Some (Err st), rest)
        else acceptLoop userList rest c
    | userList => Done (c, Some (unexpected_in stage), rest)
    end
  | inl (BroadcastPacket ID DecodeUser) :: rest =>
    match stage with
    | hubInfo => Done (c, Some (unexpected_in stage), rest)
    | optStatus | userList =>
      if decide (ID = c_sid c) then
        (* make sure to wipe PID, so we don't send it later occasionally *)
        let '(u, e) := DecodeUser (with_Pid None (c_user c)) in
        let c := {| c_sid := c_sid c; c_user := u; c_hub := c_hub c;
                    c_peers := c_peers c |} in
        (* done, should switch to NORMAL *)
        Done (c, e, rest)
      else
        (* other users *)
        let '(u, e) := DecodeUser zeroUser in
        if is_err e then Done (c, e, rest)
        else
          andThen (peerJoins ID u (c_peers c)) (fun '(ps, _) =>
          (* continue until we see ourselves in the list *)
          acceptLoop userList rest
            {| c_sid := c_sid c; c_user := c_user c; c_hub := c_hub c;
               c_peers := ps |})
    end
  | inl (OtherPacket _) :: rest =>
    Done (c, Some (fmt_Errorf "unexpected command: %#v" []), rest)
  end.

Definition acceptUsersList (incoming : list (Packet + err)) (c : Client)
  : outcome (Client * error * list (Packet + err)) :=
  acceptLoop hubInfo incoming c.

(** The users of a list joining one after the other. *)
Fixpoint joinAll (users : list (SID * UserInfo)) (ps : Peers)
  : outcome Peers :=
  match users with
  | [] => Done ps
  | (s, u) :: users' =>
    andThen (peerJoins s u ps) (fun '(ps, _) => joinAll users' ps)
  end.

(** Packets that decode to a given value. *)
Definition userPacket (su : SID * UserInfo) : Packet + err :=
  inl (BroadcastPacket su.1 (fun _ => (su.2, None))).

Definition statusPacket (st : Status) : Packet + err :=
  inl (InfoPacket "STA" (fun h => (h, None)) (st, None)).

(** What the loop reads between the hub info and the own info without
    returning: a status, or the info of another user. *)
Definition foreign (own : SID) (x : Packet + err) : Prop :=
  match x with
  | inl (InfoPacket typ _ _) => typ = "STA"
  | inl (BroadcastPacket ID _) => ID <> own
  | _ => False
  end.

Definition exampleBuild : Build :=
  {| version_Name := "GoDC"; version_Vers := "0.1";
     Hash := fun pid => (pid + 1)%Z |}.

Definition guest (c : CID) (name : string) : UserInfo :=
  {| Id := c; Pid := None; Name := name; Application := ""; Version := "";
     Features := []; Slots := 1; Ip4 := "10.0.0.1" |}.

End ADCClient.


(* ===================================================================== *)
(** * package nmdc: the goroutines of a connection *)
(* ===================================================================== *)

(** [Conn] is shared by the goroutine that reads and the goroutines that
    write or configure; its methods take [c.rmu] or [c.wmu] around what
    they do. Here each method is the list of its steps, and a run is an
    interleaving of the steps of the goroutines. *)
Module NMDCSteps.
Import NMDC.

Inductive Mutex := wmu | rmu.

(** What a goroutine keeps from one step to the next: the decoder that
    the hook has returned to the reader. *)
Definition Local := option Decoder.

Inductive Op :=
| Lock (mu : Mutex)
| Unlock (mu : Mutex)
| Do (f : Local -> Conn -> Local * Conn)
| Encode.   (* c.w.WriteMsg(m...): the writer encodes with what it has *)

Record Machine := {
  shared : Conn;
  wmu_held : option nat;
  rmu_held : option nat;
  goroutines : list (Local * list Op);
  (** what each [Encode] found: the encoder of the writer, and the
      decoder that [TextDecoder] answers with at that moment *)
  seen : list (option Encoder * option Decoder)
}.

Definition holder (mu : Mutex) (m : Machine) : option nat :=
  match mu with wmu => wmu_held m | rmu => rmu_held m end.

Definition set_holder (mu : Mutex) (g : option nat) (m : Machine)
  : Machine :=
  {| shared := shared m;
     wmu_held := match mu with wmu => g | rmu => wmu_held m end;
     rmu_held := match mu with rmu => g | wmu => rmu_held m end;
     goroutines := goroutines m;
     seen := seen m |}.

Definition update (c : Conn) (gs : list (Local * list Op))
    (sn : list (option Encoder * option Decoder)) (m : Machine) : Machine :=
  {| shared := c; wmu_held := wmu_held m; rmu_held := rmu_held m;
     goroutines := gs; seen := sn |}.

(** Goroutine [i] takes its next step; [None] when it has none left or
    waits for a mutex. *)
Definition step (i : nat) (m : Machine) : option Machine :=
  match goroutines m !! i with
  | Some (l, op :: ops) =>
    let gs l' := <[i := (l', ops)]> (goroutines m) in
    match op with
    | Lock mu =>
      match holder mu m with
      | None =>
        Some (set_holder mu (Some i) (update (shared m) (gs l) (seen m) m))
      | Some _ => None
      end
    | Unlock mu =>
      Some (set_holder mu None (update (shared m) (gs l) (seen m) m))
    | Do f =>
      let '(l', c') := f l (shared m) in
      Some (update c' (gs l') (seen m) m)
    | Encode =>
      Some (update (shared m) (gs l)
              (seen m ++ [(TextEncoder (shared m), TextDecoder (shared m))])
              m)
    end
  | _ => None
  end.

(** The goroutines take steps in the order of the schedule. *)
Fixpoint run (sched : list nat) (m : Machine) : option Machine :=
  match sched with
  | [] => Some m
  | i :: sched' =>
    match step i m with
    | Some m' => run sched' m'
    | None => None
    end
  end.

Definition start (progs : list (list Op)) (c : Conn) : Machine :=
  {| shared := c; wmu_held := None; rmu_held := None;
     goroutines := map (fun p => (None, p)) progs;
     seen := [] |}.


(** [WriteMsg]: under [c.wmu], the writer encodes. *)
Definition WriteMsg_ops : list Op := [Lock wmu; Encode; Unlock wmu].

(** [SetEncoding]: under [c.wmu], the two statements of [setEncoding]
    with [event] false, the one on the writer (all that [setEncoding]
    does with [event] true) and the one on the reader. *)
Definition SetEncoding_ops (enc : option Encoding) : list Op :=
  [Lock wmu;
   Do (fun l c => (l, setEncoding enc true c));
   Do (fun l c =>
         (l, with_r (Reader_SetDecoder (NewDecoder <$> enc) (r c)) c));
   Unlock wmu].

(** The encoder and the decoder of one encoding, or neither. *)
Definition one_encoding (o : option Encoder * option Decoder) : Prop :=
  (o.1 = None /\ o.2 = None) \/
  exists enc, o.1 = Some (HTMLEscapeUnsupported (NewEncoder enc))
              /\ o.2 = Some (NewDecoder enc).

(** The goroutines change the encoding atomically for the writers:
    however their steps interleave, every write finds the encoder and
    the decoder of one encoding. *)
Definition atomic_for_writers (progs : list (list Op)) (c : Conn) : Prop :=
  forall sched m,
    run sched (start progs c) = Some m -> Forall one_encoding (seen m).

(** The machines that at most [n] steps lead to. *)
Fixpoint reach (n : nat) (m : Machine) : list Machine :=
  m :: match n with
       | O => []
       | S n' =>
         flat_map (fun i => match step i m with
                            | Some m' => reach n' m'
                            | None => []
                            end)
                  (seq 0 (length (goroutines m)))
       end.

(** The steps that the goroutines have left. *)
Definition steps_left (m : Machine) : nat :=
  foldr (fun g n => length g.2 + n) 0 (goroutines m).

End NMDCSteps.

(* ===================================================================== *)
(** * Theorems *)
(* ===================================================================== *)

Section ConfigTheorems.
Import Config.
Context `{TypedAccess}.

Lemma ignored_cases (P : string -> Prop) :
  P "chat.encoding" -> P "chat.log.join" -> P "chat.log.max" ->
  P "database.path" -> P "database.type" -> P "plugins.path" ->
  P "serve.host" -> P "serve.port" -> P "serve.tls.cert" ->
  P "serve.tls.key" -> P ConfigHubPrivate ->
  forall key, key ∈ configIgnored -> P key.
Proof.
  intros ? ? ? ? ? ? ? ? ? ? ? key Hin.
  unfold configIgnored in Hin. apply elem_of_list_to_set in Hin.
  repeat (apply elem_of_cons in Hin as [->|Hin]; [assumption|]).
  by apply elem_of_nil in Hin.
Qed.

Lemma ignored_true key : key ∈ configIgnored -> ignored key = true.
Proof. intros Hin. unfold ignored. by apply bool_decide_eq_true. Qed.

Lemma ignored_not_alias key : key ∈ configIgnored -> resolve key = key.
Proof.
  revert key. apply (ignored_cases (fun key => resolve key = key));
    reflexivity.
Qed.

(** No ignored key is one of the keys with a typed string setter. *)
Lemma ignored_not_string key :
  key ∈ configIgnored ->
  forall A (a1 a2 a3 a4 a5 a6 a7 a8 a9 b : A),
    (if decide (key = ConfigHubName) then a1
     else if decide (key = ConfigHubDesc) then a2
     else if decide (key = ConfigHubTopic) then a3
     else if decide (key = ConfigHubMOTD) then a4
     else if decide (key = ConfigHubOwner) then a5
     else if decide (key = ConfigHubWebsite) then a6
     else if decide (key = ConfigHubEmail) then a7
     else if decide (key = ConfigBotName) then a8
     else if decide (key = ConfigBotDesc) then a9
     else b) = b.
Proof.
  intros Hin A a1 a2 a3 a4 a5 a6 a7 a8 a9 b. revert key Hin.
  apply (ignored_cases (fun key => _ = b)); reflexivity.
Qed.

Lemma setConfigMap_ignored key val h :
  key ∈ configIgnored -> setConfigMap key val h = h.
Proof. intros Hin. unfold setConfigMap. by rewrite ignored_true. Qed.

Lemma saveConfig_id key val h : saveConfig key val h = h.
Proof. unfold saveConfig. by destruct (ignored key). Qed.

Lemma setConfigString_ignored key val h :
  key ∈ configIgnored -> setConfigString key val h = h.
Proof.
  intros Hin. unfold setConfigString. rewrite ignored_not_alias by done.
  rewrite ignored_not_string by done. by apply setConfigMap_ignored.
Qed.

(** C8. For every key in the ignored set, each of the live mutation
    operations [SetConfig], [SetConfigBool], [SetConfigString],
    [SetConfigInt], [SetConfigUint] and [SetConfigFloat] leaves the hub's
    configuration exactly as it was, whatever the value and whatever the
    typed setters do: nothing is stored in the generic map and no typed
    setter runs. *)
Theorem ignored_keys_are_frozen (key : string) (h : Hub) :
  key ∈ configIgnored ->
  (forall val, SetConfig key val h = Done h) /\
  (forall val, SetConfigBool key val h = h) /\
  (forall val, SetConfigString key val h = h) /\
  (forall val, SetConfigInt key val h = h) /\
  (forall val, SetConfigUint key val h = h) /\
  (forall val, SetConfigFloat key val h = h).
Proof.
  intros Hin.
  pose proof (ignored_true key Hin) as Hi.
  pose proof (ignored_not_alias key Hin) as Hr.
  repeat split; intros val.
  - unfold SetConfig, setConfig. by rewrite Hi.
  - unfold SetConfigBool, setConfigBool.
    by rewrite saveConfig_id, Hr, Hi.
  - unfold SetConfigString.
    by rewrite saveConfig_id, setConfigString_ignored.
  - unfold SetConfigInt, setConfigInt.
    by rewrite saveConfig_id, Hr, Hi.
  - unfold SetConfigUint, setConfigUint.
    by rewrite saveConfig_id, Hr, Hi.
  - unfold SetConfigFloat, setConfigFloat.
    by rewrite saveConfig_id, Hr, Hi.
Qed.

Lemma not_builtin_string key :
  key ∉ builtinKeys ->
  key <> ConfigHubName /\ key <> ConfigHubDesc /\ key <> ConfigHubTopic /\
  key <> ConfigHubMOTD /\ key <> ConfigHubOwner /\ key <> ConfigHubWebsite /\
  key <> ConfigHubEmail /\ key <> ConfigBotName /\ key <> ConfigBotDesc.
Proof.
  intros Hk. unfold builtinKeys in Hk.
  repeat split; intros ->; apply Hk; set_solver.
Qed.

Lemma setConfigString_generic key v h :
  key ∉ builtinKeys -> configAliases !! key = None ->
  setConfigString key v h = setConfigMap key (VString v) h.
Proof.
  intros Hk Ha. apply not_builtin_string in Hk.
  destruct Hk as (?&?&?&?&?&?&?&?&?).
  unfold setConfigString, resolve. rewrite Ha.
  repeat (case_decide; [done|]). done.
Qed.

Lemma GetConfigString_generic key h :
  key ∉ builtinKeys -> configAliases !! key = None ->
  GetConfigString key h =
    match getConfigMap key h with
    | (_, false) | (VNil, _) => ("", false)
    | (VString v, true) => (v, true)
    | (v, true) => (Sprint v, true)
    end.
Proof.
  intros Hk Ha. apply not_builtin_string in Hk.
  destruct Hk as (?&?&?&?&?&?&?&?&?).
  unfold GetConfigString, resolve. rewrite Ha.
  repeat (case_decide; [done|]). done.
Qed.

(** C9. A key that is neither built-in, nor an alias, nor ignored keeps
    the string it is given: [GetConfigString] after [SetConfigString]
    returns that string and [true]. *)
Theorem unknown_key_string_roundtrip (key v : string) (h : Hub) :
  key ∉ builtinKeys ->
  configAliases !! key = None ->
  key ∉ configIgnored ->
  GetConfigString key (SetConfigString key v h) = (v, true).
Proof.
  intros Hk Ha Hi.
  rewrite GetConfigString_generic by done.
  unfold SetConfigString. rewrite setConfigString_generic by done.
  assert (ignored key = false) as Hf
    by (unfold ignored; by apply bool_decide_eq_false).
  unfold saveConfig, setConfigMap, getConfigMap. rewrite Hf. simpl.
  by rewrite lookup_insert_eq.
Qed.

End ConfigTheorems.

Lemma ignored_keys_are_frozen_witness :
  "serve.port" ∈ Config.configIgnored /\
  Config.SetConfigInt (H := Config.plainFields) "serve.port" 1411
    Config.emptyHub = Config.emptyHub.
Proof.
  assert ("serve.port" ∈ Config.configIgnored) as Hin by compute_done.
  split; [exact Hin|].
  apply (ignored_keys_are_frozen (H := Config.plainFields) "serve.port"
           Config.emptyHub Hin).
Defined.

Lemma unknown_key_string_roundtrip_witness :
  Config.GetConfigString (H := Config.plainFields) "hub.logo"
    (Config.SetConfigString (H := Config.plainFields) "hub.logo" "logo.png"
       Config.emptyHub) = ("logo.png", true).
Proof.
  apply (unknown_key_string_roundtrip (H := Config.plainFields)).
  - compute_done.
  - reflexivity.
  - compute_done.
Defined.

(* --------------------------------------------------------------------- *)
(** ** Closing a connection *)

Section CloseTheorems.

Lemma nmdc_Close_closed (c : NMDC.Conn) :
  NMDC.closed (NMDC.Close c).1 = true.
Proof.
  unfold NMDC.Close. destruct (NMDC.closed c) eqn:Hc; [done|]. reflexivity.
Qed.

Lemma nmdc_Close_again (c : NMDC.Conn) :
  NMDC.closed c = true -> NMDC.Close c = (c, None).
Proof. intros Hc. unfold NMDC.Close. by rewrite Hc. Qed.

Lemma nmdc_CloseTimes_closed (k : nat) (c : NMDC.Conn) :
  NMDC.closed c = true -> NMDC.CloseTimes k c = (c, replicate k None).
Proof.
  intros Hc. induction k as [|k IH]; [done|].
  simpl. by rewrite nmdc_Close_again, IH.
Qed.

Lemma adc_Close_again (c c1 : ADC.Conn) (e : error) :
  ADC.Close c = Some (c1, e) -> ADC.Close c1 = Some (c1, None).
Proof.
  unfold ADC.Close, ADC.recv_closed.
  destruct c as [t f cl cd s]; simpl.
  destruct cl; simpl.
  - destruct cd; simpl.
    + intros [= <- <-]. reflexivity.
    + destruct (0 <? ADC.t_closes t)%nat; [|done].
      intros [= <- <-]. reflexivity.
  - destruct cd; simpl; intros [= <- <-]; reflexivity.
Qed.

Lemma adc_CloseTimes_again (k : nat) (c : ADC.Conn) :
  ADC.Close c = Some (c, None) ->
  ADC.CloseTimes k c = Some (c, replicate k None).
Proof.
  intros Hc. induction k as [|k IH]; [done|].
  simpl. by rewrite Hc, IH.
Qed.

Lemma adc_Close_returns (c : ADC.Conn) :
  ADC.closing c = false -> is_Some (ADC.Close c).
Proof.
  intros Hc. unfold ADC.Close, ADC.recv_closed. rewrite Hc.
  destruct c as [t f cl cd s]; simpl. destruct cd; simpl; eauto.
Qed.

(** C2, as the code has it. [K] calls of [Close], [K >= 1], leave the
    connection as one call leaves it; the first call returns what one call
    returns, and every call after the first returns [nil]. This holds for
    the NMDC connection and, from the state in which [HubHandshake] hands
    the connection out (nobody has closed it yet), for the ADC
    client-to-hub connection, whose [Close] then also does return. *)
Theorem close_repeated (k : nat) :
  (forall c : NMDC.Conn,
     NMDC.CloseTimes (S k) c
     = ((NMDC.Close c).1, (NMDC.Close c).2 :: replicate k None)) /\
  (forall c : ADC.Conn,
     ADC.closing c = false ->
     exists c1 e,
       ADC.Close c = Some (c1, e) /\
       ADC.CloseTimes (S k) c = Some (c1, e :: replicate k None)).
Proof.
  split.
  - intros c. simpl.
    pose proof (nmdc_Close_closed c) as Hc.
    destruct (NMDC.Close c) as [c1 e] eqn:E. simpl in *.
    by rewrite nmdc_CloseTimes_closed.
  - intros c Hc.
    destruct (adc_Close_returns c Hc) as [[c1 e] E].
    exists c1, e. split; [done|]. simpl. rewrite E.
    by rewrite (adc_CloseTimes_again k c1 (adc_Close_again _ _ _ E)).
Qed.

End CloseTheorems.

(** C2, as it is stated, fails: when closing the writer fails, the first
    [Close] returns that error and the second returns [nil], so the second
    call does not return what a single call returns. *)
Lemma close_return_not_idempotent :
  let c := NMDC.NewConn None "" (Some (net_err "broken pipe")) None None in
  (NMDC.Close c).2 = Some (net_err "broken pipe") /\
  (NMDC.Close (NMDC.Close c).1).2 = None /\
  (NMDC.Close (NMDC.Close c).1).2 <> (NMDC.Close c).2.
Proof.
  intros c. split; [reflexivity|]. split; [reflexivity|]. discriminate.
Qed.

Lemma close_repeated_witness :
  let t := {| ADC.incoming := []; ADC.write_err := None;
              ADC.flush_err := None; ADC.outgoing := []; ADC.flushes := 0;
              ADC.t_closes := 0;
              ADC.t_close_err := Some (net_err "broken pipe") |} in
  let c := ADC.newConn t 7%Z ∅ in
  ADC.closing c = false /\
  exists c1 e,
    ADC.Close c = Some (c1, e) /\
    ADC.CloseTimes 3 c = Some (c1, e :: replicate 2 None).
Proof.
  intros t c. split; [reflexivity|].
  apply (proj2 (close_repeated 2) c). reflexivity.
Defined.

(* --------------------------------------------------------------------- *)
(** ** The NMDC reader: fallback encoding and ZOn *)

Section NmdcTheorems.
Import NMDC NMDCSteps.

Example ValidString_two_bytes : ValidString (of_bytes [0xC3; 0xA9]%N) = true.
Proof. reflexivity. Qed.

Example ValidString_lone_byte : ValidString (of_bytes [0xE9]%N) = false.
Proof. reflexivity. Qed.

Example ValidString_surrogate :
  ValidString (of_bytes [0xED; 0xA0; 0x80]%N) = false.
Proof. reflexivity. Qed.

Example ValidString_overlong : ValidString (of_bytes [0xC0; 0x80]%N) = false.
Proof. reflexivity. Qed.

Example ValidString_beyond_range :
  ValidString (of_bytes [0xF4; 0x90; 0x80; 0x80]%N) = false.
Proof. reflexivity. Qed.

Example latin1_e_acute :
  dec_String latin1 (of_bytes [0x63; 0x61; 0x66; 0xE9]%N)
  = (of_bytes [0x63; 0x61; 0x66; 0xC3; 0xA9]%N, None).
Proof. reflexivity. Qed.

(** *** The goroutines of a connection *)

Lemma step_steps_left (i : nat) (m m' : Machine) :
  step i m = Some m' -> steps_left m = S (steps_left m').
Proof.
  unfold step. destruct (goroutines m !! i) as [[l [|op ops]]|] eqn:E;
    try done.
  assert (forall l', steps_left m
            = S (foldr (fun g n => length g.2 + n) 0
                       (<[i := (l', ops)]> (goroutines m)))) as Hgen.
  { intros l'. unfold steps_left. revert i E.
    induction (goroutines m) as [|g gs IH]; intros [|j] Hj; try done.
    - injection Hj as ->. simpl. lia.
    - simpl in *. rewrite (IH j Hj). lia. }
  destruct op as [mu|mu|f|]; simpl.
  - destruct (holder mu m); [done|]. intros [= <-]. apply Hgen.
  - intros [= <-]. apply Hgen.
  - destruct (f l (shared m)) as [l' c']. intros [= <-]. apply Hgen.
  - intros [= <-]. apply Hgen.
Qed.

Lemma run_length (sched : list nat) :
  forall m m', run sched m = Some m' -> length sched <= steps_left m.
Proof.
  induction sched as [|i sched IH]; intros m m' Hrun; simpl in *; [lia|].
  destruct (step i m) as [m1|] eqn:E; [|done].
  rewrite (step_steps_left i m m1 E). specialize (IH m1 m' Hrun). lia.
Qed.

Lemma step_in_range (i : nat) (m m' : Machine) :
  step i m = Some m' -> i ∈ seq 0 (length (goroutines m)).
Proof.
  unfold step. destruct (goroutines m !! i) as [g|] eqn:E; [|done].
  intros _. apply elem_of_seq. apply lookup_lt_Some in E. lia.
Qed.

Lemma reach_complete (sched : list nat) :
  forall n m m', run sched m = Some m' -> length sched <= n ->
                 m' ∈ reach n m.
Proof.
  induction sched as [|i sched IH]; intros n m m' Hrun Hn; simpl in *.
  - injection Hrun as <-. destruct n; apply list_elem_of_here.
  - destruct (step i m) as [m1|] eqn:E; [|done].
    destruct n as [|n]; [lia|]. simpl. apply list_elem_of_further.
    apply list_elem_of_In, in_flat_map. exists i. split.
    + apply list_elem_of_In. by eapply step_in_range.
    + rewrite E. apply list_elem_of_In. apply IH; [done|lia].
Qed.

Lemma SetEncoding_ops_alone (enc : option Encoding) (c : Conn) :
  shared <$> run [0; 0; 0; 0] (start [SetEncoding_ops enc] c)
  = Some (SetEncoding enc c).
Proof. by destruct enc. Qed.


(** [SetEncoding] changes the encoding atomically for the writers: it
    holds [c.wmu] over both of its statements. *)
Lemma SetEncoding_atomic_for_writers (enc : option Encoding) (c : Conn) :
  one_encoding (TextEncoder c, TextDecoder c) ->
  atomic_for_writers [SetEncoding_ops enc; WriteMsg_ops] c.
Proof.
  intros Hold sched m Hrun.
  assert (one_encoding (TextEncoder (SetEncoding enc c),
                        TextDecoder (SetEncoding enc c))) as Hnew.
  { destruct enc as [e|]; [right; by exists e|by left]. }
  pose proof (run_length _ _ _ Hrun) as Hlen.
  pose proof (reach_complete sched 7 _ m Hrun Hlen) as Hin.
  revert Hin. generalize m. apply Forall_forall.
  destruct enc as [e|].
  all: repeat (apply Forall_cons; split;
               [repeat (apply Forall_cons; split; [first [exact Hold|exact Hnew]|]);
                apply Forall_nil_2|]).
  all: apply Forall_nil_2.
Qed.



Lemma readStep_not_ZOn `{Inflater} (c : Conn) :
  forall c' args, readStep c <> (c', Delivered (RawCommand "ZOn" args)).
Proof.
  intros c' args. unfold readStep.
  destruct (splitLine (r_wire (r c))) as [[line rest]|]; [|done].
  destruct line as [|a body]; [done|].
  case_decide; [|done].
  destruct (splitCmd body) as [cmd args'].
  unfold onRawMessage. case_decide as Hcmd.
  - destruct (EnableZlib _) as [r' [e|]]; done.
  - intros [= _ -> _]. done.
Qed.

(** C4, as the code has it. The hook of [NewConn] answers [false] for a
    raw command named exactly [ZOn]: the reader never delivers it to the
    consumer. When such a command comes up and the inflater is off, the
    hook turns it on, so that the bytes after the command are read through
    the inflater, and the read goes on with the next line; when the
    inflater is on already, the read fails. *)
Theorem zon_switches_and_is_skipped `{Inflater} (c : Conn)
    (body args rest : string) :
  splitLine (r_wire (r c)) = Some (String "$" body, rest) ->
  splitCmd body = ("ZOn", args) ->
  (forall fuel c0 c' args',
     ReadMsg fuel c0 <> Some (c', inl (RawCommand "ZOn" args'))) /\
  (r_zlib (r c) = false ->
     let c' := with_r {| r_dec := r_dec (r c); r_zlib := true;
                         r_wire := inflate rest;
                         r_closes := r_closes (r c);
                         r_close_err := r_close_err (r c) |} c in
     readStep c = (c', Skipped) /\
     forall fuel, ReadMsg (S fuel) c = ReadMsg fuel c') /\
  (r_zlib (r c) = true ->
     readStep c = (with_wire rest c,
                   Failed (errors_New "zlib already enabled"))).
Proof.
  intros Hline Hcmd. split; [|split].
  - intros fuel. induction fuel as [|fuel IH]; intros c0 c' args'; [done|].
    simpl. pose proof (readStep_not_ZOn c0) as Hno.
    destruct (readStep c0) as [c1 [m| |e]].
    + intros [= -> ->]. by eapply Hno.
    + apply IH.
    + done.
  - intros Hz c'.
    assert (readStep c = (c', Skipped)) as Hstep.
    { unfold readStep. rewrite Hline.
      rewrite decide_True by done. rewrite Hcmd.
      unfold onRawMessage. rewrite decide_True by done.
      subst c'. destruct c as [? ? ? ? ? [? z ? ? ?]]. simpl in Hz.
      subst z. reflexivity. }
    split; [done|]. intros fuel. simpl. by rewrite Hstep.
  - intros Hz. unfold readStep. rewrite Hline.
    rewrite decide_True by done. rewrite Hcmd.
    unfold onRawMessage. rewrite decide_True by done.
    destruct c as [? ? ? ? ? [? z ? ? ?]]. simpl in Hz. subst z.
    reflexivity.
Qed.

End NmdcTheorems.


(** C4, as it is stated, fails: on a stream that starts with [$ZOn|] the
    reader skips the command; the first message the consumer gets is the
    one that follows, read through the inflater. *)
Lemma zon_is_not_delivered :
  let c := NMDC.NewConn None NMDC.zon_stream None None None in
  (NMDC.readStep (H := NMDC.stored_inflate) c).2 = NMDC.Skipped /\
  snd <$> NMDC.ReadMsg (H := NMDC.stored_inflate) 2 c
    = Some (inl (NMDC.RawCommand "Lock" "x")).
Proof. intros c. split; reflexivity. Qed.

Lemma zon_switches_and_is_skipped_witness :
  let c := NMDC.NewConn None NMDC.zon_stream None None None in
  NMDC.r_wire (NMDC.r (NMDC.readStep (H := NMDC.stored_inflate) c).1)
    = "$Lock x|$Quit|" /\
  (NMDC.readStep (H := NMDC.stored_inflate) c).2 = NMDC.Skipped.
Proof.
  intros c.
  pose proof (zon_switches_and_is_skipped (H := NMDC.stored_inflate) c
                "ZOn" "" (String.substring 5 25 NMDC.zon_stream)
                eq_refl eq_refl) as (_ & Hon & _).
  destruct (Hon eq_refl) as [Hstep _].
  rewrite Hstep. split; reflexivity.
Defined.

(* --------------------------------------------------------------------- *)
(** ** The PROTOCOL phase of the ADC client *)

Section AdcTheorems.
Import ADC.
Context `{FeatureOps}.

(** Whenever [protocolToHub] returns an error, it returns the zero SID and
    no feature set with it. *)
Lemma protocolToHub_error_zero (conn : Transport) :
  let '(_, (sid, fea, err)) := protocolToHub conn in
  is_err err = true -> sid = zeroSID /\ fea = None.
Proof.
  unfold protocolToHub, WriteHubMsg, Flush, ReadInfoMsg.
  destruct (write_err conn); simpl; [done|].
  destruct (flush_err conn); simpl; [done|].
  destruct (incoming conn) as [|[m|e] rest]; simpl; [done| |done].
  destruct m as [hub| |]; simpl; [|done|done].
  destruct (negb (IsSet _ FeaBASE) && negb (IsSet _ FeaBAS0)); [done|].
  destruct (negb (IsSet _ FeaTIGR)); [done|].
  destruct rest as [|[m|e] rest]; simpl; [done| |done].
  destruct m; done.
Qed.

(** C5. Once the SUP messages have been exchanged, [protocolToHub]
    succeeds only if the intersection of the two feature sets has BASE or
    BAS0 set and has TIGR set. When the intersection lacks both BASE and
    BAS0, or lacks TIGR, it returns an error, the zero SID and no feature
    set, and it does not read the hub's SID message. *)
Theorem protocol_requires_base_and_tigr (conn : Transport)
    (hubFeatures : ModFeatures) (rest : list (Message + err)) :
  write_err conn = None ->
  flush_err conn = None ->
  incoming conn = inl (Supported hubFeatures) :: rest ->
  let mutual := Intersect ourFeatures hubFeatures in
  let mandatory :=
    (IsSet mutual FeaBASE || IsSet mutual FeaBAS0) && IsSet mutual FeaTIGR in
  let '(conn', (sid, fea, err)) := protocolToHub conn in
  (is_err err = false -> mandatory = true) /\
  (mandatory = false ->
     is_err err = true /\ sid = zeroSID /\ fea = None /\
     incoming conn' = rest).
Proof.
  intros Hw Hf Hin mutual mandatory. subst mutual mandatory.
  unfold protocolToHub, WriteHubMsg, Flush. simpl.
  rewrite Hw, Hf. simpl. unfold ReadInfoMsg at 1. simpl. rewrite Hin. simpl.
  destruct (IsSet _ FeaBASE), (IsSet _ FeaBAS0), (IsSet _ FeaTIGR); simpl;
    try (split; [intros [=]|intros _; done]);
    (destruct (ReadInfoMsg _) as [[c4 m4] e4];
     destruct (is_err e4); [|destruct m4 as [[| |]|]];
     (split; [done|intros [=]])).
Qed.

End AdcTheorems.

Lemma protocol_requires_base_and_tigr_witness :
  let conn := {| ADC.incoming :=
                   [inl (ADC.Supported {[ ADC.FeaBASE := true ]});
                    inl (ADC.SIDAssign 7%Z)];
                 ADC.write_err := None; ADC.flush_err := None;
                 ADC.outgoing := []; ADC.flushes := 0; ADC.t_closes := 0;
                 ADC.t_close_err := None |} in
  (ADC.protocolToHub (H := ADC.refFeatures) conn).2
    = (ADC.zeroSID, None,
       Some (fmt_Errorf "hub does not support TIGR" [])) /\
  ADC.incoming (ADC.protocolToHub (H := ADC.refFeatures) conn).1
    = [inl (ADC.SIDAssign 7%Z)].
Proof.
  intros conn.
  pose proof (protocol_requires_base_and_tigr (H := ADC.refFeatures) conn
                {[ ADC.FeaBASE := true ]} [inl (ADC.SIDAssign 7%Z)]
                eq_refl eq_refl eq_refl) as Hp.
  simpl in Hp.
  destruct (ADC.protocolToHub conn) as [conn' [[sid fea] err]] eqn:E.
  destruct Hp as [_ Hp]. 
  split; [|apply Hp; vm_compute; reflexivity].
  vm_compute in E. by injection E as <- <- <- <-.
Defined.

(* --------------------------------------------------------------------- *)
(** ** The IRC bridge *)

Section IrcTheorems.
Import IRC.
Variable h : Hub.

(** *** Traces only grow, and quietly outside the reservation *)

Lemma ret_quiet {A} (a : A) : appends_quietly (ret a).
Proof. intros t. exists []. by rewrite app_nil_r. Qed.

Lemma emit_quiet e : quiet e = true -> appends_quietly (emit e).
Proof. intros He t. exists [e]. split; [done|]. by constructor. Qed.

Lemma bind_quiet {A B} (c : M A) (k : A -> M B) :
  appends_quietly c -> (forall a, appends_quietly (k a)) ->
  appends_quietly (bind c k).
Proof.
  intros Hc Hk t. unfold bind. destruct (Hc t) as (ev1 & E1 & Q1).
  destruct (c t) as [[a|e] t1]; simpl in E1; subst t1.
  - destruct (Hk a (t ++ ev1)) as (ev2 & E2 & Q2).
    exists (ev1 ++ ev2). rewrite E2, app_assoc. split; [done|].
    by apply Forall_app.
  - by exists ev1.
Qed.

Lemma writeMessage_quiet m : appends_quietly (writeMessage h m).
Proof.
  intros t. exists [EvWrite m (write_result h t m)]. split; [done|].
  by constructor.
Qed.

Lemma writeAll_quiet ms : appends_quietly (writeAll h ms).
Proof.
  induction ms as [|m ms IH]; simpl.
  - apply ret_quiet.
  - apply bind_quiet; [apply writeMessage_quiet|done].
Qed.

Lemma PeersJoin_quiet p peers : appends_quietly (PeersJoin h p peers).
Proof.
  induction peers as [|peer peers IH]; simpl.
  - apply ret_quiet.
  - apply bind_quiet; [apply writeMessage_quiet|done].
Qed.

Lemma waitJoin_quiet inbox : appends_quietly (waitJoin h inbox).
Proof.
  induction inbox as [|[m|e] rest IH]; intros t; simpl.
  - exists []. by rewrite app_nil_r.
  - repeat case_decide.
    + destruct (write_result h t (with_Command "PONG" m)) as [e|]; simpl.
      * eexists [_]. split; [done|]. by constructor.
      * destruct (IH (t ++ [EvWrite (with_Command "PONG" m) None]))
          as (ev2 & E2 & Q2).
        eexists (_ :: ev2). rewrite E2, <- app_assoc. split; [done|].
        by constructor.
    + exists []. rewrite app_nil_r.
      destruct (Params m) as [|ch [|]]; [done| |done].
      by case_decide.
    + apply IH.
  - exists []. by rewrite app_nil_r.
Qed.

Lemma ircAccept_quiet peer inbox : appends_quietly (ircAccept h peer inbox).
Proof.
  unfold ircAccept.
  apply bind_quiet; [apply writeAll_quiet|intros _].
  apply bind_quiet; [apply waitJoin_quiet|intros rest].
  apply bind_quiet; [apply writeMessage_quiet|intros _].
  apply bind_quiet; [intros t; apply PeersJoin_quiet|intros _].
  apply bind_quiet; [|intros _; apply ret_quiet].
  intros t.
  apply (bind_quiet (emit (EvAccept peer))
           (fun _ => emit (EvBroadcastJoin peer (listPeers h t))));
    [by apply emit_quiet|intros _; by apply emit_quiet].
Qed.


(** *** The NICK loop *)

Lemma loop_shape_extend t ev0 r :
  Forall (fun e => quiet e = true) ev0 ->
  loop_shape (t ++ ev0) r -> loop_shape t r.
Proof.
  intros Q0. destruct r as [e t'|n u rest t']; simpl; intros (ev & -> & Q).
  - exists (ev0 ++ ev). rewrite app_assoc. split; [done|]. by apply Forall_app.
  - exists (ev0 ++ ev). rewrite <- !app_assoc. split; [done|].
    by apply Forall_app.
Qed.

Lemma tryName_shape pref name user rest again t :
  (forall name user t', loop_shape t' (again name user t')) ->
  loop_shape t (tryName h pref name user rest again t).
Proof.
  intros Hagain. unfold tryName.
  destruct (validateUserName h t name) as [e|].
  { exists []. by rewrite app_nil_r. }
  destruct (nameAvailable h t name); simpl.
  - destruct (reserveName h t name).
    + exists []. split; [done|]. constructor.
    + unfold writeMessage_, writeMessage. simpl. rewrite <- app_assoc.
      eapply loop_shape_extend; [|apply Hagain]. by repeat constructor.
  - unfold writeMessage_, writeMessage. simpl.
    eapply loop_shape_extend; [|apply Hagain]. by repeat constructor.
Qed.

Lemma nickLoop_shape pref inbox name user t :
  loop_shape t (nickLoop h pref inbox name user t).
Proof.
  remember (length inbox) as n eqn:Hn.
  assert (length inbox <= n) as Hle by lia. clear Hn.
  revert inbox name user t Hle.
  induction n as [|n IH]; intros inbox name user t Hle.
  { destruct inbox; [|simpl in Hle; lia].
    exists []. by rewrite app_nil_r. }
  assert (forall e, loop_shape t (LoopFailed e t)) as Hfail.
  { intros e. exists []. by rewrite app_nil_r. }
  pose proof (Hfail io_EOF) as F. simpl in F.
  destruct inbox as [|[m|e] rest]; simpl; [exact F| |exact F].
  simpl in Hle.
  destruct (Params m) as [|tname [|]]; [exact F| |exact F].
  case_decide; [|exact F].
  case_decide.
  - destruct rest as [|[m2|e2] rest2]; [exact F| |exact F].
    simpl in Hle.
    destruct (Params m2) as [|u [|? [|? [|? [|]]]]]; try exact F.
    case_decide; [|exact F].
    apply tryName_shape. intros. apply IH. lia.
  - apply tryName_shape. intros. apply IH. lia.
Qed.

Lemma unbinds_quiet ev :
  Forall (fun e => quiet e = true) ev -> unbinds ev = 0.
Proof.
  unfold unbinds. induction 1 as [|e ev He _ IH]; [done|].
  simpl. destruct e as [| |n| | | | |]; simpl in *; try done.
Qed.

Lemma unbinds_app t1 t2 : unbinds (t1 ++ t2) = unbinds t1 + unbinds t2.
Proof. unfold unbinds. by rewrite filter_app, length_app. Qed.

Lemma reserve_in_quiet name ev :
  Forall (fun e => quiet e = true) ev -> EvReserve name true ∉ ev.
Proof.
  intros Q Hin. rewrite Forall_forall in Q. by apply Q in Hin.
Qed.

(** A handshake that ends in an error after a reservation went through:
    the trace is quiet up to the reservation, quiet after it, and closed by
    the release of the reserved name. *)
Lemma ircHandshake_error_trace cinfo inbox e t :
  ircHandshake h cinfo inbox [] = (Returned (inr e), t) ->
  (Forall (fun e => quiet e = true) t) \/
  (exists name ev1 ev2,
     t = ev1 ++ [EvReserve name true] ++ ev2 ++ [EvUnbind name] /\
     Forall (fun e => quiet e = true) ev1 /\
     Forall (fun e => quiet e = true) ev2).
Proof.
  unfold ircHandshake.
  pose proof (nickLoop_shape {| Name := local_host h; User := ""; Host := "" |}
                inbox "" "" []) as Hloop.
  destruct (nickLoop _ _ _ _ _) as [e0 t0|name user rest t0];
    simpl in Hloop; destruct Hloop as (ev1 & -> & Q1).
  { intros [= <- <-]. by left. }
  simpl. intros Hres. right. exists name, ev1.
  assert (forall e', (Returned (inr e') : Outcome ((ircPeer * list Input) + err),
                      (emit (EvUnbind name) (ev1 ++ [EvReserve name true])).2)
                     = (Returned (inr e), t) ->
            exists ev2,
              t = ev1 ++ [EvReserve name true] ++ ev2 ++ [EvUnbind name] /\
              Forall (fun e => quiet e = true) ev1 /\
              Forall (fun e => quiet e = true) ev2) as Hnow.
  { intros e' [= _ <-]. exists []. simpl. by rewrite <- app_assoc. }
  destruct (getUser h _ name) as [[usr rec] [err|]]; [by eapply Hnow|].
  destruct (usr && rec).
  { destruct (match cinfo with Some ci => negb (Secure ci) | None => false end);
      by eapply Hnow. }
  destruct (IsPrivate h _); [by eapply Hnow|].
  destruct cinfo as [ci|]; [|done].
  match type of Hres with context [ircAccept h ?p rest ?t0] =>
    destruct (ircAccept_quiet p rest t0) as (ev2 & E2 & Q2);
    destruct (ircAccept h p rest t0) as [[rest'|e'] t1]
  end; [done|].
  simpl in E2. subst t1. injection Hres as <- <-.
  exists ev2. simpl. rewrite <- !app_assoc. done.
Qed.

(** C1. When the IRC handshake exits with an error after [reserveName]
    has reserved a nick, the release function of that reservation has been
    called exactly once, as the last thing before the return. *)
Theorem handshake_error_releases_once (cinfo : option ConnInfo)
    (inbox : list Input) (e : err) (t : Trace) (name : string) :
  ircHandshake h cinfo inbox [] = (Returned (inr e), t) ->
  EvReserve name true ∈ t ->
  unbinds t = 1 /\ last t = Some (EvUnbind name).
Proof.
  intros Hrun Hin.
  destruct (ircHandshake_error_trace _ _ _ _ Hrun)
    as [Q|(n & ev1 & ev2 & -> & Q1 & Q2)].
  { by apply reserve_in_quiet in Hin. }
  assert (name = n) as ->.
  { rewrite !elem_of_app in Hin. destruct Hin as [Hin|[Hin|[Hin|Hin]]].
    - by apply reserve_in_quiet in Hin.
    - apply list_elem_of_singleton in Hin. by injection Hin.
    - by apply reserve_in_quiet in Hin.
    - by apply list_elem_of_singleton in Hin. }
  split.
  - rewrite !unbinds_app, (unbinds_quiet ev1 Q1), (unbinds_quiet ev2 Q2).
    reflexivity.
  - rewrite !app_assoc. apply last_snoc.
Qed.

(** C7. When the requested nick is taken (the name is not available, or
    its reservation fails), the hub writes numeric 433 with the rejected
    nick and the handshake goes on: the loop goes round again, reads the
    next message, and a following NICK whose name is valid, available and
    reservable is accepted. *)
Theorem nick_taken_433_then_retry (pref : irc_Prefix) (tname user : string)
    (rest : list Input) (t : Trace) :
  validateUserName h t tname = None ->
  nameAvailable h t tname = false \/ reserveName h t tname = false ->
  let m := nickTaken h pref tname in
  let t1 := if nameAvailable h t tname then t ++ [EvReserve tname false]
            else t in
  let t' := t1 ++ [EvWrite m (write_result h t1 m)] in
  Command m = "433" /\ Params m = ["*"; tname; Error (errNickTaken h)] /\
  (* the body of the loop writes the 433 and goes round again *)
  (forall again,
     tryName h pref tname user rest again t = again tname user t') /\
  (* in the first round, after NICK and USER *)
  (forall u,
     nickLoop h pref (inl (NICK tname) :: inl (USER u) :: rest) "" "" t
     = nickLoop h pref rest tname u t') /\
  (* in a later round, after NICK *)
  (forall name0,
     name0 <> "" ->
     nickLoop h pref (inl (NICK tname) :: rest) name0 user t
     = nickLoop h pref rest tname user t') /\
  (* and the next NICK is accepted *)
  (forall n2 rest2,
     tname <> "" ->
     validateUserName h t' n2 = None ->
     nameAvailable h t' n2 = true ->
     reserveName h t' n2 = true ->
     nickLoop h pref (inl (NICK n2) :: rest2) tname user t'
     = LoopReserved n2 user rest2 (t' ++ [EvReserve n2 true])).
Proof.
  intros Hvalid Htaken m t1 t'.
  assert (forall u rest again,
            tryName h pref tname u rest again t = again tname u t') as Hbody.
  { intros u rest0 again. unfold tryName. rewrite Hvalid.
    subst t' t1 m. unfold writeMessage_, writeMessage.
    destruct (nameAvailable h t tname); simpl; [|done].
    destruct Htaken as [Hn|Hr]; [discriminate|]. by rewrite Hr. }
  split; [done|]. split; [done|]. split; [apply Hbody|].
  split; [|split].
  - intros u. simpl. apply Hbody.
  - intros name0 Hne. simpl. rewrite decide_False by done. apply Hbody.
  - intros n2 rest2 Hne Hv Ha Hr. simpl. rewrite decide_False by done.
    unfold tryName. by rewrite Hv, Ha, Hr.
Qed.

(** *** The acceptance step *)

Section WritesSucceed.
Hypothesis writes_ok : forall t m, write_result h t m = None.

Lemma writeMessage_sent m t :
  writeMessage h m t = (inl tt, t ++ sent [m]).
Proof. unfold writeMessage. by rewrite writes_ok. Qed.

Lemma writeAll_sent ms t : writeAll h ms t = (inl tt, t ++ sent ms).
Proof.
  revert t. induction ms as [|m ms IH]; intros t; simpl.
  - unfold ret. by rewrite app_nil_r.
  - unfold bind. rewrite writeMessage_sent, IH. by rewrite <- app_assoc.
Qed.

Lemma PeersJoin_sent p peers t :
  PeersJoin h p peers t = (inl tt, t ++ sent (map (joinOf p) peers)).
Proof.
  revert t. induction peers as [|peer peers IH]; intros t; simpl.
  - unfold ret. by rewrite app_nil_r.
  - unfold bind. rewrite writeMessage_sent, IH. by rewrite <- app_assoc.
Qed.

Lemma waitJoin_skip (pre : list irc_Message) (inbox : list Input) t :
  Forall (fun m => Command m <> "JOIN") pre ->
  waitJoin h (map inl pre ++ inbox) t
  = waitJoin h inbox (t ++ sent (pongs pre)).
Proof.
  intros Hpre. revert t.
  induction Hpre as [|m pre Hm _ IH]; intros t; simpl.
  - by rewrite app_nil_r.
  - unfold pongs. simpl. case_decide as Hping.
    + rewrite writes_ok, IH.
      rewrite filter_cons_True by (by apply bool_decide_pack). simpl.
      by rewrite <- app_assoc.
    + rewrite decide_False by done.
      rewrite filter_cons_False
        by (intros Hb; by apply bool_decide_unpack in Hb).
      apply IH.
Qed.

(** C6. With the writes going through, the acceptance step writes the
    numerics 001, 002, 003, 004 and 005 in this order and then reads until
    a JOIN comes, answering PINGs on the way. A JOIN of a channel other
    than #hub makes it fail with nothing else written, no peer accepted.
    After a JOIN of #hub it echoes the JOIN under the prefix of the new
    peer and writes one JOIN #hub for every peer that is online, in the
    order of the roster, each under the prefix of the peer it stands for:
    the own prefix of an IRC peer, and for a peer of another protocol its
    name as nick and as user at the host of the bridge. Only then it
    accepts the peer and broadcasts its join. *)
Theorem accept_sequence (peer : ircPeer) (pre : list irc_Message)
    (j : irc_Message) (channel : string) (rest : list Input) (t : Trace) :
  Forall (fun m => Command m <> "JOIN") pre ->
  Command j = "JOIN" ->
  Params j = [channel] ->
  let inbox := map inl pre ++ inl j :: rest in
  let t1 := t ++ sent (welcome h peer) ++ sent (pongs pre) in
  map Command (welcome h peer) = ["001"; "002"; "003"; "004"; "005"] /\
  (channel <> ircHubChan ->
     exists e, ircAccept h peer inbox t = (inr e, t1)) /\
  (channel = ircHubChan ->
     let echo := {| Prefix := Some (ownPref peer); Command := "JOIN";
                    Params := [ircHubChan] |} in
     let t2 := t1 ++ sent [echo] in
     let online := Peers h t2 in
     let joins :=
       map (fun q =>
              {| Prefix :=
                   Some match q with
                        | IrcPeer p2 => ownPref p2
                        | OtherPeer name =>
                          {| Name := name; User := name;
                             Host := Name (hostPref peer) |}
                        end;
                 Command := "JOIN";
                 Params := [ircHubChan] |}) online in
     let t3 := t2 ++ sent joins in
     ircAccept h peer inbox t
     = (inl rest,
        t3 ++ [EvAccept peer; EvBroadcastJoin peer (listPeers h t3)])).
Proof.
  intros Hpre Hcmd Hparams inbox t1.
  split; [reflexivity|].
  assert (forall k : list Input -> M (list Input),
            ircAccept h peer inbox t
            = match (if decide (channel <> ircHubChan)
                     then inr (fmt_Errorf
                                 "expected the user to join %s, got: %q"
                                 [ircHubChan; channel])
                     else inl rest) with
              | inl rest =>
                (writeMessage h {| Prefix := Some (ownPref peer);
                                   Command := "JOIN";
                                   Params := [ircHubChan] |} ;;;
                 (fun t => PeersJoin h peer (Peers h t) t) ;;;
                 (fun t => (emit (EvAccept peer) ;;;
                            emit (EvBroadcastJoin peer (listPeers h t))) t) ;;;
                 ret rest) t1
              | inr e => (inr e, t1)
              end) as Hrun.
  { intros _. unfold ircAccept. unfold bind at 1. rewrite writeAll_sent.
    unfold bind at 1. subst inbox. rewrite waitJoin_skip by done.
    simpl waitJoin. rewrite decide_False by (rewrite Hcmd; done).
    rewrite decide_True by done. rewrite Hparams.
    subst t1. rewrite <- app_assoc. by case_decide. }
  specialize (Hrun (fun _ => ret [])).
  split.
  - intros Hne. rewrite decide_True in Hrun by done. eauto.
  - intros -> echo t2 online joins t3.
    change joins with (map (joinOf peer) online) in t3.
    rewrite decide_False in Hrun by (intros Hc; by apply Hc).
    rewrite Hrun. unfold bind. rewrite writeMessage_sent.
    rewrite PeersJoin_sent. unfold emit, ret. simpl.
    subst t3 t2 online echo. by rewrite <- !app_assoc.
Qed.

End WritesSucceed.

(** *** The session *)

(** C10. When an accepted peer sends a PRIVMSG to #hub while global chat
    is disabled, nobody gets the message and the command loop returns
    [nil] there and then, without reading on; [ServeIRC] then closes the
    peer, which ends the connection. *)
Theorem chat_disabled_ends_session (peer : ircPeer) (m : irc_Message)
    (text : string) (rest : list Input) (t : Trace) :
  Command m = "PRIVMSG" ->
  Params m = [ircHubChan; text] ->
  getGlobalChatEnabled h t = false ->
  serveLoop h peer (inl m :: rest) t = (None, t) /\
  (callOnJoined h t peer = true ->
   serve h peer (inl m :: rest) t = (None, t ++ [EvClose peer])).
Proof.
  intros Hcmd Hparams Hoff.
  assert (serveLoop h peer (inl m :: rest) t = (None, t)) as Hloop.
  { simpl. rewrite Hcmd, Hparams. simpl. by rewrite Hoff. }
  split; [done|]. intros Hj. unfold serve. by rewrite Hj, Hloop.
Qed.

End IrcTheorems.

Lemma handshake_error_releases_once_witness :
  let run := IRC.ircHandshake (IRC.exampleHub [] false true) IRC.plainConn
               [inl (IRC.NICK "carol"); inl (IRC.USER "c");
                inl (IRC.JOIN "#other")] [] in
  IRC.unbinds run.2 = 1 /\ last run.2 = Some (IRC.EvUnbind "carol").
Proof.
  intros run.
  apply (handshake_error_releases_once (IRC.exampleHub [] false true)
           IRC.plainConn
           [inl (IRC.NICK "carol"); inl (IRC.USER "c");
            inl (IRC.JOIN "#other")]
           (fmt_Errorf "expected the user to join %s, got: %q"
              ["#hub"; "#other"])
           run.2 "carol").
  - reflexivity.
  - apply list_elem_of_here.
Defined.

Lemma nick_taken_433_then_retry_witness :
  let h := IRC.exampleHub ["bob"] false true in
  let pref := {| IRC.Name := "hub.example"; IRC.User := "";
                 IRC.Host := "" |} in
  IRC.nickLoop h pref
    [inl (IRC.NICK "bob"); inl (IRC.USER "b"); inl (IRC.NICK "bobby")]
    "" "" []
  = IRC.LoopReserved "bobby" "b" []
      [IRC.EvWrite (IRC.nickTaken h pref "bob") None;
       IRC.EvReserve "bobby" true].
Proof.
  intros h pref.
  destruct (nick_taken_433_then_retry h pref "bob" "b"
              [inl (IRC.NICK "bobby")] [] eq_refl (or_introl eq_refl))
    as (_ & _ & _ & Hfirst & _ & Hnext).
  rewrite Hfirst. apply Hnext; [discriminate|reflexivity..].
Defined.

Lemma accept_sequence_witness :
  let peer := {| IRC.hostPref := {| IRC.Name := "hub.example";
                                    IRC.User := ""; IRC.Host := "" |};
                 IRC.ownPref := {| IRC.Name := "carol"; IRC.User := "c";
                                   IRC.Host := "hub.example" |};
                 IRC.peer_name := "carol" |} in
  map (fun e => match e with
                | IRC.EvWrite m _ =>
                  (IRC.Command m,
                   match IRC.Prefix m with
                   | Some pref => IRC.Name pref +:+ "!" +:+ IRC.User pref
                                    +:+ "@" +:+ IRC.Host pref
                   | None => ""
                   end)
                | IRC.EvAccept _ => ("accept", "")
                | IRC.EvBroadcastJoin _ _ => ("broadcast", "")
                | _ => ("other", "")
                end)
      (IRC.ircAccept IRC.busyHub peer [inl (IRC.JOIN "#hub")] []).2
  = [("001", "hub.example!@"); ("002", "hub.example!@");
     ("003", "hub.example!@"); ("004", "hub.example!@");
     ("005", "hub.example!@");
     ("JOIN", "carol!c@hub.example");
     ("JOIN", "alice!alice@hub.example");
     ("JOIN", "bob!robert@hub.example");
     ("accept", ""); ("broadcast", "")].
Proof.
  intros peer.
  destruct (accept_sequence IRC.busyHub (fun _ _ => eq_refl) peer []
              (IRC.JOIN "#hub") "#hub" [] [] (Forall_nil_2 _) eq_refl
              eq_refl)
    as (_ & _ & Hjoin).
  pose proof (Hjoin eq_refl) as Hrun.
  simpl app in Hrun. rewrite Hrun. reflexivity.
Defined.

Lemma chat_disabled_ends_session_witness :
  let h := IRC.exampleHub [] false false in
  let pref := {| IRC.Name := "hub.example"; IRC.User := "";
                 IRC.Host := "" |} in
  let peer := {| IRC.hostPref := pref; IRC.ownPref := pref;
                 IRC.peer_name := "carol" |} in
  IRC.serve h peer
    [inl (IRC.PRIVMSG "#hub" "hello"); inl (IRC.PRIVMSG "alice" "hi")] []
  = (None, [IRC.EvClose peer]).
Proof.
  intros h pref peer.
  apply (chat_disabled_ends_session h peer (IRC.PRIVMSG "#hub" "hello")
           "hello" [inl (IRC.PRIVMSG "alice" "hi")] []
           eq_refl eq_refl eq_refl).
  reflexivity.
Defined.

(* --------------------------------------------------------------------- *)
(** ** The configuration: aliases, getters, key list, config file *)

(* --------------------------------------------------------------------- *)
(** ** The parsers of strconv *)
(* --------------------------------------------------------------------- *)

Section StrconvTheorems.
Import strconv.

Lemma digit_range (c : ascii) (d : Z) :
  digit c = Some d -> (0 <= d <= 9)%Z.
Proof.
  unfold digit.
  destruct ((48 <=? Z.of_N (N_of_ascii c))%Z
            && (Z.of_N (N_of_ascii c) <=? 57)%Z) eqn:E; [|done].
  intros [= <-]. apply andb_true_iff in E as [E1 E2]. lia.
Qed.

Lemma digits_cons (c : ascii) (s : string) :
  digits (String c s) = true ->
  exists d, digit c = Some d /\ (0 <= d <= 9)%Z /\ digits s = true.
Proof.
  simpl. intros E. apply andb_true_iff in E as [E1 E2].
  apply bool_decide_eq_true in E1 as [d Hd].
  exists d. split; [done|]. split; [by eapply digit_range|done].
Qed.

Lemma decimal_ge (s : string) :
  forall n, (0 <= n)%Z -> digits s = true -> (n <= decimal s n)%Z.
Proof.
  induction s as [|c s IH]; intros n Hn Hd; simpl; [lia|].
  apply digits_cons in Hd as (d & Hc & Hr & Hd). rewrite Hc. simpl.
  specialize (IH (n * 10 + d)%Z ltac:(lia) Hd). lia.
Qed.

Lemma parseDigits_value (s : string) :
  forall n, (0 <= n <= maxUint64)%Z -> digits s = true ->
  parseDigits s n
  = if (decimal s n <=? maxUint64)%Z then (decimal s n, None)
    else (maxUint64, Some ErrRange).
Proof.
  change maxUint64 with 18446744073709551615%Z.
  induction s as [|c s IH]; intros n Hn Hd; simpl.
  - destruct (Z.leb_spec n 18446744073709551615); [done|lia].
  - apply digits_cons in Hd as (d & Hc & Hr & Hd). rewrite Hc. simpl.
    change cutoff with 1844674407370955162%Z.
    change maxUint64 with 18446744073709551615%Z.
    pose proof (decimal_ge s (n * 10 + d)%Z ltac:(lia) Hd) as Hge.
    destruct (Z.leb_spec 1844674407370955162 n).
    { destruct (Z.leb_spec (decimal s (n * 10 + d)) 18446744073709551615);
        [lia|done]. }
    destruct (Z.ltb_spec 18446744073709551615 (n * 10 + d)).
    { destruct (Z.leb_spec (decimal s (n * 10 + d)) 18446744073709551615);
        [lia|done]. }
    apply IH; [lia|done].
Qed.

Lemma parseDigits_bounds (s : string) :
  forall n, (0 <= n <= maxUint64)%Z ->
  (0 <= (parseDigits s n).1 <= maxUint64)%Z.
Proof.
  change maxUint64 with 18446744073709551615%Z.
  induction s as [|c s IH]; intros n Hn; simpl; [done|].
  destruct (digit c) as [d|] eqn:Hc; simpl; [|lia].
  apply digit_range in Hc.
  change cutoff with 1844674407370955162%Z.
  change maxUint64 with 18446744073709551615%Z.
  destruct (Z.leb_spec 1844674407370955162 n); simpl; [lia|].
  destruct (Z.ltb_spec 18446744073709551615 (n * 10 + d)); simpl; [lia|].
  apply IH. lia.
Qed.

Lemma ParseUint_digits (s : string) :
  digits s = true -> s <> "" ->
  (ParseUint s).1 = Z.min (decimal s 0) (2 ^ 64 - 1).
Proof.
  intros Hd Hne. unfold ParseUint. rewrite decide_False by done.
  rewrite parseDigits_value by (change maxUint64 with 18446744073709551615%Z;
                                done || lia).
  change maxUint64 with 18446744073709551615%Z.
  change (2 ^ 64 - 1)%Z with 18446744073709551615%Z.
  destruct (Z.leb_spec (decimal s 0) 18446744073709551615); simpl; lia.
Qed.

Lemma digit_no_sign (c : ascii) (d : Z) :
  digit c = Some d -> c <> "+"%char /\ c <> "-"%char.
Proof. intros Hc. split; intros ->; discriminate Hc. Qed.

Lemma ParseInt_digits (s : string) :
  digits s = true -> s <> "" ->
  (ParseInt s).1
  = if (decimal s 0 <? 2 ^ 63)%Z then decimal s 0 else (2 ^ 63 - 1)%Z.
Proof.
  intros Hd Hne. destruct s as [|c s]; [done|].
  pose proof Hd as Hd'. apply digits_cons in Hd' as (d & Hc & _ & _).
  destruct (digit_no_sign c d Hc) as [Hp Hm].
  unfold ParseInt. rewrite !decide_False by done.
  unfold ParseUint. rewrite decide_False by done.
  rewrite parseDigits_value by (change maxUint64 with 18446744073709551615%Z;
                                done || lia).
  pose proof (decimal_ge (String c s) 0%Z ltac:(lia) Hd) as Hge.
  change maxUint64 with 18446744073709551615%Z.
  change (2 ^ 63)%Z with 9223372036854775808%Z.
  destruct (Z.leb_spec (decimal (String c s) 0) 18446744073709551615);
    cbn [negb andb fst];
    destruct (Z.ltb_spec (decimal (String c s) 0) 9223372036854775808);
    try lia.
  - destruct (Z.leb_spec 9223372036854775808 (decimal (String c s) 0));
      [lia|done].
  - by destruct (Z.leb_spec 9223372036854775808 (decimal (String c s) 0));
      [|lia].
  - done.
Qed.

Lemma ParseInt_minus (s : string) :
  digits s = true -> s <> "" ->
  (ParseInt (String "-" s)).1
  = if (decimal s 0 <=? 2 ^ 63)%Z then (- decimal s 0)%Z else (- 2 ^ 63)%Z.
Proof.
  intros Hd Hne. unfold ParseInt.
  rewrite decide_False by done. rewrite decide_True by done.
  unfold ParseUint. rewrite decide_False by done.
  rewrite parseDigits_value by (change maxUint64 with 18446744073709551615%Z;
                                done || lia).
  pose proof (decimal_ge s 0%Z ltac:(lia) Hd) as Hge.
  change maxUint64 with 18446744073709551615%Z.
  change (2 ^ 63)%Z with 9223372036854775808%Z.
  destruct (Z.leb_spec (decimal s 0) 18446744073709551615);
    cbn [negb andb fst];
    destruct (Z.leb_spec (decimal s 0) 9223372036854775808); try lia.
  - by destruct (Z.ltb_spec 9223372036854775808 (decimal s 0)); [lia|].
  - by destruct (Z.ltb_spec 9223372036854775808 (decimal s 0)); [|lia].
  - done.
Qed.

Lemma ParseInt_no_number (c : ascii) (s : string) :
  digit c = None -> c <> "+"%char -> c <> "-"%char ->
  (ParseInt (String c s)).1 = 0%Z.
Proof.
  intros Hc Hp Hm. unfold ParseInt. rewrite !decide_False by done.
  unfold ParseUint. rewrite decide_False by done. simpl. by rewrite Hc.
Qed.

Lemma ParseInt_int64 (s : string) :
  (- 2 ^ 63 <= (ParseInt s).1 < 2 ^ 63)%Z.
Proof.
  change (2 ^ 63)%Z with 9223372036854775808%Z.
  destruct s as [|c s]; [simpl; lia|]. unfold ParseInt.
  assert (forall neg s1,
    (- 9223372036854775808
     <= (match ParseUint s1 with
         | (_, Some ErrSyntax) => (0%Z, Some ErrSyntax)
         | (un, _) =>
           if negb neg && (2 ^ 63 <=? un)%Z
           then ((2 ^ 63 - 1)%Z, Some ErrRange)
           else if neg && (2 ^ 63 <? un)%Z
           then ((- 2 ^ 63)%Z, Some ErrRange)
           else ((if neg then - un else un)%Z, None)
         end).1 < 9223372036854775808)%Z) as Hgen.
  { intros neg s1.
    assert (0 <= (ParseUint s1).1)%Z as Hpos.
    { unfold ParseUint. destruct (decide (s1 = "")); [done|].
      apply parseDigits_bounds.
      change maxUint64 with 18446744073709551615%Z. lia. }
    change (2 ^ 63)%Z with 9223372036854775808%Z.
    destruct (ParseUint s1) as [un [[]|]]; simpl in *; try lia;
      destruct neg; simpl;
      try (destruct (Z.leb_spec 9223372036854775808 un); simpl; lia);
      try (destruct (Z.ltb_spec 9223372036854775808 un); simpl; lia). }
  destruct (decide (c = "+"%char)); [apply Hgen|].
  destruct (decide (c = "-"%char)); apply Hgen.
Qed.

End StrconvTheorems.

Section ConfigReadTheorems.
Import Config ConfigRead.
Context `{TypedAccess} `{TypedReads}.

Lemma alias_targets_plain key alias :
  configAliases !! key = Some alias -> configAliases !! alias = None.
Proof.
  assert (map_Forall (fun _ a => configAliases !! a = None) configAliases)
    as Hall by compute_done.
  intros Hk. exact (Hall key alias Hk).
Qed.

Lemma resolve_idem key : resolve (resolve key) = resolve key.
Proof.
  unfold resolve. destruct (configAliases !! key) as [a|] eqn:E.
  - by rewrite (alias_targets_plain _ _ E).
  - by rewrite E.
Qed.

Lemma ignored_resolved key : resolve key ∈ configIgnored -> ignored (resolve key) = true.
Proof. apply ignored_true. Qed.

(** X1. The typed operations on a key whose alias resolves to an ignored key
    (the ignored keys themselves, and the alias [private]) never change
    the hub; [SetConfig] on such a key either leaves the hub as it is or
    panics on an unsupported value. *)
Theorem resolved_ignored_keys_are_frozen (key : string) (h : Hub) :
  resolve key ∈ configIgnored ->
  (forall val h', SetConfig key val h = Done h' -> h' = h) /\
  (forall val, SetConfigBool key val h = h) /\
  (forall val, SetConfigString key val h = h) /\
  (forall val, SetConfigInt key val h = h) /\
  (forall val, SetConfigUint key val h = h) /\
  (forall val, SetConfigFloat key val h = h).
Proof.
  intros Hin. pose proof (ignored_true _ Hin) as Hi.
  assert (forall val, setConfigBool key val h = h) as Hb.
  { intros. unfold setConfigBool. by rewrite Hi. }
  assert (forall val, setConfigString key val h = h) as Hs.
  { intros. unfold setConfigString.
    rewrite ignored_not_string by done. by apply setConfigMap_ignored. }
  assert (forall val, setConfigInt key val h = h) as Hn.
  { intros. unfold setConfigInt. by rewrite Hi. }
  assert (forall val, setConfigUint key val h = h) as Hu.
  { intros. unfold setConfigUint. by rewrite Hi. }
  assert (forall val, setConfigFloat key val h = h) as Hf.
  { intros. unfold setConfigFloat. by rewrite Hi. }
  split; [|repeat split; intros val].
  - intros val h'. unfold SetConfig, setConfig.
    destruct (ignored key); [by intros [= <-]|].
    destruct val; rewrite ?Hb, ?Hs, ?Hn, ?Hu, ?Hf, ?saveConfig_id;
      by intros [= <-].
  - unfold SetConfigBool. by rewrite saveConfig_id.
  - unfold SetConfigString. by rewrite saveConfig_id.
  - unfold SetConfigInt. by rewrite saveConfig_id.
  - unfold SetConfigUint. by rewrite saveConfig_id.
  - unfold SetConfigFloat. by rewrite saveConfig_id.
Qed.

(** X2. A key and what it resolves to are interchangeable in every typed
    setter and in every getter: no alias points to another alias. *)
Theorem alias_and_key_interchangeable (key : string) (h : Hub) :
  (forall v, SetConfigString (resolve key) v h = SetConfigString key v h) /\
  (forall v, SetConfigBool (resolve key) v h = SetConfigBool key v h) /\
  (forall v, SetConfigInt (resolve key) v h = SetConfigInt key v h) /\
  (forall v, SetConfigUint (resolve key) v h = SetConfigUint key v h) /\
  (forall v, SetConfigFloat (resolve key) v h = SetConfigFloat key v h) /\
  GetConfigString (resolve key) h = GetConfigString key h /\
  GetConfigBool (resolve key) h = GetConfigBool key h /\
  GetConfigInt (resolve key) h = GetConfigInt key h /\
  GetConfigUint (resolve key) h = GetConfigUint key h /\
  GetConfigFloat (resolve key) h = GetConfigFloat key h /\
  GetConfig (resolve key) h = GetConfig key h.
Proof.
  pose proof (resolve_idem key) as Hr.
  repeat split; intros;
    unfold SetConfigString, SetConfigBool, SetConfigInt, SetConfigUint,
      SetConfigFloat, setConfigString, setConfigBool, setConfigInt,
      setConfigUint, setConfigFloat, GetConfigString, GetConfigBool,
      GetConfigInt, GetConfigUint, GetConfigFloat, GetConfig;
    rewrite ?saveConfig_id, ?Hr; reflexivity.
Qed.

Lemma not_builtin_typed key :
  key ∉ builtinKeys ->
  key <> ConfigHubPrivate /\ key <> ConfigChatGlobalEnabled /\
  key <> ConfigZlibLevel /\ key <> ConfigNMDCRedirectTLS /\
  key <> ConfigNMDCRedirectADC /\ key <> ConfigADCRedirectTLS.
Proof.
  intros Hk. unfold builtinKeys in Hk.
  repeat split; intros ->; apply Hk; set_solver.
Qed.

Lemma resolve_plain key : configAliases !! key = None -> resolve key = key.
Proof. intros Ha. unfold resolve. by rewrite Ha. Qed.

Lemma GetConfigBool_generic key h :
  key ∉ builtinKeys -> configAliases !! key = None ->
  GetConfigBool key h =
    match getConfigMap key h with
    | (_, false) | (VNil, _) => (false, false)
    | (VBool v, true) => (v, true)
    | (VInt64 v, true) => (negb (v =? 0)%Z, true)
    | (VUint64 v, true) => (negb (v =? 0)%Z, true)
    | (VFloat64 v, true) => (negb (v =? 0)%float, true)
    | (VString v, true) => ((strconv.ParseBool v).1, true)
    | (_, true) => (false, true)
    end.
Proof.
  intros Hk Ha. apply not_builtin_typed in Hk.
  destruct Hk as (?&?&?&?&?&?).
  unfold GetConfigBool. rewrite resolve_plain by done.
  repeat (case_decide; [done|]). done.
Qed.

Lemma GetConfigInt_generic key h :
  key ∉ builtinKeys -> configAliases !! key = None ->
  GetConfigInt key h =
    match getConfigMap key h with
    | (_, false) | (VNil, _) => (0%Z, false)
    | (VInt64 v, true) => (v, true)
    | (VUint64 v, true) => (to_int64 v, true)
    | (VFloat64 v, true) => (int64_of_float v, true)
    | (VBool v, true) => (if v then 1%Z else 0%Z, true)
    | (VString v, true) => ((strconv.ParseInt v).1, true)
    | (_, true) => (0%Z, true)
    end.
Proof.
  intros Hk Ha. apply not_builtin_typed in Hk.
  destruct Hk as (?&?&?&?&?&?).
  unfold GetConfigInt. rewrite resolve_plain by done.
  repeat (case_decide; [done|]). done.
Qed.

Lemma GetConfig_generic key h :
  key ∉ builtinKeys -> configAliases !! key = None ->
  GetConfig key h =
    match conf_m h with
    | None => (VNil, false)
    | Some m =>
      match m !! key with
      | Some VNil | None => (VNil, false)
      | Some v => (v, true)
      end
    end.
Proof.
  intros Hk Ha. unfold GetConfig. rewrite resolve_plain by done.
  pose proof (not_builtin_string key Hk) as (?&?&?&?&?&?&?&?&?).
  pose proof (not_builtin_typed key Hk) as (?&?&?&?&?&?).
  rewrite bool_decide_eq_false_2.
  2:{ intros Hin.
      repeat (apply elem_of_cons in Hin as [->|Hin]; [done|]).
      by apply elem_of_nil in Hin. }
  rewrite decide_False by done.
  rewrite bool_decide_eq_false_2.
  2:{ intros Hin.
      repeat (apply elem_of_cons in Hin as [->|Hin]; [done|]).
      by apply elem_of_nil in Hin. }
  done.
Qed.

Lemma setConfigBool_generic key v h :
  key ∉ builtinKeys -> configAliases !! key = None -> key ∉ configIgnored ->
  setConfigBool key v h = setConfigMap key (VBool v) h.
Proof.
  intros Hk Ha Hi. apply not_builtin_typed in Hk.
  destruct Hk as (?&?&?&?&?&?).
  unfold setConfigBool. rewrite resolve_plain by done.
  unfold ignored. rewrite bool_decide_eq_false_2 by done.
  repeat (case_decide; [done|]). done.
Qed.

Lemma setConfigInt_generic key v h :
  key ∉ builtinKeys -> configAliases !! key = None -> key ∉ configIgnored ->
  setConfigInt key v h = setConfigMap key (VInt64 v) h.
Proof.
  intros Hk Ha Hi. apply not_builtin_typed in Hk.
  destruct Hk as (?&?&?&?&?&?).
  unfold setConfigInt. rewrite resolve_plain by done.
  unfold ignored. rewrite bool_decide_eq_false_2 by done.
  repeat (case_decide; [done|]). done.
Qed.

Lemma setConfigUint_generic key v h :
  configAliases !! key = None -> key ∉ configIgnored ->
  setConfigUint key v h = setConfigMap key (VUint64 v) h.
Proof.
  intros Ha Hi. unfold setConfigUint. rewrite resolve_plain by done.
  unfold ignored. by rewrite bool_decide_eq_false_2 by done.
Qed.

Lemma setConfigFloat_generic key v h :
  configAliases !! key = None -> key ∉ configIgnored ->
  setConfigFloat key v h = setConfigMap key (VFloat64 v) h.
Proof.
  intros Ha Hi. unfold setConfigFloat. rewrite resolve_plain by done.
  unfold ignored. by rewrite bool_decide_eq_false_2 by done.
Qed.

Lemma getConfigMap_setConfigMap key v h :
  key ∉ configIgnored ->
  getConfigMap key (setConfigMap key v h) = (v, true).
Proof.
  intros Hi. unfold setConfigMap, getConfigMap, ignored.
  rewrite bool_decide_eq_false_2 by done. simpl.
  by rewrite lookup_insert_eq.
Qed.

(** X3. On a key that is neither built-in, nor an alias, nor ignored, each
    typed setter is read back by the getter of its type: bool, int64,
    uint64 and float64 values round-trip through the generic map. *)
Theorem generic_typed_roundtrip (key : string) (h : Hub) :
  key ∉ builtinKeys ->
  configAliases !! key = None ->
  key ∉ configIgnored ->
  (forall v, GetConfigBool key (SetConfigBool key v h) = (v, true)) /\
  (forall v, GetConfigInt key (SetConfigInt key v h) = (v, true)) /\
  (forall v, GetConfigUint key (SetConfigUint key v h) = (v, true)) /\
  (forall v, GetConfigFloat key (SetConfigFloat key v h) = (v, true)).
Proof.
  intros Hk Ha Hi. repeat split; intros v.
  - unfold SetConfigBool.
    rewrite saveConfig_id, setConfigBool_generic, GetConfigBool_generic
      by done.
    by rewrite getConfigMap_setConfigMap.
  - unfold SetConfigInt.
    rewrite saveConfig_id, setConfigInt_generic, GetConfigInt_generic
      by done.
    by rewrite getConfigMap_setConfigMap.
  - unfold SetConfigUint, GetConfigUint.
    rewrite saveConfig_id, setConfigUint_generic, resolve_plain by done.
    by rewrite getConfigMap_setConfigMap.
  - unfold SetConfigFloat, GetConfigFloat.
    rewrite saveConfig_id, setConfigFloat_generic, resolve_plain by done.
    by rewrite getConfigMap_setConfigMap.
Qed.

(** X4. On such a key a value set with one type is read with another type by
    conversion, and the read always reports the key as present. An
    integer reads as the boolean "not zero" and a bool as the integer 0
    or 1, a uint64 reads as the int64 with the same 64 bits and the other
    way round, a number reads as its [fmt.Sprint] text. A string reads as
    [strconv] parses it, the error of the parser being dropped: as an
    integer, decimal digits read as the number they write when it fits
    an int64, as the largest int64 when it does not, digits after a
    minus sign as the negated number or the smallest int64, and a string
    that starts with neither a sign nor a digit as 0; as a boolean,
    everything but the six spellings of true reads as false. *)
Theorem generic_cross_type_reads (key : string) (h : Hub) :
  key ∉ builtinKeys ->
  configAliases !! key = None ->
  key ∉ configIgnored ->
  (forall v, GetConfigBool key (SetConfigInt key v h)
             = (negb (v =? 0)%Z, true)) /\
  (forall v, GetConfigInt key (SetConfigBool key v h)
             = (if v then 1%Z else 0%Z, true)) /\
  (forall v, GetConfigInt key (SetConfigUint key v h) = (to_int64 v, true)) /\
  (forall v, GetConfigUint key (SetConfigInt key v h) = (to_uint64 v, true)) /\
  (forall v, GetConfigString key (SetConfigInt key v h)
             = (Sprint (VInt64 v), true)) /\
  (forall v, GetConfigString key (SetConfigBool key v h)
             = (Sprint (VBool v), true)) /\
  (forall v, GetConfigBool key (SetConfigString key v h)
             = (bool_decide (v ∈ ["1"; "t"; "T"; "TRUE"; "true"; "True"]),
                true)) /\
  (forall v, strconv.digits v = true -> v <> "" ->
     GetConfigInt key (SetConfigString key v h)
     = (if (strconv.decimal v 0 <? 2 ^ 63)%Z then strconv.decimal v 0
        else (2 ^ 63 - 1)%Z, true)) /\
  (forall v, strconv.digits v = true -> v <> "" ->
     GetConfigInt key (SetConfigString key (String "-" v) h)
     = (if (strconv.decimal v 0 <=? 2 ^ 63)%Z then (- strconv.decimal v 0)%Z
        else (- 2 ^ 63)%Z, true)) /\
  (forall c v, strconv.digit c = None -> c <> "+"%char -> c <> "-"%char ->
     GetConfigInt key (SetConfigString key (String c v) h) = (0%Z, true)) /\
  GetConfigInt key (SetConfigString key "" h) = (0%Z, true) /\
  (forall v, exists i,
     GetConfigInt key (SetConfigString key v h) = (i, true) /\
     (- 2 ^ 63 <= i < 2 ^ 63)%Z) /\
  (forall v, strconv.digits v = true -> v <> "" ->
     GetConfigUint key (SetConfigString key v h)
     = (Z.min (strconv.decimal v 0) (2 ^ 64 - 1), true)).
Proof.
  intros Hk Ha Hi.
  assert (forall v, GetConfigInt key (SetConfigString key v h)
                    = ((strconv.ParseInt v).1, true)) as Hint.
  { intros v. unfold SetConfigString.
    rewrite saveConfig_id, setConfigString_generic, GetConfigInt_generic
      by done.
    by rewrite getConfigMap_setConfigMap. }
  split; [|split; [|split; [|split; [|split; [|split; [|split;
    [|split; [|split; [|split; [|split; [|split]]]]]]]]]]].
  - intros v. unfold SetConfigInt.
    rewrite saveConfig_id, setConfigInt_generic, GetConfigBool_generic
      by done.
    by rewrite getConfigMap_setConfigMap.
  - intros v. unfold SetConfigBool.
    rewrite saveConfig_id, setConfigBool_generic, GetConfigInt_generic
      by done.
    by rewrite getConfigMap_setConfigMap.
  - intros v. unfold SetConfigUint.
    rewrite saveConfig_id, setConfigUint_generic, GetConfigInt_generic
      by done.
    by rewrite getConfigMap_setConfigMap.
  - intros v. unfold SetConfigInt, GetConfigUint.
    rewrite saveConfig_id, setConfigInt_generic, resolve_plain by done.
    by rewrite getConfigMap_setConfigMap.
  - intros v. unfold SetConfigInt.
    rewrite saveConfig_id, setConfigInt_generic, GetConfigString_generic
      by done.
    by rewrite getConfigMap_setConfigMap.
  - intros v. unfold SetConfigBool.
    rewrite saveConfig_id, setConfigBool_generic, GetConfigString_generic
      by done.
    by rewrite getConfigMap_setConfigMap.
  - intros v. unfold SetConfigString.
    rewrite saveConfig_id, setConfigString_generic, GetConfigBool_generic
      by done.
    rewrite getConfigMap_setConfigMap by done. cbn [snd fst].
    unfold strconv.ParseBool.
    destruct (bool_decide (v ∈ ["1"; "t"; "T"; "TRUE"; "true"; "True"]));
      [done|].
    by destruct (bool_decide
                   (v ∈ ["0"; "f"; "F"; "FALSE"; "false"; "False"])).
  - intros v Hd Hne. by rewrite Hint, ParseInt_digits.
  - intros v Hd Hne. by rewrite Hint, ParseInt_minus.
  - intros c v Hc Hp Hm. by rewrite Hint, ParseInt_no_number.
  - by rewrite Hint.
  - intros v. eexists. split; [apply Hint|]. apply ParseInt_int64.
  - intros v Hd Hne. unfold SetConfigString, GetConfigUint.
    rewrite saveConfig_id, setConfigString_generic, resolve_plain by done.
    rewrite getConfigMap_setConfigMap by done. cbn [snd fst].
    by rewrite ParseUint_digits.
Qed.

(** X5. A key that is neither built-in nor an alias and that the generic map
    does not hold is reported as absent by every getter, with the zero
    value of the getter's type. *)
Theorem generic_missing_key (key : string) (h : Hub) :
  key ∉ builtinKeys ->
  configAliases !! key = None ->
  default ∅ (conf_m h) !! key = None ->
  GetConfig key h = (VNil, false) /\
  GetConfigString key h = ("", false) /\
  GetConfigBool key h = (false, false) /\
  GetConfigInt key h = (0%Z, false) /\
  GetConfigUint key h = (0%Z, false) /\
  GetConfigFloat key h = (0%float, false).
Proof.
  intros Hk Ha Hm.
  assert (getConfigMap key h = (VNil, false)) as Hg.
  { unfold getConfigMap. destruct (conf_m h) as [m|]; simpl in *; [|done].
    by rewrite Hm. }
  rewrite GetConfig_generic, GetConfigString_generic, GetConfigBool_generic,
    GetConfigInt_generic by done.
  unfold GetConfigUint, GetConfigFloat. rewrite resolve_plain by done.
  rewrite Hg. repeat split.
  destruct (conf_m h) as [m|]; simpl in *; [|done]. by rewrite Hm.
Qed.

(** X6. On a key that is neither built-in, nor an alias, nor ignored,
    [SetConfig] with a value of a supported type returns, having stored
    the value widened ([int], [int32] as int64, [uint], [uint32] as
    uint64, float32 as float64), and [GetConfig] returns exactly the
    stored value; with nil or a value of any other type [SetConfig]
    panics with "unsupported config type" and the name of the type. *)
Theorem SetConfig_then_GetConfig (key : string) (val : GoVal) (h : Hub) :
  key ∉ builtinKeys ->
  configAliases !! key = None ->
  key ∉ configIgnored ->
  match val with
  | VNil => SetConfig key val h = Panicked "unsupported config type: <nil>"
  | VOther t =>
    SetConfig key val h = Panicked ("unsupported config type: " +:+ t)
  | _ =>
    exists h', SetConfig key val h = Done h' /\
               GetConfig key h' = (stored_as val, true)
  end.
Proof.
  intros Hk Ha Hi. unfold SetConfig, setConfig, ignored.
  rewrite bool_decide_eq_false_2 by done.
  assert (forall v, v <> VNil ->
            GetConfig key (setConfigMap key v h) = (v, true)) as Hget.
  { intros v Hv. rewrite GetConfig_generic by done.
    unfold setConfigMap, ignored. rewrite bool_decide_eq_false_2 by done.
    simpl. rewrite lookup_insert_eq. by destruct v. }
  destruct val; simpl; try reflexivity;
    (eexists; split; [reflexivity|]); rewrite ?saveConfig_id;
    rewrite ?setConfigBool_generic, ?setConfigString_generic,
      ?setConfigInt_generic, ?setConfigUint_generic, ?setConfigFloat_generic
      by done;
    by apply Hget.
Qed.

End ConfigReadTheorems.

Lemma resolved_ignored_keys_are_frozen_witness :
  Config.SetConfigBool (H := Config.plainFields) "private" true
    Config.emptyHub = Config.emptyHub.
Proof.
  assert (Config.resolve "private" ∈ Config.configIgnored) as Hin
    by compute_done.
  destruct (resolved_ignored_keys_are_frozen (H := Config.plainFields)
              "private" Config.emptyHub Hin) as (_ & Hbool & _).
  exact (Hbool true).
Defined.

Lemma generic_typed_roundtrip_witness :
  ConfigRead.GetConfigInt (H0 := ConfigRead.plainReads) "chat.flood.max"
    (Config.SetConfigInt (H := Config.plainFields) "chat.flood.max" 5
       Config.emptyHub) = (5%Z, true).
Proof.
  assert ("chat.flood.max" ∉ Config.builtinKeys) as Hk by compute_done.
  assert ("chat.flood.max" ∉ Config.configIgnored) as Hi by compute_done.
  destruct (generic_typed_roundtrip (H := Config.plainFields)
              (H0 := ConfigRead.plainReads) "chat.flood.max" Config.emptyHub
              Hk eq_refl Hi) as (_ & Hint & _).
  exact (Hint 5%Z).
Defined.

Lemma generic_cross_type_reads_witness :
  ConfigRead.GetConfigBool (H0 := ConfigRead.plainReads) "chat.flood.max"
    (Config.SetConfigInt (H := Config.plainFields) "chat.flood.max" 5
       Config.emptyHub) = (true, true) /\
  ConfigRead.GetConfigInt (H0 := ConfigRead.plainReads) "chat.flood.max"
    (Config.SetConfigString (H := Config.plainFields) "chat.flood.max" "7"
       Config.emptyHub) = (7%Z, true) /\
  ConfigRead.GetConfigInt (H0 := ConfigRead.plainReads) "chat.flood.max"
    (Config.SetConfigString (H := Config.plainFields) "chat.flood.max"
       "9223372036854775808" Config.emptyHub)
  = (9223372036854775807%Z, true) /\
  ConfigRead.GetConfigInt (H0 := ConfigRead.plainReads) "chat.flood.max"
    (Config.SetConfigString (H := Config.plainFields) "chat.flood.max"
       "seven" Config.emptyHub) = (0%Z, true).
Proof.
  assert ("chat.flood.max" ∉ Config.builtinKeys) as Hk by compute_done.
  assert ("chat.flood.max" ∉ Config.configIgnored) as Hi by compute_done.
  destruct (generic_cross_type_reads (H := Config.plainFields)
              (H0 := ConfigRead.plainReads) "chat.flood.max" Config.emptyHub
              Hk eq_refl Hi)
    as (Hbool & _ & _ & _ & _ & _ & _ & Hdigits & _ & Hnone & _).
  split; [exact (Hbool 5%Z)|].
  split; [exact (Hdigits "7" eq_refl ltac:(discriminate))|].
  split; [exact (Hdigits "9223372036854775808" eq_refl ltac:(discriminate))|].
  exact (Hnone "s"%char "even" eq_refl ltac:(discriminate)
           ltac:(discriminate)).
Defined.

Lemma generic_missing_key_witness :
  ConfigRead.GetConfig (H := Config.plainFields)
    (H0 := ConfigRead.plainReads) "chat.flood.max" Config.emptyHub
  = (Config.VNil, false).
Proof.
  assert ("chat.flood.max" ∉ Config.builtinKeys) as Hk by compute_done.
  destruct (generic_missing_key (H := Config.plainFields)
              (H0 := ConfigRead.plainReads) "chat.flood.max" Config.emptyHub
              Hk eq_refl eq_refl) as (Hget & _).
  exact Hget.
Defined.

Lemma SetConfig_then_GetConfig_witness :
  (exists h',
     Config.SetConfig (H := Config.plainFields) "chat.flood.max"
       (Config.VInt32 5) Config.emptyHub = Config.Done h' /\
     ConfigRead.GetConfig (H := Config.plainFields)
       (H0 := ConfigRead.plainReads) "chat.flood.max" h'
     = (Config.VInt64 5, true)) /\
  Config.SetConfig (H := Config.plainFields) "chat.flood.max"
    (Config.VOther "[]string") Config.emptyHub
  = Config.Panicked "unsupported config type: []string".
Proof.
  assert ("chat.flood.max" ∉ Config.builtinKeys) as Hk by compute_done.
  assert ("chat.flood.max" ∉ Config.configIgnored) as Hi by compute_done.
  split.
  - exact (SetConfig_then_GetConfig (H := Config.plainFields)
             (H0 := ConfigRead.plainReads) "chat.flood.max"
             (Config.VInt32 5) Config.emptyHub Hk eq_refl Hi).
  - exact (SetConfig_then_GetConfig (H := Config.plainFields)
             (H0 := ConfigRead.plainReads) "chat.flood.max"
             (Config.VOther "[]string") Config.emptyHub Hk eq_refl Hi).
Defined.

Section ConfigFileTheorems.
Import Config ConfigRead.
Context `{TypedAccess}.

Lemma ConfValue_nested_ind (P : ConfValue -> Prop) :
  (forall v, P (Prim v)) ->
  (forall m, Forall (fun kv => P kv.2) m -> P (InMap m)) ->
  (forall m, Forall (fun kv => P kv.2) m -> P (InRawMap m)) ->
  forall v, P v.
Proof.
  intros HP HM HR. fix IH 1. intros [v|m|m].
  - apply HP.
  - apply HM. induction m as [|[k v] m IHm]; constructor; [apply IH|apply IHm].
  - apply HR. induction m as [|[k v] m IHm]; constructor; [apply IH|apply IHm].
Qed.

Lemma setAll_app kvs1 kvs2 h :
  setAll (kvs1 ++ kvs2) h =
  match setAll kvs1 h with
  | Done h' => setAll kvs2 h'
  | Panicked msg => Panicked msg
  end.
Proof.
  revert h. induction kvs1 as [|[k v] kvs1 IH]; intros h; simpl; [done|].
  destruct (setConfig k v false h); [apply IH|done].
Qed.

Lemma MergeConfigPath_entries path m h :
  Forall (fun kv => forall k h, mergeEntry k kv.2 h = setAll (dotted k kv.2) h)
         m ->
  MergeConfigPath path m h = setAll (dottedKeys path m) h.
Proof.
  intros Hm. revert h. induction Hm as [|[k v] m Hv _ IH]; intros h; [done|].
  simpl in *. rewrite setAll_app, Hv.
  destruct (setAll _ h); [apply IH|done].
Qed.

Lemma mergeEntry_under path m h :
  mergeEntry path (InMap m) h = MergeConfigPath path m h /\
  mergeEntry path (InRawMap m) h = MergeConfigPath path m h /\
  dotted path (InMap m) = dottedKeys path m /\
  dotted path (InRawMap m) = dottedKeys path m.
Proof.
  repeat split.
Qed.

Lemma mergeEntry_dotted v : forall k h,
  mergeEntry k v h = setAll (dotted k v) h.
Proof.
  induction v as [v|m IH|m IH] using ConfValue_nested_ind; intros k h.
  - simpl. by destruct (setConfig k v false h).
  - destruct (mergeEntry_under k m h) as (-> & _ & -> & _).
    by apply MergeConfigPath_entries.
  - destruct (mergeEntry_under k m h) as (_ & -> & _ & ->).
    by apply MergeConfigPath_entries.
Qed.

(** X7. Merging a config map, nested to any depth, is the same as calling
    [setConfig] (without saving) on each primitive value under its dotted
    key, in the order of the traversal, up to the first panic: nested
    tables and dotted keys mean the same thing. *)
Theorem MergeConfig_is_dotted_keys (path : string)
    (m : list (string * ConfValue)) (h : Hub) :
  MergeConfigPath path m h = setAll (dottedKeys path m) h.
Proof.
  apply MergeConfigPath_entries, Forall_forall.
  intros kv _ k h'. apply mergeEntry_dotted.
Qed.

(** X8. A config map all of whose dotted keys are ignored keys merges into the
    hub without any change and without a panic, whatever its values are:
    what the file says under [serve], [database], [plugins], [chat.log],
    [chat.encoding] or [hub.private] does not reach the live
    configuration through [MergeConfig]. *)
Theorem MergeConfig_skips_ignored (m : list (string * ConfValue)) (h : Hub) :
  Forall (fun kv => kv.1 ∈ configIgnored) (dottedKeys "" m) ->
  MergeConfig m h = Done h.
Proof.
  unfold MergeConfig. rewrite MergeConfigPath_entries
    by (apply Forall_forall; intros kv _ k h'; apply mergeEntry_dotted).
  induction 1 as [|[k v] kvs Hk _ IH]; simpl; [done|].
  unfold setConfig. simpl in Hk. by rewrite (ignored_true k Hk).
Qed.

End ConfigFileTheorems.

Section ConfigKeysTheorems.
Import Config ConfigRead.

Lemma insert_sorted_elem k k' l :
  k' ∈ insert_sorted k l <-> k' = k \/ k' ∈ l.
Proof.
  induction l as [|x l IH]; simpl.
  - rewrite list_elem_of_singleton, elem_of_nil. tauto.
  - destruct (String.leb k x).
    + by rewrite elem_of_cons.
    + rewrite !elem_of_cons, IH. tauto.
Qed.

Lemma sort_Strings_elem k l : k ∈ sort_Strings l <-> k ∈ l.
Proof.
  unfold sort_Strings. induction l as [|x l IH]; simpl; [done|].
  by rewrite insert_sorted_elem, elem_of_cons, IH.
Qed.

Lemma insert_sorted_length k l : length (insert_sorted k l) = S (length l).
Proof.
  induction l as [|x l IH]; simpl; [done|].
  destruct (String.leb k x); simpl; by rewrite ?IH.
Qed.

Lemma sort_Strings_length l : length (sort_Strings l) = length l.
Proof.
  unfold sort_Strings. induction l as [|x l IH]; simpl; [done|].
  by rewrite insert_sorted_length, IH.
Qed.

Lemma insert_sorted_Sorted k l :
  Sorted (fun a b => String.leb a b = true) l ->
  Sorted (fun a b => String.leb a b = true) (insert_sorted k l).
Proof.
  induction 1 as [|x l Hs IH Hhd]; simpl.
  - by repeat constructor.
  - destruct (String.leb k x) eqn:E.
    + constructor; [by constructor|by constructor].
    + constructor; [done|].
      assert (String.leb x k = true) as Hxk
        by (destruct (String.leb_total x k) as [?|Hc]; [done|congruence]).
      destruct l as [|y l]; simpl in *; [by constructor|].
      destruct (String.leb k y); constructor; [done|].
      by inversion Hhd.
Qed.

Lemma sort_Strings_Sorted l :
  Sorted (fun a b => String.leb a b = true) (sort_Strings l).
Proof.
  unfold sort_Strings. induction l as [|x l IH]; simpl; [constructor|].
  by apply insert_sorted_Sorted.
Qed.

Lemma foldl_keep_elem (keys ks : list string) k :
  k ∈ foldl (fun keys k => if ignored k then keys else keys ++ [k]) keys ks
  <-> k ∈ keys \/ (k ∈ ks /\ ignored k = false).
Proof.
  revert keys. induction ks as [|x ks IH]; intros keys; simpl.
  - rewrite elem_of_nil. tauto.
  - rewrite IH, elem_of_cons. destruct (ignored x) eqn:E.
    + split; [tauto|]. intros [Hin|[[Hx|Hin] Hi]]; [tauto| |tauto].
      subst. congruence.
    + rewrite elem_of_app, list_elem_of_singleton. split.
      * intros [[Hin|Hx]|[Hin Hi]]; [tauto| |tauto]. subst. tauto.
      * intros [Hin|[[Hx|Hin] Hi]]; [tauto| |tauto]. subst. tauto.
Qed.

(** X9. [ConfigKeys] returns a sorted list that holds exactly the fifteen
    built-in keys and the keys of the generic map that are not ignored;
    [hub.private] is listed although it is ignored, and a built-in key
    that is also in the generic map is listed twice. *)
Theorem ConfigKeys_sorted_and_complete (h : Hub) :
  Sorted (fun a b => String.leb a b = true) (ConfigKeys h) /\
  (forall k, k ∈ ConfigKeys h <->
             k ∈ builtinKeys \/
             (is_Some (default ∅ (conf_m h) !! k) /\ k ∉ configIgnored)) /\
  ConfigHubPrivate ∈ ConfigKeys h /\
  length (ConfigKeys h)
  = 15 + length (filter (fun k => k ∉ configIgnored)
                        (map_to_list (default ∅ (conf_m h))).*1).
Proof.
  assert (forall k, k ∈ ConfigKeys h <->
             k ∈ builtinKeys \/
             (is_Some (default ∅ (conf_m h) !! k) /\ k ∉ configIgnored))
    as Hmem.
  { intros k. unfold ConfigKeys. rewrite sort_Strings_elem, foldl_keep_elem.
    apply or_iff_compat_l.
    unfold ignored. rewrite bool_decide_eq_false.
    apply and_iff_compat_r.
    destruct (conf_m h) as [m|]; simpl.
    - rewrite list_elem_of_fmap. split.
      + intros ([k' v] & -> & Hin). apply elem_of_map_to_list in Hin. eauto.
      + intros [v Hv]. exists (k, v). split; [done|].
        by apply elem_of_map_to_list.
    - rewrite elem_of_nil, lookup_empty. split; [done|]. by intros [? ?]. }
  split; [apply sort_Strings_Sorted|]. split; [done|]. split.
  - apply Hmem. left. unfold builtinKeys. set_solver.
  - unfold ConfigKeys. rewrite sort_Strings_length.
    assert (forall ks keys,
              length (foldl (fun keys k => if ignored k then keys
                                           else keys ++ [k]) keys ks)
              = length keys
                + length (filter (fun k => k ∉ configIgnored) ks)) as Hlen.
    { induction ks as [|x ks IH]; intros keys; simpl; [lia|].
      rewrite IH. unfold ignored. case_bool_decide.
      - rewrite filter_cons_False by (intros Hx; by apply Hx). done.
      - rewrite filter_cons_True by done. rewrite length_app. simpl. lia. }
    rewrite Hlen. by destruct (conf_m h).
Qed.

End ConfigKeysTheorems.

Lemma MergeConfig_skips_ignored_witness :
  ConfigRead.MergeConfig (H := Config.plainFields)
    [("serve", ConfigRead.InMap
                 [("port", ConfigRead.Prim (Config.VInt 1411));
                  ("tls", ConfigRead.InRawMap
                            [("cert", ConfigRead.Prim Config.VNil)])]);
     ("hub", ConfigRead.InMap
               [("private", ConfigRead.Prim (Config.VBool true))])]
    Config.emptyHub
  = Config.Done Config.emptyHub.
Proof.
  apply (MergeConfig_skips_ignored (H := Config.plainFields)).
  simpl. repeat constructor; compute_done.
Defined.

(* --------------------------------------------------------------------- *)
(** ** The NMDC connection: closing, and the life of the encoding *)

Section NmdcMoreTheorems.
Import NMDC NMDCState.

(** X10. On a connection that is not closed yet, [Close] closes the writer, the
    socket and the reader once each and returns the reader's close error
    if there is one, else the writer's; the socket's close error is never
    returned. However often [Close] is called afterwards, none of the
    three is closed again. *)
Theorem Close_reports_last_error (c : Conn) (k : nat) :
  closed c = false ->
  (Close c).2 = (if is_err (r_close_err (r c)) then r_close_err (r c)
                 else w_close_err (w c)) /\
  let c' := (CloseTimes (S k) c).1 in
  closed c' = true /\
  w_closes (w c') = S (w_closes (w c)) /\
  n_closes (conn c') = S (n_closes (conn c)) /\
  r_closes (r c') = S (r_closes (r c)) /\
  TextEncoder c' = TextEncoder c /\ TextDecoder c' = TextDecoder c.
Proof.
  intros Hopen. split.
  - unfold Close. rewrite Hopen. simpl.
    destruct (r_close_err (r c)), (w_close_err (w c)); reflexivity.
  - simpl. pose proof (nmdc_Close_closed c) as Hc.
    destruct (Close c) as [c1 e] eqn:E. simpl in Hc.
    rewrite nmdc_CloseTimes_closed by done. simpl.
    unfold Close in E. rewrite Hopen in E. simpl in E.
    injection E as <- _. repeat split.
Qed.

(** X11. Without a fallback encoding, or when the active decoder succeeds,
    reading a text leaves the connection as it is; a decoding error is
    reported as the reader found it. *)
Theorem readText_keeps_connection (c : Conn) (text : string) :
  FallbackEncoding c = None \/ (decodeWith (TextDecoder c) text).2 = None ->
  (readText c text).1 = c /\
  (readText c text).2.2 = (decodeWith (TextDecoder c) text).2 /\
  ((decodeWith (TextDecoder c) text).2 = None ->
   (readText c text).2 = decodeWith (TextDecoder c) text).
Proof.
  intros Hcase. unfold readText.
  destruct (decodeWith (TextDecoder c) text) as [str [e|]] eqn:E; simpl;
    [|done].
  destruct Hcase as [Hfb|[=]].
  unfold onUnknownEncoding. rewrite Hfb. done.
Qed.

(** X12. Once the reader decodes with the fallback encoding, no text changes
    the connection any more: the switch to the fallback happens at most
    once and is final. *)
Theorem fallback_switch_is_final (c : Conn) (fb : Encoding) (text : string) :
  FallbackEncoding c = Some fb ->
  TextDecoder c = Some (NewDecoder fb) ->
  (readText c text).1 = c /\
  (readText c text).2.2 = (dec_String fb text).2.
Proof.
  intros Hfb Hdec. unfold readText. rewrite Hdec. simpl.
  destruct (dec_String fb text) as [str [e|]] eqn:E; simpl; [|done].
  unfold onUnknownEncoding. rewrite Hfb. simpl. rewrite E. done.
Qed.

(** X13. The encoder and the decoder stay a pair: a new connection has
    neither, [SetEncoding] sets both, and [SetFallbackEncoding], reading a
    text (with or without a switch to the fallback) and [Close] keep them
    paired. *)
Theorem encoder_decoder_stay_paired (c : Conn) :
  paired c ->
  (forall enc, paired (SetEncoding enc c)) /\
  (forall enc, paired (SetFallbackEncoding enc c)) /\
  (forall text, paired (readText c text).1) /\
  paired (Close c).1 /\
  (forall d bytes e1 e2 e3, paired (NewConn d bytes e1 e2 e3)).
Proof.
  intros Hp. repeat split.
  - intros [enc|]; [right; by exists enc|by left].
  - intros enc. exact Hp.
  - intros text. unfold readText.
    destruct (decodeWith (TextDecoder c) text) as [str [e|]]; [|done].
    unfold onUnknownEncoding.
    destruct (FallbackEncoding c) as [fb|]; [|done]. simpl.
    destruct (dec_String fb text) as [s' [e'|]]; simpl; [done|].
    destruct (ValidString s'); simpl; [|done].
    right. by exists fb.
  - unfold Close. destruct (closed c); [done|]. exact Hp.
  - intros d bytes e1 e2 e3. left. by destruct d.
Qed.

End NmdcMoreTheorems.

Lemma Close_reports_last_error_witness :
  let c := NMDC.NewConn None "" (Some (net_err "flush failed")) (Some (net_err "reset"))
             (Some (net_err "inflate failed")) in
  (NMDC.Close c).2 = Some (net_err "inflate failed") /\
  NMDC.w_closes (NMDC.w (NMDC.CloseTimes 3 c).1) = 1.
Proof.
  intros c.
  destruct (Close_reports_last_error c 2 eq_refl) as (Herr & _ & Hw & _).
  split; [exact Herr|exact Hw].
Defined.

Lemma readText_keeps_connection_witness :
  let c := NMDC.NewConn None "" None None None in
  (NMDC.readText c (NMDC.of_bytes [233%N])).1 = c.
Proof.
  intros c.
  destruct (readText_keeps_connection c (NMDC.of_bytes [233%N])
              (or_introl eq_refl)) as (Hc & _).
  exact Hc.
Defined.

Lemma fallback_switch_is_final_witness :
  let c := (NMDC.readText
              (NMDC.SetFallbackEncoding (Some NMDC.latin1)
                 (NMDC.NewConn None "" None None None))
              (NMDC.of_bytes [233%N])).1 in
  (NMDC.readText c (NMDC.of_bytes [255%N])).1 = c.
Proof.
  intros c.
  destruct (fallback_switch_is_final c NMDC.latin1 (NMDC.of_bytes [255%N])
              eq_refl eq_refl) as (Hc & _).
  exact Hc.
Defined.

Lemma encoder_decoder_stay_paired_witness :
  NMDCState.paired
    (NMDC.readText
       (NMDC.SetFallbackEncoding (Some NMDC.latin1)
          (NMDC.NewConn None "" None None None))
       (NMDC.of_bytes [233%N])).1.
Proof.
  apply (encoder_decoder_stay_paired
           (NMDC.SetFallbackEncoding (Some NMDC.latin1)
              (NMDC.NewConn None "" None None None))).
  left. split; reflexivity.
Defined.

(* --------------------------------------------------------------------- *)
(** ** The ADC client: the exchange of the PROTOCOL phase *)

Section AdcExchangeTheorems.
Import ADC.
Context `{FeatureOps}.

(** X14. [protocolToHub] writes its SUP and flushes before it reads anything.
    When the write fails it stops there: nothing is flushed and nothing
    read. When the hub's SUP leaves BASE or BAS0 and TIGR in the
    intersection and a SID follows, it returns that SID with the
    intersection, having written exactly its own SUP, flushed once, and
    read exactly the two messages. When something else than a SID follows,
    it fails. *)
Theorem protocolToHub_exchange (conn : Transport) :
  (forall e, write_err conn = Some e ->
     (protocolToHub conn).2 = (zeroSID, None, Some e) /\
     incoming (protocolToHub conn).1 = incoming conn /\
     flushes (protocolToHub conn).1 = flushes conn /\
     outgoing (protocolToHub conn).1 = outgoing conn) /\
  (forall hubFeatures rest,
     write_err conn = None ->
     flush_err conn = None ->
     incoming conn = inl (Supported hubFeatures) :: rest ->
     let mutual := Intersect ourFeatures hubFeatures in
     (IsSet mutual FeaBASE || IsSet mutual FeaBAS0) && IsSet mutual FeaTIGR
       = true ->
     outgoing (protocolToHub conn).1
       = outgoing conn ++ [Supported ourFeatures] /\
     flushes (protocolToHub conn).1 = S (flushes conn) /\
     match rest with
     | inl (SIDAssign sid) :: rest' =>
       (protocolToHub conn).2 = (sid, Some mutual, None) /\
       incoming (protocolToHub conn).1 = rest'
     | _ => is_err (protocolToHub conn).2.2 = true /\
            (protocolToHub conn).2.1 = (zeroSID, None)
     end).
Proof.
  split.
  - intros e Hw. unfold protocolToHub, WriteHubMsg. rewrite Hw. simpl.
    done.
  - intros hubFeatures rest Hw Hf Hin mutual Hman. subst mutual.
    unfold protocolToHub, WriteHubMsg, Flush. simpl.
    rewrite Hw, Hf. simpl. unfold ReadInfoMsg at 1. simpl. rewrite Hin.
    simpl.
    destruct (IsSet _ FeaBASE), (IsSet _ FeaBAS0), (IsSet _ FeaTIGR);
      simpl in Hman; try discriminate; simpl;
      (unfold ReadInfoMsg; simpl;
       destruct rest as [|[[hf|sid|cmd]|e] rest']; simpl; done).
Qed.

End AdcExchangeTheorems.

Lemma protocolToHub_exchange_witness :
  let conn := {| ADC.incoming :=
                   [inl (ADC.Supported {[ ADC.FeaBASE := true;
                                          ADC.FeaTIGR := true ]});
                    inl (ADC.SIDAssign 7%Z)];
                 ADC.write_err := None; ADC.flush_err := None;
                 ADC.outgoing := []; ADC.flushes := 0; ADC.t_closes := 0;
                 ADC.t_close_err := None |} in
  (ADC.protocolToHub (H := ADC.refFeatures) conn).2.1.1 = 7%Z /\
  ADC.incoming (ADC.protocolToHub (H := ADC.refFeatures) conn).1 = [].
Proof.
  intros conn.
  destruct (protocolToHub_exchange (H := ADC.refFeatures) conn)
    as (_ & Hok).
  destruct (Hok {[ ADC.FeaBASE := true; ADC.FeaTIGR := true ]}
              [inl (ADC.SIDAssign 7%Z)] eq_refl eq_refl eq_refl
              ltac:(vm_compute; reflexivity))
    as (_ & _ & Hres & Hrest).
  split; [by rewrite Hres|exact Hrest].
Defined.

(* --------------------------------------------------------------------- *)
(** ** The IRC bridge: reservations, admission, sessions *)

Section IrcMoreTheorems.
Import IRC IRCPeer.
Variable h : Hub.

Lemma reserves_quiet ev :
  Forall (fun e => quiet e = true) ev -> reserves ev = 0.
Proof.
  unfold reserves. induction 1 as [|e ev He _ IH]; [done|].
  simpl. destruct e as [|n [|]| | | | | |]; simpl in *; try done.
Qed.

Lemma reserves_app t1 t2 : reserves (t1 ++ t2) = reserves t1 + reserves t2.
Proof. unfold reserves. by rewrite filter_app, length_app. Qed.

Lemma ircAccept_success peer inbox t rest t' :
  ircAccept h peer inbox t = (inl rest, t') ->
  exists t0, t' = t0 ++ [EvAccept peer; EvBroadcastJoin peer (listPeers h t0)].
Proof.
  unfold ircAccept, bind.
  destruct (writeAll h (welcome h peer) t) as [[[]|e] t1]; [|done].
  destruct (waitJoin h inbox t1) as [[rest1|e] t2]; [|done].
  destruct (writeMessage h _ t2) as [[[]|e] t3]; [|done].
  destruct (PeersJoin h peer (Peers h t3) t3) as [[[]|e] t4]; [|done].
  unfold emit, ret. simpl. intros [= <- <-]. exists t4.
  by rewrite <- app_assoc.
Qed.

(** Every run of the handshake, whatever its outcome, has one of three
    shapes: no reservation at all (an error before a name could be
    reserved); a reservation that is released at the very end (an error
    after it); or a reservation that is kept, which is what a successful
    handshake leaves, the peer bearing the reserved name and the run
    ending with its acceptance and the broadcast of its join. *)
Lemma ircHandshake_shapes cinfo inbox out t :
  ircHandshake h cinfo inbox [] = (out, t) ->
  (Forall (fun e => quiet e = true) t /\ exists e, out = Returned (inr e)) \/
  (exists name ev1 ev2,
     Forall (fun e => quiet e = true) ev1 /\
     Forall (fun e => quiet e = true) ev2 /\
     ((t = ev1 ++ [EvReserve name true] ++ ev2 ++ [EvUnbind name] /\
       exists e, out = Returned (inr e)) \/
      (t = ev1 ++ [EvReserve name true] ++ ev2 /\
       (out = Panicked \/
        exists peer rest t0,
          out = Returned (inl (peer, rest)) /\ peer_name peer = name /\
          t = t0 ++ [EvAccept peer;
                     EvBroadcastJoin peer (listPeers h t0)])))).
Proof.
  unfold ircHandshake.
  pose proof (nickLoop_shape h {| Name := local_host h; User := ""; Host := "" |}
                inbox "" "" []) as Hloop.
  destruct (nickLoop _ _ _ _ _ _) as [e0 t0|name user rest t0];
    simpl in Hloop; destruct Hloop as (ev1 & -> & Q1).
  { intros [= <- <-]. left. eauto. }
  simpl. intros Hres. right. exists name, ev1.
  assert (forall e', (Returned (inr e') : Outcome ((ircPeer * list Input) + err),
                      (emit (EvUnbind name) (ev1 ++ [EvReserve name true])).2)
                     = (out, t) ->
            exists ev2,
              Forall (fun e => quiet e = true) ev1 /\
              Forall (fun e => quiet e = true) ev2 /\
              ((t = ev1 ++ [EvReserve name true] ++ ev2 ++ [EvUnbind name] /\
                exists e, out = Returned (inr e)) \/
               (t = ev1 ++ [EvReserve name true] ++ ev2 /\
                (out = Panicked \/
                 exists peer rest t0,
                   out = Returned (inl (peer, rest)) /\
                   peer_name peer = name /\
                   t = t0 ++ [EvAccept peer;
                              EvBroadcastJoin peer (listPeers h t0)]))))
    as Hnow.
  { intros e' [= <- <-]. exists []. split; [done|]. split; [done|].
    left. simpl. rewrite <- app_assoc. eauto. }
  destruct (getUser h _ name) as [[usr rec] [err|]]; [by eapply Hnow|].
  destruct (usr && rec).
  { destruct (match cinfo with Some ci => negb (Secure ci) | None => false end);
      by eapply Hnow. }
  destruct (IsPrivate h _); [by eapply Hnow|].
  destruct cinfo as [ci|].
  2:{ injection Hres as <- <-. exists []. split; [done|]. split; [done|].
      right. simpl. split; [done|]. by left. }
  match type of Hres with context [ircAccept h ?p rest ?t0] =>
    destruct (ircAccept_quiet h p rest t0) as (ev2 & E2 & Q2);
    pose proof (ircAccept_success p rest t0) as Hacc;
    destruct (ircAccept h p rest t0) as [[rest'|e'] t1]
  end; simpl in E2; subst t1; injection Hres as <- <-; exists ev2;
    (split; [done|]); (split; [done|]).
  - right. rewrite <- !app_assoc. split; [done|]. right.
    destruct (Hacc _ _ eq_refl) as (t0 & Ht0).
    eexists _, rest', t0. split; [done|]. split; [done|].
    by rewrite <- Ht0, <- !app_assoc.
  - left. simpl. rewrite <- !app_assoc. eauto.
Qed.

(** X15. The handshake reserves at most one name and releases only what it
    reserved. After an error nothing stays reserved; after a success the
    reservation is kept, for the accepted peer, whose name is the reserved
    one; and when the handshake panics on a missing connection info, the
    reservation is left behind, unreleased. *)
Theorem handshake_reservation_discipline (cinfo : option ConnInfo)
    (inbox : list Input) (out : Outcome ((ircPeer * list Input) + err))
    (t : Trace) :
  ircHandshake h cinfo inbox [] = (out, t) ->
  reserves t <= 1 /\ unbinds t <= reserves t /\
  match out with
  | Returned (inr _) => unbinds t = reserves t
  | Returned (inl (peer, _)) =>
    reserves t = 1 /\ unbinds t = 0 /\
    EvReserve (peer_name peer) true ∈ t /\ EvAccept peer ∈ t
  | Panicked => reserves t = 1 /\ unbinds t = 0 /\ cinfo = None
  end.
Proof.
  intros Hrun.
  assert (cinfo = None \/ out <> Panicked) as Hpanic.
  { destruct cinfo; [right|by left]. revert Hrun. unfold ircHandshake.
    destruct (nickLoop _ _ _ _ _ _); [by intros [= <- _]|].
    destruct (getUser _ _ _) as [[? ?] [?|]]; [by intros [= <- _]|].
    destruct (_ && _); [destruct (negb _); by intros [= <- _]|].
    destruct (IsPrivate _ _); [by intros [= <- _]|].
    destruct (ircAccept _ _ _ _) as [[?|?] ?]; by intros [= <- _]. }
  destruct (ircHandshake_shapes _ _ _ _ Hrun)
    as [[Q [e ->]]|(name & ev1 & ev2 & Q1 & Q2 & Hcase)].
  { rewrite (unbinds_quiet t Q), (reserves_quiet t Q). lia. }
  assert (reserves (ev1 ++ [EvReserve name true] ++ ev2) = 1) as Hr.
  { rewrite !reserves_app, (reserves_quiet ev1 Q1), (reserves_quiet ev2 Q2).
    reflexivity. }
  assert (unbinds (ev1 ++ [EvReserve name true] ++ ev2) = 0) as Hu.
  { rewrite !unbinds_app, (unbinds_quiet ev1 Q1), (unbinds_quiet ev2 Q2).
    reflexivity. }
  destruct Hcase as [[-> [e ->]]|[Ht Hout]].
  - replace (ev1 ++ [EvReserve name true] ++ ev2 ++ [EvUnbind name])
      with ((ev1 ++ [EvReserve name true] ++ ev2) ++ [EvUnbind name])
      by (by rewrite <- !app_assoc).
    rewrite reserves_app, unbinds_app, Hr, Hu. simpl.
    unfold reserves, unbinds. simpl. lia.
  - rewrite Ht, Hr, Hu. split; [lia|]. split; [lia|].
    destruct Hout as [->|(peer & rest & t0 & -> & Hname & Ht0)].
    + destruct Hpanic as [->|?]; done.
    + split; [done|]. split; [done|]. split.
      * rewrite Hname. rewrite !elem_of_app, list_elem_of_singleton. tauto.
      * rewrite <- Ht, Ht0. rewrite elem_of_app, !elem_of_cons. tauto.
Qed.

(** X16. A handshake succeeds only for a name that has no user record on a hub
    that is not private, with a connection info at hand: a registered
    user can never log in over IRC, whether the connection is secure or
    not, and a private hub admits nobody over IRC. *)
Theorem handshake_admits_only_guests (cinfo : option ConnInfo)
    (inbox : list Input) (peer : ircPeer) (rest : list Input) (t : Trace) :
  ircHandshake h cinfo inbox [] = (Returned (inl (peer, rest)), t) ->
  exists t0 ev,
    t = t0 ++ ev /\
    last t0 = Some (EvReserve (peer_name peer) true) /\
    (getUser h t0 (peer_name peer)).2 = None /\
    ((getUser h t0 (peer_name peer)).1.1
     && (getUser h t0 (peer_name peer)).1.2) = false /\
    IsPrivate h t0 = false /\
    cinfo <> None.
Proof.
  unfold ircHandshake.
  pose proof (nickLoop_shape h {| Name := local_host h; User := ""; Host := "" |}
                inbox "" "" []) as Hloop.
  destruct (nickLoop _ _ _ _ _ _) as [e0 t0|name user rest0 t0];
    simpl in Hloop; destruct Hloop as (ev1 & -> & Q1); [done|].
  simpl.
  destruct (getUser h _ name) as [[usr rec] [err|]] eqn:Eu; [done|].
  destruct (usr && rec) eqn:Er.
  { by destruct (match cinfo with Some ci => negb (Secure ci) | None => false end). }
  destruct (IsPrivate h _) eqn:Ep; [done|].
  destruct cinfo as [ci|]; [|done].
  match goal with |- context [ircAccept h ?p rest0 ?t0] =>
    destruct (ircAccept_quiet h p rest0 t0) as (ev2 & E2 & Q2);
    destruct (ircAccept h p rest0 t0) as [[rest'|e'] t1]
  end; [|done].
  simpl in E2. subst t1. intros [= <- <- <-]. simpl.
  exists (ev1 ++ [EvReserve name true]), ev2.
  rewrite Eu, Ep. simpl. rewrite Er.
  repeat split; try done. apply last_snoc.
Qed.

(** *** Kinds of events *)

Section Kinds.
Variable P : Event -> bool.

Lemma only_ret {A} (a : A) : appends_only P (ret a).
Proof. intros t. exists []. by rewrite app_nil_r. Qed.

Lemma only_emit e : P e = true -> appends_only P (emit e).
Proof. intros He t. exists [e]. split; [done|]. by constructor. Qed.

Lemma only_bind {A B} (c : M A) (k : A -> M B) :
  appends_only P c -> (forall a, appends_only P (k a)) ->
  appends_only P (bind c k).
Proof.
  intros Hc Hk t. unfold bind. destruct (Hc t) as (ev1 & E1 & Q1).
  destruct (c t) as [[a|e] t1]; simpl in E1; subst t1.
  - destruct (Hk a (t ++ ev1)) as (ev2 & E2 & Q2).
    exists (ev1 ++ ev2). rewrite E2, app_assoc. split; [done|].
    by apply Forall_app.
  - by exists ev1.
Qed.

Lemma only_extend {A} (c : M A) t ev0 :
  Forall (fun e => P e = true) ev0 ->
  (exists ev, (c (t ++ ev0)).2 = (t ++ ev0) ++ ev
              /\ Forall (fun e => P e = true) ev) ->
  exists ev, (c (t ++ ev0)).2 = t ++ ev /\ Forall (fun e => P e = true) ev.
Proof.
  intros Q0 (ev & E & Q). exists (ev0 ++ ev). rewrite E, app_assoc.
  split; [done|]. by apply Forall_app.
Qed.

(** The command loop appends nothing but events of the session. *)
Lemma serveLoop_only peer inbox :
  (forall m r, P (EvWrite (with_Command "PONG" m) r) = true) ->
  (forall text, P (EvSendChat peer text) = true) ->
  (forall to text, P (EvPrivateChat peer to text) = true) ->
  forall t, exists ev,
    (serveLoop h peer inbox t).2 = t ++ ev /\
    Forall (fun e => P e = true) ev.
Proof.
  intros Hpong Hchat Hpriv.
  assert (forall t : Trace, exists ev : Trace,
            t = t ++ ev /\ Forall (fun e => P e = true) ev) as Hnil.
  { intros t. exists []. by rewrite app_nil_r. }
  induction inbox as [|[m|e] rest IH]; intros t; simpl.
  - apply Hnil.
  - repeat case_decide.
    + destruct (write_result h t (with_Command "PONG" m)) as [e|] eqn:W;
        simpl.
      * eexists [_]. split; [done|]. constructor; [apply Hpong|done].
      * apply (only_extend (fun t => (inl tt : unit + err, (serveLoop h peer rest t).2))
                 t [EvWrite (with_Command "PONG" m) None]);
          [constructor; [apply Hpong|done]|apply IH].
    + destruct (Params m) as [|dst [|msg [|]]]; try apply Hnil.
      case_decide.
      * destruct (getGlobalChatEnabled h t); simpl; [|apply Hnil].
        apply (only_extend (fun t => (inl tt : unit + err, (serveLoop h peer rest t).2))
                 t [EvSendChat peer msg]);
          [constructor; [apply Hchat|done]|apply IH].
      * destruct (PeerByName h t dst) as [to|]; [|apply IH].
        apply (only_extend (fun t => (inl tt : unit + err, (serveLoop h peer rest t).2))
                 t [EvPrivateChat peer to msg]);
          [constructor; [apply Hpriv|done]|apply IH].
    + apply Hnil.
    + apply IH.
  - destruct e; apply Hnil.
Qed.

Hypothesis P_write : forall m r, P (EvWrite m r) = true.

Lemma only_writeMessage m : appends_only P (writeMessage h m).
Proof.
  intros t. exists [EvWrite m (write_result h t m)]. split; [done|].
  by constructor.
Qed.

Lemma only_writeAll ms : appends_only P (writeAll h ms).
Proof.
  induction ms as [|m ms IH]; simpl.
  - apply only_ret.
  - apply only_bind; [apply only_writeMessage|done].
Qed.

Lemma only_PeersJoin p peers : appends_only P (PeersJoin h p peers).
Proof.
  induction peers as [|peer peers IH]; simpl.
  - apply only_ret.
  - apply only_bind; [apply only_writeMessage|done].
Qed.

Lemma only_waitJoin inbox : appends_only P (waitJoin h inbox).
Proof.
  induction inbox as [|[m|e] rest IH]; intros t; simpl.
  - exists []. by rewrite app_nil_r.
  - repeat case_decide.
    + destruct (write_result h t (with_Command "PONG" m)) as [e|]; simpl.
      * eexists [_]. split; [done|]. by constructor.
      * destruct (IH (t ++ [EvWrite (with_Command "PONG" m) None]))
          as (ev2 & E2 & Q2).
        eexists (_ :: ev2). rewrite E2, <- app_assoc. split; [done|].
        by constructor.
    + exists []. rewrite app_nil_r.
      destruct (Params m) as [|ch [|]]; [done| |done].
      by case_decide.
    + apply IH.
  - exists []. by rewrite app_nil_r.
Qed.

Hypothesis P_accept : forall p, P (EvAccept p) = true.
Hypothesis P_broadcast : forall p l, P (EvBroadcastJoin p l) = true.

Lemma only_ircAccept peer inbox : appends_only P (ircAccept h peer inbox).
Proof.
  unfold ircAccept.
  apply only_bind; [apply only_writeAll|intros _].
  apply only_bind; [apply only_waitJoin|intros rest].
  apply only_bind; [apply only_writeMessage|intros _].
  apply only_bind; [intros t; apply only_PeersJoin|intros _].
  apply only_bind; [|intros _; apply only_ret].
  intros t.
  apply (only_bind (emit (EvAccept peer))
           (fun _ => emit (EvBroadcastJoin peer (listPeers h t))));
    [by apply only_emit|intros _; by apply only_emit].
Qed.

Hypothesis P_reserve : forall n ok, P (EvReserve n ok) = true.
Hypothesis P_unbind : forall n, P (EvUnbind n) = true.

Lemma only_nickLoop pref inbox : forall name user t,
  match nickLoop h pref inbox name user t with
  | LoopFailed _ t' | LoopReserved _ _ _ t' =>
    exists ev, t' = t ++ ev /\ Forall (fun e => P e = true) ev
  end.
Proof.
  remember (length inbox) as n eqn:Hn.
  assert (length inbox <= n) as Hle by lia. clear Hn.
  revert inbox Hle.
  induction n as [|n IH]; intros inbox Hle name user t.
  { destruct inbox; [|simpl in Hle; lia].
    exists []. by rewrite app_nil_r. }
  assert (exists ev : Trace, t = t ++ ev /\ Forall (fun e => P e = true) ev)
    as F by (exists []; by rewrite app_nil_r).
  assert (forall tname u rest0,
            length rest0 <= n ->
            match tryName h pref tname u rest0 (nickLoop h pref rest0) t with
            | LoopFailed _ t' | LoopReserved _ _ _ t' =>
              exists ev, t' = t ++ ev /\ Forall (fun e => P e = true) ev
            end) as Htry.
  { intros tname u rest0 Hlen. unfold tryName.
    destruct (validateUserName h t tname); [exact F|].
    assert (forall t1 ev0, t1 = t ++ ev0 ->
              Forall (fun e => P e = true) ev0 ->
              match nickLoop h pref rest0 tname u t1 with
              | LoopFailed _ t' | LoopReserved _ _ _ t' =>
                exists ev, t' = t ++ ev /\ Forall (fun e => P e = true) ev
              end) as Hagain.
    { intros t1 ev0 -> Q0. specialize (IH rest0 Hlen tname u (t ++ ev0)).
      destruct (nickLoop _ _ _ _ _ _); destruct IH as (ev & -> & Q);
        exists (ev0 ++ ev); rewrite app_assoc; (split; [done|]);
        by apply Forall_app. }
    destruct (nameAvailable h t tname); simpl.
    - destruct (reserveName h t tname).
      + eexists [_]. split; [done|]. by constructor.
      + unfold writeMessage_, writeMessage. simpl.
        eapply Hagain; [by rewrite <- app_assoc|]. by repeat constructor.
    - unfold writeMessage_, writeMessage. simpl.
      eapply Hagain; [done|]. by repeat constructor. }
  destruct inbox as [|[m|e] rest]; simpl; [exact F| |exact F].
  simpl in Hle.
  destruct (Params m) as [|tname [|]]; [exact F| |exact F].
  case_decide; [|exact F].
  case_decide.
  - destruct rest as [|[m2|e2] rest2]; [exact F| |exact F].
    simpl in Hle.
    destruct (Params m2) as [|u [|? [|? [|? [|]]]]]; try exact F.
    case_decide; [|exact F].
    apply Htry. lia.
  - apply Htry. lia.
Qed.

Lemma only_ircHandshake cinfo inbox :
  Forall (fun e => P e = true) (ircHandshake h cinfo inbox []).2.
Proof.
  unfold ircHandshake.
  pose proof (only_nickLoop {| Name := local_host h; User := ""; Host := "" |}
                inbox "" "" []) as Hloop.
  destruct (nickLoop _ _ _ _ _ _) as [e0 t0|name user rest t0];
    destruct Hloop as (ev1 & -> & Q1); [done|].
  simpl.
  assert (Forall (fun e => P e = true) (ev1 ++ [EvUnbind name])) as Hu
    by (apply Forall_app; split; [done|by repeat constructor]).
  destruct (getUser h _ name) as [[usr rec] [err|]]; [done|].
  destruct (usr && rec).
  { by destruct (match cinfo with Some ci => negb (Secure ci) | None => false end). }
  destruct (IsPrivate h _); [done|].
  destruct cinfo as [ci|]; [|done].
  match goal with |- context [ircAccept h ?p rest ?t0] =>
    destruct (only_ircAccept p rest t0) as (ev2 & E2 & Q2);
    destruct (ircAccept h p rest t0) as [[rest'|e'] t1]
  end; simpl in E2; subst t1; simpl.
  - by apply Forall_app.
  - apply Forall_app. split; [by apply Forall_app|by repeat constructor].
Qed.

End Kinds.

Lemma closes_none t :
  Forall (fun e => negb (is_close e) = true) t -> closes t = 0.
Proof.
  unfold closes. induction 1 as [|e ev He _ IH]; [done|].
  simpl. destruct e; simpl in *; done.
Qed.

(** X17. [ServeIRC] closes a peer exactly once, as the last thing it does, when
    the handshake has accepted that peer, and closes nothing when the
    handshake fails; whatever the client sends, the command loop in
    between only answers PINGs with PONGs and passes on chat from this
    peer. *)
Theorem ServeIRC_closes_accepted_peer_once (cinfo : option ConnInfo)
    (inbox : list Input) :
  match ircHandshake h cinfo inbox [] with
  | (Returned (inl (peer, rest)), t0) =>
    exists res ev,
      ServeIRC h cinfo inbox = (Returned res, t0 ++ ev ++ [EvClose peer]) /\
      Forall (fun e => session_event peer e = true) ev /\
      closes (ServeIRC h cinfo inbox).2 = 1
  | _ => closes (ServeIRC h cinfo inbox).2 = 0
  end.
Proof.
  destruct cinfo as [ci|].
  2: { unfold ServeIRC, ircHandshake.
       destruct (nickLoop h _ inbox "" "" []) as [e t|name user rest t];
         [done|].
       destruct (getUser h t name) as [[usr rec] [e|]]; [done|].
       destruct (usr && rec); [done|]. by destruct (IsPrivate h t). }
  assert (Forall (fun e => negb (is_close e) = true)
                 (ircHandshake h (Some ci) inbox []).2) as Hhs
    by (by apply only_ircHandshake).
  unfold ServeIRC.
  destruct (ircHandshake h (Some ci) inbox []) as [[[[peer rest]|e]|] t0];
    simpl in Hhs.
  - unfold serve.
    assert (exists res ev,
              (if negb (callOnJoined h t0 peer) then (None, t0)
               else serveLoop h peer rest t0) = (res, t0 ++ ev) /\
              Forall (fun e => session_event peer e = true) ev)
      as (res & ev & E & Q).
    { destruct (callOnJoined h t0 peer); simpl.
      - destruct (serveLoop_only (session_event peer) peer rest)
          with (t := t0) as (ev & E & Q).
        + intros m r. by apply bool_decide_eq_true.
        + intros text. by apply bool_decide_eq_true.
        + intros to text. by apply bool_decide_eq_true.
        + destruct (serveLoop h peer rest t0) as [res t1]. simpl in E.
          subst t1. eauto.
      - exists None, []. by rewrite app_nil_r. }
    rewrite E. exists res, ev. rewrite <- app_assoc.
    split; [done|]. split; [done|]. simpl.
    unfold closes. rewrite !filter_app, !length_app.
    fold (closes t0). fold (closes ev).
    rewrite (closes_none t0 Hhs), closes_none; [reflexivity|].
    eapply Forall_impl; [exact Q|]. intros e He. by destruct e.
  - by apply closes_none.
  - by apply closes_none.
Qed.

(** X18. [PeersJoin] and [PeersLeave] write one message per peer, in order, and
    stop at the first write that fails, returning its error: what they
    have written is a prefix of the messages for the peers, only the last
    write can have failed, and without an error every peer got its
    message. *)
Theorem peers_events_stop_at_first_failure (p : ircPeer)
    (peers : list Peer) (t : Trace) :
  (exists ev,
     (PeersJoin h p peers t).2 = t ++ ev /\
     written ev `prefix_of` map (joinOf p) peers /\
     length (written ev) = length ev /\
     match (PeersJoin h p peers t).1 with
     | inl _ => written ev = map (joinOf p) peers /\
                Forall (fun e => write_failed e = false) ev
     | inr e => exists ev' m, ev = ev' ++ [EvWrite m (Some e)] /\
                Forall (fun e => write_failed e = false) ev'
     end) /\
  (exists ev,
     (PeersLeave h p peers t).2 = t ++ ev /\
     written ev `prefix_of` map (partOf p) peers /\
     length (written ev) = length ev /\
     match (PeersLeave h p peers t).1 with
     | inl _ => written ev = map (partOf p) peers /\
                Forall (fun e => write_failed e = false) ev
     | inr e => exists ev' m, ev = ev' ++ [EvWrite m (Some e)] /\
                Forall (fun e => write_failed e = false) ev'
     end).
Proof.
  assert (forall (msg : Peer -> irc_Message) (run : list Peer -> M unit),
            run [] = ret tt ->
            (forall peer peers',
               run (peer :: peers')
               = (writeMessage h (msg peer) ;;; run peers')) ->
            forall peers t, exists ev,
              (run peers t).2 = t ++ ev /\
              written ev `prefix_of` map msg peers /\
              length (written ev) = length ev /\
              match (run peers t).1 with
              | inl _ => written ev = map msg peers /\
                         Forall (fun e => write_failed e = false) ev
              | inr e => exists ev' m, ev = ev' ++ [EvWrite m (Some e)] /\
                         Forall (fun e => write_failed e = false) ev'
              end) as Hgen.
  { intros msg run Hnil Hcons. induction peers0 as [|peer peers' IH];
      intros t0.
    - rewrite Hnil. exists []. simpl. rewrite app_nil_r.
      repeat split; try done; apply prefix_nil.
    - rewrite Hcons. unfold bind, writeMessage.
      destruct (write_result h t0 (msg peer)) as [e|] eqn:W; simpl.
      + eexists [_]. split; [done|]. simpl. split.
        * apply prefix_cons, prefix_nil.
        * split; [done|]. exists [], (msg peer). by split.
      + destruct (IH (t0 ++ [EvWrite (msg peer) None]))
          as (ev & E & Hpre & Hlen & Hres).
        exists (EvWrite (msg peer) None :: ev).
        rewrite E, <- app_assoc. split; [done|]. simpl. split.
        * by apply prefix_cons.
        * split; [by rewrite Hlen|].
          destruct (run peers' _).1 as [[]|e].
          -- destruct Hres as [-> Hok]. split; [done|]. by constructor.
          -- destruct Hres as (ev' & m & -> & Hok).
             exists (EvWrite (msg peer) None :: ev'), m.
             split; [done|]. by constructor. }
  split.
  - apply (Hgen (joinOf p) (PeersJoin h p)); done.
  - apply (Hgen (partOf p) (PeersLeave h p)); done.
Qed.

End IrcMoreTheorems.

Lemma handshake_reservation_discipline_witness :
  let run := IRC.ircHandshake (IRC.exampleHub ["bob"] false true)
               IRC.plainConn
               [inl (IRC.NICK "bob"); inl (IRC.USER "b");
                inl (IRC.NICK "bobby"); inl (IRC.JOIN "#hub")] [] in
  IRCPeer.reserves run.2 = 1 /\ IRC.unbinds run.2 = 0.
Proof.
  intros run.
  pose proof (handshake_reservation_discipline
                (IRC.exampleHub ["bob"] false true) IRC.plainConn
                [inl (IRC.NICK "bob"); inl (IRC.USER "b");
                 inl (IRC.NICK "bobby"); inl (IRC.JOIN "#hub")]
                run.1 run.2 eq_refl) as (_ & _ & Hout).
  simpl in Hout. destruct Hout as (Hr & Hu & _). split; [exact Hr|exact Hu].
Defined.

Lemma handshake_admits_only_guests_witness :
  IRC.IsPrivate (IRC.exampleHub [] false true)
    [IRC.EvReserve "carol" true] = false.
Proof.
  destruct (handshake_admits_only_guests (IRC.exampleHub [] false true)
              IRC.plainConn
              [inl (IRC.NICK "carol"); inl (IRC.USER "c");
               inl (IRC.JOIN "#hub")]
              _ _ _ eq_refl) as (t0 & ev & _ & _ & _ & _ & Hp & _).
  exact Hp.
Defined.

(* --------------------------------------------------------------------- *)
(** ** The peers of an ADC client *)
(* --------------------------------------------------------------------- *)

Section AdcPeersTheorems.
Import ADCClient.

Lemma lookup_byCID_make_maps (ps : Peers) (c : CID) :
  byCID (make_maps ps) ≫= (fun m => m !! c) = byCID ps ≫= (fun m => m !! c).
Proof.
  unfold make_maps. destruct (byCID ps) eqn:E; simpl; [by rewrite E|].
  apply lookup_empty.
Qed.

Lemma peerBySID_make_maps (ps : Peers) (s : SID) :
  consistent ps -> peerBySID s (make_maps ps) = peerBySID s ps.
Proof.
  intros ([Hn _] & _). unfold make_maps, peerBySID.
  destruct (byCID ps); [done|]. simpl. by rewrite Hn.
Qed.

Lemma make_maps_shape (ps : Peers) :
  consistent ps ->
  exists mc ms, byCID (make_maps ps) = Some mc /\
                bySID (make_maps ps) = Some ms /\
                heap (make_maps ps) = heap ps.
Proof.
  intros ([Hn Hs] & _). unfold make_maps.
  destruct (byCID ps) as [mc|] eqn:Ec.
  - destruct (bySID ps) as [ms|] eqn:Es.
    + exists mc, ms. simpl. auto.
    + by specialize (Hs eq_refl).
  - by exists ∅, ∅.
Qed.

Lemma fresh_unallocated (ps : Peers) :
  heap ps !! fresh (dom (heap ps)) = None.
Proof. apply not_elem_of_dom, is_fresh. Qed.

(** X19. A user whose CID is not in the table joins as a peer of its own:
    [peerJoins] allocates a peer that did not exist, online under the SID
    and holding the info, and enters it under the SID and under the CID;
    every other SID and every other CID resolves as before. *)
Theorem peerJoins_registers_new_peer (s : SID) (u : UserInfo) (ps : Peers) :
  consistent ps ->
  byCID ps ≫= (fun m => m !! Id u) = None ->
  exists ps' p,
    peerJoins s u ps = Done (ps', p) /\
    heap ps !! p = None /\
    heap ps' = <[p := {| sid := Some s; user := u |}]> (heap ps) /\
    peerBySID s ps' = Some p /\
    byCID ps' ≫= (fun m => m !! Id u) = Some p /\
    (forall s', s' <> s -> peerBySID s' ps' = peerBySID s' ps) /\
    (forall c, c <> Id u ->
       byCID ps' ≫= (fun m => m !! c) = byCID ps ≫= (fun m => m !! c)).
Proof.
  intros Hc Hnew.
  destruct (make_maps_shape ps Hc) as (mc & ms & Emc & Ems & Ehp).
  pose proof (peerBySID_make_maps ps) as Hsid.
  pose proof (lookup_byCID_make_maps ps) as Hcid.
  unfold peerJoins. rewrite Hcid, Hnew.
  unfold new_peer, set_bySID, set_byCID, andThen, online, with_heap. simpl.
  rewrite Ems, Emc, Ehp. simpl.
  eexists _, _. split; [reflexivity|]. simpl.
  repeat split.
  - apply fresh_unallocated.
  - apply map_eq. intros q. rewrite lookup_alter.
    destruct (decide (fresh (dom (heap ps)) = q)) as [<-|Hq].
    + by rewrite !lookup_insert_eq.
    + by rewrite !lookup_insert_ne.
  - unfold peerBySID. simpl. by rewrite lookup_insert_eq.
  - by rewrite lookup_insert_eq.
  - intros s' Hs'. rewrite <- (Hsid s' Hc). unfold peerBySID. simpl.
    rewrite Ems. by rewrite lookup_insert_ne.
  - intros c Hne. rewrite <- (Hcid c). rewrite Emc. simpl.
    by rewrite lookup_insert_ne.
Qed.

Lemma peerJoins_registers_new_peer_witness :
  exists ps' p,
    peerJoins 7%Z (guest 11%Z "ann") noPeers = Done (ps', p) /\
    peerBySID 7%Z ps' = Some p.
Proof.
  assert (Hc : consistent noPeers) by (repeat split; done).
  destruct (peerJoins_registers_new_peer 7%Z (guest 11%Z "ann") noPeers Hc
              eq_refl) as (ps' & p & H1 & _ & _ & H2 & _).
  by exists ps', p.
Defined.

(** X20. A user whose CID is in the table joins as the peer it already is:
    [peerJoins] returns the same peer, online under the new SID and with
    the new info, and the table by CID is the same; were the info of the
    peer under another CID than the one it is filed under, the call
    would panic with "wrong cid". *)
Theorem peerJoins_reuses_known_peer (s : SID) (u : UserInfo) (ps : Peers)
    (p : ptr) (o : Peer) (mc : gmap CID ptr) (ms : gmap SID ptr) :
  byCID ps = Some mc ->
  bySID ps = Some ms ->
  mc !! Id u = Some p ->
  heap ps !! p = Some o ->
  peerJoins s u ps =
    if decide (Id (user o) = Id u)
    then Done ({| heap := <[p := {| sid := Some s; user := u |}]> (heap ps);
                  byCID := Some mc;
                  bySID := Some (<[s := p]> ms) |}, p)
    else Panicked "wrong cid".
Proof.
  intros Ec Es Hp Ho.
  unfold peerJoins, make_maps. rewrite Ec. simpl. rewrite Ec. simpl.
  rewrite Hp. unfold set_bySID. rewrite Es. simpl.
  unfold update, online, with_heap. simpl.
  rewrite lookup_alter_eq, Ho. simpl.
  destruct (decide (Id (user o) = Id u)) as [Hid|Hid].
  - rewrite decide_False by (intros Hn; by apply Hn).
    simpl. rewrite Ec. do 3 f_equal.
    apply map_eq. intros q.
    destruct (decide (p = q)) as [<-|Hq].
    + by rewrite !lookup_insert_eq.
    + rewrite !lookup_insert_ne by done. by rewrite lookup_alter_ne.
  - by rewrite decide_True.
Qed.

Lemma peerJoins_reuses_known_peer_witness :
  exists ps',
    peerJoins 9%Z (guest 11%Z "anna")
      {| heap := {[ 0 := {| sid := None; user := guest 11%Z "ann" |} ]};
         byCID := Some {[ 11%Z := 0 ]};
         bySID := Some ∅ |} = Done (ps', 0) /\
    Info 0 ps' = Some (guest 11%Z "anna") /\
    getSID 0 ps' = Some 9%Z.
Proof.
  pose proof (peerJoins_reuses_known_peer 9%Z (guest 11%Z "anna")
    {| heap := {[ 0 := {| sid := None; user := guest 11%Z "ann" |} ]};
       byCID := Some {[ 11%Z := 0 ]};
       bySID := Some ∅ |}
    0 {| sid := None; user := guest 11%Z "ann" |} {[ 11%Z := 0 ]} ∅
    eq_refl eq_refl eq_refl eq_refl) as H.
  rewrite decide_True in H by reflexivity.
  eexists. split; [exact H|]. split; vm_compute; reflexivity.
Defined.

(** X21. A known SID quits once: [peerQuit] takes the peer offline and
    forgets the SID, and keeps the info of the peer, the table by CID,
    every other SID and every other peer; quitting the same SID again is
    an error and changes nothing. *)
Theorem peerQuit_forgets_only_the_session (s : SID) (ps : Peers) (p : ptr) :
  peerBySID s ps = Some p ->
  let ps' := (peerQuit s ps).1 in
  (peerQuit s ps).2 = None /\
  peerBySID s ps' = None /\
  getSID p ps' = None /\
  Info p ps' = Info p ps /\
  byCID ps' = byCID ps /\
  (forall s', s' <> s -> peerBySID s' ps' = peerBySID s' ps) /\
  (forall q, q <> p -> heap ps' !! q = heap ps !! q) /\
  peerQuit s ps' =
    (ps', Some (fmt_Errorf "unknown user quits: %v" [pretty s])).
Proof.
  intros Hp. unfold peerQuit. rewrite Hp. simpl.
  assert (Hgone : peerBySID s
            {| heap := alter (fun o => {| sid := None; user := user o |}) p
                         (heap ps);
               byCID := byCID ps; bySID := delete s <$> bySID ps |} = None).
  { unfold peerBySID. simpl. destruct (bySID ps); simpl; [|done].
    by rewrite lookup_delete_eq. }
  repeat split.
  - exact Hgone.
  - unfold getSID. simpl. rewrite lookup_alter_eq.
    by destruct (heap ps !! p).
  - unfold Info. simpl. rewrite lookup_alter_eq.
    by destruct (heap ps !! p).
  - intros s' Hs'. unfold peerBySID. simpl.
    destruct (bySID ps); simpl; [|done]. by rewrite lookup_delete_ne.
  - intros q Hq. by rewrite lookup_alter_ne.
  - by rewrite Hgone.
Qed.

Lemma peerQuit_forgets_only_the_session_witness :
  exists ps1 p,
    peerJoins 7%Z (guest 11%Z "ann") noPeers = Done (ps1, p) /\
    getSID p ps1 = Some 7%Z /\
    getSID p (peerQuit 7%Z ps1).1 = None.
Proof.
  eexists _, _. split; [reflexivity|]. split; [vm_compute; reflexivity|].
  refine (proj1 (proj2 (proj2
    (peerQuit_forgets_only_the_session 7%Z _ _ _)))).
  vm_compute. reflexivity.
Defined.

End AdcPeersTheorems.

Section AdcRegistryTheorems.
Import ADCClient.

Lemma make_maps_view (ps : Peers) :
  consistent ps ->
  exists mc ms,
    make_maps ps = {| heap := heap ps; byCID := Some mc; bySID := Some ms |} /\
    (forall c, byCID ps ≫= (fun m => m !! c) = mc !! c) /\
    (forall s, peerBySID s ps = ms !! s).
Proof.
  intros ([Hn Hs] & _). unfold make_maps, peerBySID.
  destruct ps as [hp [mc|] [ms|]]; simpl in *.
  - by exists mc, ms.
  - by specialize (Hs eq_refl).
  - by specialize (Hn eq_refl).
  - exists ∅, ∅. repeat split; intros; by rewrite lookup_empty.
Qed.

Lemma consistent_intro (hp : gmap ptr Peer) (mc : gmap CID ptr)
    (ms : gmap SID ptr) :
  (forall c p, mc !! c = Some p -> is_Some (hp !! p)) ->
  (forall s p, ms !! s = Some p -> is_Some (hp !! p)) ->
  consistent {| heap := hp; byCID := Some mc; bySID := Some ms |}.
Proof. intros H1 H2. repeat split; simpl; try done. Qed.

Lemma is_Some_insert_keep {K A} `{Countable K} (m : gmap K A) (k q : K)
    (v : A) :
  is_Some (m !! q) -> is_Some (<[k := v]> m !! q).
Proof.
  intros Hq. destruct (decide (k = q)) as [<-|Hne].
  - rewrite lookup_insert_eq. by eexists.
  - by rewrite lookup_insert_ne.
Qed.

Lemma is_Some_alter_keep {K A} `{Countable K} (m : gmap K A) (k q : K)
    (f : A -> A) :
  is_Some (m !! q) -> is_Some (alter f k m !! q).
Proof.
  intros Hq. destruct (decide (k = q)) as [<-|Hne].
  - rewrite lookup_alter_eq. destruct Hq as [x ->]. by eexists.
  - by rewrite lookup_alter_ne.
Qed.

(** The table after a new peer was allocated and filed. *)
Lemma filed_consistent (hp : gmap ptr Peer) (mc : gmap CID ptr)
    (ms : gmap SID ptr) (s : SID) (c : CID) (o : Peer) (f : Peer -> Peer) :
  (forall c p, mc !! c = Some p -> is_Some (hp !! p)) ->
  (forall s p, ms !! s = Some p -> is_Some (hp !! p)) ->
  let p := fresh (dom hp) in
  consistent {| heap := alter f p (<[p := o]> hp);
                byCID := Some (<[c := p]> mc);
                bySID := Some (<[s := p]> ms) |}.
Proof.
  intros H1 H2 p. apply consistent_intro.
  - intros c' q. destruct (decide (c = c')) as [<-|Hne].
    + rewrite lookup_insert_eq. intros [= <-].
      rewrite lookup_alter_eq, lookup_insert_eq. by eexists.
    + rewrite lookup_insert_ne by done. intros Hq.
      by apply is_Some_alter_keep, is_Some_insert_keep, (H1 c').
  - intros s' q. destruct (decide (s = s')) as [<-|Hne].
    + rewrite lookup_insert_eq. intros [= <-].
      rewrite lookup_alter_eq, lookup_insert_eq. by eexists.
    + rewrite lookup_insert_ne by done. intros Hq.
      by apply is_Some_alter_keep, is_Some_insert_keep, (H2 s').
Qed.

(** X22. The peer table keeps its shape. From a table where the two maps
    exist together and hold allocated peers only, [peerQuit] and
    [peerUpdate] always return and [peerJoins] returns or panics with
    "wrong cid"; the table they leave is of the same kind, and no peer
    and no CID that was in it has been dropped. *)
Theorem registry_stays_consistent (ps : Peers) :
  consistent ps ->
  (forall s u,
     (exists ps' p, peerJoins s u ps = Done (ps', p) /\
                    consistent ps' /\ remembers ps ps') \/
     peerJoins s u ps = Panicked "wrong cid") /\
  (forall s, consistent (peerQuit s ps).1 /\
             remembers ps (peerQuit s ps).1) /\
  (forall s pck,
     exists ps' e, peerUpdate s pck ps = Done (ps', e) /\
                   consistent ps' /\ remembers ps ps').
Proof.
  intros Hc.
  destruct (make_maps_view ps Hc) as (mc & ms & Eview & Hmc & Hms).
  pose proof Hc as (Hnil & HCok & HSok).
  assert (H1 : forall c p, mc !! c = Some p -> is_Some (heap ps !! p)).
  { intros c p Hp. apply (HCok c). by rewrite Hmc. }
  assert (H2 : forall s p, ms !! s = Some p -> is_Some (heap ps !! p)).
  { intros s p Hp. apply (HSok s). by rewrite Hms. }
  split; [|split].
  - (* peerJoins *)
    intros s u. unfold peerJoins. rewrite Eview. simpl.
    destruct (mc !! Id u) as [p|] eqn:Hp.
    + destruct (H1 _ _ Hp) as [o Ho].
      unfold update, online, with_heap. simpl.
      rewrite lookup_alter_eq, Ho. simpl.
      destruct (decide (Id (user o) <> Id u)); [by right|].
      left. eexists _, _. split; [reflexivity|]. split.
      * apply consistent_intro.
        -- intros c q Hq.
           by apply is_Some_insert_keep, is_Some_alter_keep, (H1 c).
        -- intros s' q. destruct (decide (s = s')) as [<-|Hne].
           ++ rewrite lookup_insert_eq. intros [= <-].
              rewrite lookup_insert_eq. by eexists.
           ++ rewrite lookup_insert_ne by done. intros Hq.
              by apply is_Some_insert_keep, is_Some_alter_keep, (H2 s').
      * split; simpl.
        -- intros q Hq. by apply is_Some_insert_keep, is_Some_alter_keep.
        -- intros c. by rewrite Hmc.
    + left. unfold new_peer, with_heap. simpl.
      eexists _, _. split; [reflexivity|]. split.
      * by apply filed_consistent.
      * split; simpl.
        -- intros q Hq. by apply is_Some_alter_keep, is_Some_insert_keep.
        -- intros c. rewrite Hmc. apply is_Some_insert_keep.
  - (* peerQuit *)
    intros s. unfold peerQuit.
    destruct (peerBySID s ps) as [p|] eqn:Hp; simpl.
    + split.
      * repeat split; simpl.
        -- intros E. destruct Hnil as [Hnil _]. by rewrite (Hnil E).
        -- intros E. destruct Hnil as [_ Hnil]. apply Hnil.
           by destruct (bySID ps).
        -- intros c q Hq. by apply is_Some_alter_keep, (HCok c).
        -- intros s' q. unfold peerBySID. simpl. intros Hq.
           apply is_Some_alter_keep, (HSok s'). unfold peerBySID.
           destruct (bySID ps) as [m|]; simpl in *; [|done].
           destruct (decide (s = s')) as [<-|Hne].
           ++ by rewrite lookup_delete_eq in Hq.
           ++ by rewrite lookup_delete_ne in Hq.
      * split; simpl; [|done].
        intros q Hq. by apply is_Some_alter_keep.
    + split; [done|]. by split.
  - (* peerUpdate *)
    intros s pck. unfold peerUpdate.
    destruct (peerBySID s ps) as [p|] eqn:Hp.
    + destruct (HSok _ _ Hp) as [o Ho]. rewrite Ho.
      destruct (pck (user o)) as [u e].
      eexists _, _. split; [reflexivity|]. split.
      * unfold with_heap. repeat split; simpl.
        -- apply Hnil.
        -- apply Hnil.
        -- intros c q Hq. by apply is_Some_insert_keep, (HCok c).
        -- intros s' q Hq. by apply is_Some_insert_keep, (HSok s').
      * split; simpl; [|done].
        intros q Hq. by apply is_Some_insert_keep.
    + destruct (pck zeroUser) as [u e].
      destruct (is_err e).
      * eexists _, _. split; [reflexivity|]. split; [done|]. by split.
      * rewrite Eview. unfold new_peer, with_heap. simpl.
        eexists _, _. split; [reflexivity|]. split.
        -- by apply filed_consistent.
        -- split; simpl.
           ++ intros q Hq. by apply is_Some_alter_keep, is_Some_insert_keep.
           ++ intros c. rewrite Hmc. apply is_Some_insert_keep.
Qed.

Lemma registry_stays_consistent_witness :
  consistent noPeers /\
  exists ps' e,
    peerUpdate 7%Z (fun _ => (guest 11%Z "ann", None)) noPeers
      = Done (ps', e) /\
    consistent ps'.
Proof.
  assert (Hc : consistent noPeers) by (repeat split; done).
  split; [exact Hc|].
  destruct (registry_stays_consistent noPeers Hc) as (_ & _ & H).
  destruct (H 7%Z (fun _ => (guest 11%Z "ann", None)))
    as (ps' & e & H1 & H2 & _).
  by exists ps', e.
Defined.

End AdcRegistryTheorems.

(* --------------------------------------------------------------------- *)
(** ** Feature selectors and reverse-connection tokens *)
(* --------------------------------------------------------------------- *)

Section AdcDispatchTheorems.
Import ADCClient.

Lemma selected_spec (ext : gset Feature) (sels : list FeatureSel) :
  selected ext sels = true <->
  Forall (fun f => Fea f ∈ ext <-> Sel f = true) sels.
Proof.
  induction sels as [|f sels IH]; simpl.
  - split; [constructor|done].
  - rewrite Forall_cons, <- IH.
    destruct (Sel f); case_bool_decide as Hin; simpl;
      split; try done; tauto.
Qed.

(** X23. A feature broadcast is handled as a broadcast exactly when every
    selector agrees with the extensions of the client, a [+] feature
    being one that the client has and a [-] feature one that it lacks;
    with a selector that disagrees the packet is dropped, without an
    error and without touching the state. *)
Theorem handleFeature_obeys_selectors {St Msg : Type}
    (handleBroadcast : SID -> Msg -> St -> St * error)
    (ext : gset Feature) (ID : SID) (sels : list FeatureSel) (msg : Msg)
    (st : St) :
  (Forall (fun f => Fea f ∈ ext <-> Sel f = true) sels ->
   handleFeature handleBroadcast ext ID sels msg st
     = handleBroadcast ID msg st) /\
  (Exists (fun f => ~ (Fea f ∈ ext <-> Sel f = true)) sels ->
   handleFeature handleBroadcast ext ID sels msg st = (st, None)).
Proof.
  unfold handleFeature. split.
  - intros H. apply selected_spec in H. by rewrite H.
  - intros H. destruct (selected ext sels) eqn:E; [|done].
    apply selected_spec in E. apply Exists_exists in H as (f & Hf & Hn).
    rewrite Forall_forall in E. by specialize (E f Hf).
Qed.

Lemma newRevConnToken_spec (random : list Z) (c : CID) (tokens tokens1 : Tokens)
    (tok : string) :
  newRevConnToken random c tokens = Some (tokens1, tok) ->
  default ∅ tokens !! tok = None /\
  tokens1 = Some (<[tok := {| cid := c |}]> (default ∅ tokens)).
Proof.
  induction random as [|n random IH]; simpl; [done|].
  destruct (default ∅ tokens !! pretty n) eqn:E; [exact IH|].
  by intros [= <- <-].
Qed.

(** X24. A reverse-connection token is answered once. The token that
    [revConnToken] hands out was not in use and leaves the other tokens
    alone; the connect request that carries it is answered to the holder
    registered under it and consumes it, so that the same request sent
    again is ignored; a request with a token that was never handed out
    is ignored as well. *)
Theorem token_is_answered_once (random : list Z) (c : CID)
    (tokens tokens1 : Tokens) (tok : string) (ID : SID) (Proto : string)
    (Port : Z) (ps : Peers) :
  newRevConnToken random c tokens = Some (tokens1, tok) ->
  default ∅ tokens !! tok = None /\
  (forall t, t <> tok -> default ∅ tokens1 !! t = default ∅ tokens !! t) /\
  handleDirect ID (inl (ConnectRequest Proto Port tok)) ps tokens
    = (tokens, None, None) /\
  exists tokens2,
    handleDirect ID (inl (ConnectRequest Proto Port tok)) ps tokens1
      = (tokens2, None,
         Some ({| cid := c |},
               handleConnReq (peerBySID ID ps ≫= (fun p => Info p ps))
                             Proto Port)) /\
    (forall t, default ∅ tokens2 !! t = default ∅ tokens !! t) /\
    handleDirect ID (inl (ConnectRequest Proto Port tok)) ps tokens2
      = (tokens2, None, None).
Proof.
  intros H. apply newRevConnToken_spec in H as [Hfresh ->].
  split; [done|]. split; [|split].
  - intros t Ht. simpl. by rewrite lookup_insert_ne.
  - unfold handleDirect. rewrite Hfresh. f_equal. f_equal.
    destruct tokens as [m|]; simpl in *; [|done].
    by rewrite delete_id.
  - eexists. split; [|split].
    + unfold handleDirect. simpl. rewrite lookup_insert_eq. reflexivity.
    + intros t. simpl. destruct (decide (tok = t)) as [<-|Hne].
      * by rewrite lookup_delete_eq.
      * by rewrite lookup_delete_ne, lookup_insert_ne.
    + unfold handleDirect. simpl. rewrite lookup_delete_eq.
      by rewrite delete_delete_eq.
Qed.

Lemma token_is_answered_once_witness :
  exists tokens2,
    handleDirect 7%Z (inl (ConnectRequest ProtoADC 411%Z "5")) noPeers
      (Some {[ "5" := {| cid := 3%Z |}; "4" := {| cid := 2%Z |} ]})
    = (tokens2, None, Some ({| cid := 3%Z |}, inr ErrPeerOffline)).
Proof.
  assert (H0 : newRevConnToken [4%Z; 5%Z] 3%Z
                 (Some ({[ "4" := {| cid := 2%Z |} ]}
                          : gmap string revConnToken))
               = Some (Some {[ "5" := {| cid := 3%Z |};
                               "4" := {| cid := 2%Z |} ]}, "5"))
    by (vm_compute; reflexivity).
  destruct (token_is_answered_once _ _ _ _ _ 7%Z ProtoADC 411%Z noPeers H0)
    as (_ & _ & _ & tokens2 & H & _).
  by exists tokens2.
Defined.

End AdcDispatchTheorems.

(* --------------------------------------------------------------------- *)
(** ** IDENTIFY and the user list *)
(* --------------------------------------------------------------------- *)

Section AdcIdentifyTheorems.
Import ADCClient.
Context `{Build}.

Lemma ensureFeature_spec (f : Feature) (u : UserInfo) :
  let u' := ensureFeature f u in
  f ∈ Features u' /\
  Features u `prefix_of` Features u' /\
  (forall g, g ∈ Features u' -> g ∈ Features u \/ g = f) /\
  (NoDup (Features u) -> NoDup (Features u')) /\
  Id u' = Id u /\ Pid u' = Pid u /\
  Application u' = Application u /\ Version u' = Version u.
Proof.
  unfold ensureFeature. case_bool_decide as Hin; simpl.
  - repeat split; auto.
  - repeat split; try done.
    + apply elem_of_app. right. apply list_elem_of_here.
    + by apply prefix_app_r.
    + intros g Hg. apply elem_of_app in Hg as [Hg|Hg]; [by left|].
      right. by apply list_elem_of_singleton in Hg.
    + intros Hnd. apply NoDup_app. repeat split; [done| |apply NoDup_singleton].
      intros g Hg Hg'. apply list_elem_of_singleton in Hg'. by subst.
Qed.

Lemma ensureFeature_present (f : Feature) (u : UserInfo) :
  f ∈ Features u -> ensureFeature f u = u.
Proof. intros Hin. unfold ensureFeature. by rewrite bool_decide_eq_true_2. Qed.

(** A user info that [identifyToHub] has nothing to add to. *)
Lemma identifyToHub_complete (conn : Out) (s : SID) (u : UserInfo) :
  (Id u <> zeroCID \/ exists pid, Pid u = Some pid /\ Hash pid = Id u) ->
  (Application u <> "" \/
   (version_Name = Application u /\ version_Vers = Version u)) ->
  FeaSEGA ∈ Features u -> FeaTCP4 ∈ Features u ->
  exists conn' e, identifyToHub conn s u = Done (conn', u, e).
Proof.
  intros Hid Happ Hs Ht. unfold identifyToHub.
  assert (E1 : (if decide (Id u = zeroCID)
                then match Pid u with
                     | Some pid => Done (with_Id (Hash pid) u)
                     | None => Panicked "nil pointer dereference"
                     end
                else Done u) = Done u).
  { destruct (decide (Id u = zeroCID)) as [E|E]; [|done].
    destruct Hid as [Hid|(pid & Hpid & Hh)]; [done|].
    rewrite Hpid, Hh. by destruct u. }
  rewrite E1. simpl andThen.
  assert (E2 : (if decide (Application u = "")
                then with_App version_Name version_Vers u else u) = u).
  { destruct (decide (Application u = "")) as [E|E]; [|done].
    destruct Happ as [Happ|[-> ->]]; [done|]. by destruct u. }
  rewrite E2. simpl foldl.
  rewrite (ensureFeature_present FeaSEGA u Hs).
  rewrite (ensureFeature_present FeaTCP4 u Ht).
  destruct (out_write_err conn); by eexists _, _.
Qed.

(** X25. What [identifyToHub] leaves in the user info. When it returns,
    the features are the ones the caller gave followed by SEGA and TCP4
    where they were missing, nothing else and nothing twice; a CID that
    was set is kept and a zero CID is the hash of the PID; with no error
    the info that was broadcast is the completed one, and a second call
    changes the info no more. *)
Theorem identifyToHub_completes_user (conn conn' : Out) (s : SID)
    (u u' : UserInfo) (e : error) :
  identifyToHub conn s u = Done (conn', u', e) ->
  FeaSEGA ∈ Features u' /\ FeaTCP4 ∈ Features u' /\
  Features u `prefix_of` Features u' /\
  (forall g, g ∈ Features u' ->
             g ∈ Features u \/ g = FeaSEGA \/ g = FeaTCP4) /\
  (NoDup (Features u) -> NoDup (Features u')) /\
  (Id u <> zeroCID -> Id u' = Id u) /\
  (Id u = zeroCID -> exists pid, Pid u = Some pid /\ Id u' = Hash pid) /\
  (e = None -> broadcasts conn' = broadcasts conn ++ [(s, u')]) /\
  (forall c, exists c' e', identifyToHub c s u' = Done (c', u', e')).
Proof.
  unfold identifyToHub at 1. intros Hrun.
  (* the CID *)
  assert (Hcid : exists u1,
    (if decide (Id u = zeroCID)
     then match Pid u with
          | Some pid => Done (with_Id (Hash pid) u)
          | None => Panicked "nil pointer dereference"
          end
     else Done u) = Done u1 /\
    Features u1 = Features u /\ Pid u1 = Pid u /\
    (Id u <> zeroCID -> u1 = u) /\
    (Id u = zeroCID -> exists pid, Pid u = Some pid /\ Id u1 = Hash pid)).
  { destruct (decide (Id u = zeroCID)) as [E|E].
    - destruct (Pid u) as [pid|] eqn:Hpid; [|done].
      eexists. split; [reflexivity|]. simpl.
      split; [done|]. split; [done|]. split; [done|].
      intros _. by exists pid.
    - exists u. split; [done|]. split; [done|]. split; [done|].
      split; [done|]. intros E'. by destruct E. }
  destruct Hcid as (u1 & E1 & HF1 & HP1 & HI1 & HI1').
  rewrite E1 in Hrun. simpl andThen in Hrun.
  (* the application *)
  set (u2 := if decide (Application u1 = "")
             then with_App version_Name version_Vers u1 else u1) in *.
  assert (Hu2 : Features u2 = Features u1 /\ Pid u2 = Pid u1 /\
                Id u2 = Id u1 /\
                (Application u2 <> "" \/
                 (version_Name = Application u2 /\
                  version_Vers = Version u2))).
  { unfold u2. destruct (decide (Application u1 = "")) as [E|E]; simpl.
    - repeat split. by right.
    - repeat split. by left. }
  destruct Hu2 as (HF2 & HP2 & HI2 & HA2).
  (* the features *)
  simpl foldl in Hrun.
  destruct (ensureFeature_spec FeaSEGA u2)
    as (A1 & A2 & A3 & A4 & A5 & A6 & A7 & A8).
  set (u3 := ensureFeature FeaSEGA u2) in *.
  destruct (ensureFeature_spec FeaTCP4 u3)
    as (B1 & B2 & B3 & B4 & B5 & B6 & B7 & B8).
  set (u4 := ensureFeature FeaTCP4 u3) in *.
  simpl in A1, A2, A3, A4, A5, A6, A7, A8, B1, B2, B3, B4, B5, B6, B7, B8.
  assert (Hu' : u' = u4 /\
                (e = None -> broadcasts conn' = broadcasts conn ++ [(s, u4)])).
  { destruct (out_write_err conn).
    - by injection Hrun as <- <- <-.
    - by injection Hrun as <- <- <-. }
  destruct Hu' as [-> Hb]. clear Hrun.
  assert (Hsega : FeaSEGA ∈ Features u4).
  { destruct B2 as [k ->]. apply elem_of_app. by left. }
  split; [exact Hsega|]. split; [exact B1|]. split.
  { etrans; [|exact B2]. etrans; [|exact A2]. by rewrite HF2, HF1. }
  split.
  { intros g Hg. apply B3 in Hg as [Hg| ->]; [|by right; right].
    apply A3 in Hg as [Hg| ->]; [|by right; left].
    left. by rewrite HF2, HF1 in Hg. }
  split.
  { intros Hnd. apply B4, A4. by rewrite HF2, HF1. }
  split.
  { intros Hid. rewrite B5, A5, HI2. by rewrite (HI1 Hid). }
  split.
  { intros Hid. rewrite B5, A5, HI2. by apply HI1'. }
  split; [exact Hb|].
  intros c. apply identifyToHub_complete; [| |exact Hsega|exact B1].
  - destruct (decide (Id u = zeroCID)) as [E|E].
    + right. destruct (HI1' E) as (pid & Hpid & Hh).
      exists pid. split.
      * by rewrite B6, A6, HP2, HP1.
      * by rewrite B5, A5, HI2.
    + left. rewrite B5, A5, HI2. by rewrite (HI1 E).
  - rewrite B7, A7, B8, A8. exact HA2.
Qed.

End AdcIdentifyTheorems.

Lemma identifyToHub_completes_user_witness :
  exists conn' u',
    @ADCClient.identifyToHub ADCClient.exampleBuild
      {| ADCClient.broadcasts := []; ADCClient.out_write_err := None;
         ADCClient.out_flush_err := None; ADCClient.out_flushes := 0 |}
      7%Z (ADCClient.guest 11%Z "ann")
      = Config.Done (conn', u', None) /\
    ADCClient.FeaSEGA ∈ ADCClient.Features u' /\
    ADCClient.FeaTCP4 ∈ ADCClient.Features u'.
Proof.
  eexists _, _. split; [reflexivity|].
  destruct (identifyToHub_completes_user
    (H := ADCClient.exampleBuild)
    {| ADCClient.broadcasts := []; ADCClient.out_write_err := None;
       ADCClient.out_flush_err := None; ADCClient.out_flushes := 0 |}
    _ 7%Z (ADCClient.guest 11%Z "ann") _ None eq_refl) as (H1 & H2 & _).
  split; [exact H1|exact H2].
Defined.

Section AdcUsersListTheorems.
Import ADCClient.

Lemma acceptLoop_users (others : list (SID * UserInfo)) (d : Decoder)
    (rest : list (Packet + err)) :
  forall (stage : Stage) (c : Client) (ps' : Peers),
  stage <> hubInfo ->
  Forall (fun su => su.1 <> c_sid c) others ->
  joinAll others (c_peers c) = Done ps' ->
  acceptLoop stage
    ((userPacket <$> others) ++ inl (BroadcastPacket (c_sid c) d) :: rest) c
  = Done ({| c_sid := c_sid c;
             c_user := (d (with_Pid None (c_user c))).1;
             c_hub := c_hub c; c_peers := ps' |},
          (d (with_Pid None (c_user c))).2, rest).
Proof.
  induction others as [|[s u] others IH]; intros stage c ps' Hst Hall Hjoin.
  - simpl in *. injection Hjoin as <-.
    destruct stage; [done| |]; rewrite decide_True by done;
      by destruct (d (with_Pid None (c_user c))) as [u1 e1].
  - apply Forall_cons in Hall as [Hs Hall]. cbn [fst] in Hs.
    cbn [joinAll] in Hjoin.
    destruct (peerJoins s u (c_peers c)) as [[ps1 p1]|msg] eqn:Ej;
      [|done].
    cbn [andThen] in Hjoin.
    specialize (IH userList
      {| c_sid := c_sid c; c_user := c_user c; c_hub := c_hub c;
         c_peers := ps1 |} ps' ltac:(done) Hall Hjoin).
    cbn [c_sid c_user c_hub c_peers] in IH. rewrite <- IH.
    rewrite fmap_cons. cbn [app userPacket acceptLoop fst snd].
    destruct stage; [done| |]; rewrite decide_False by done;
      rewrite Ej; reflexivity.
Qed.

(** X26. The user list is read up to the own info. After the hub info, an
    optional status that says success and the infos of other users, the
    broadcast with the own SID ends [acceptUsersList]: the hub info is
    stored, every other user has joined in the order of the list, the own
    info is decoded over the stored one with the PID wiped, and what
    follows on the connection is left unread. *)
Theorem acceptUsersList_reads_to_own_info (c : Client)
    (dh : HubInfo -> HubInfo * error) (ds : Status * error)
    (status : option Status) (others : list (SID * UserInfo)) (d : Decoder)
    (rest : list (Packet + err)) (hub' : HubInfo) (ps' : Peers) :
  dh (c_hub c) = (hub', None) ->
  (forall st, status = Some st -> Ok st = true) ->
  Forall (fun su => su.1 <> c_sid c) others ->
  joinAll others (c_peers c) = Done ps' ->
  acceptUsersList
    (inl (InfoPacket "INF" dh ds)
       :: option_list (statusPacket <$> status)
       ++ (userPacket <$> others)
       ++ inl (BroadcastPacket (c_sid c) d) :: rest) c
  = Done ({| c_sid := c_sid c;
             c_user := (d (with_Pid None (c_user c))).1;
             c_hub := hub'; c_peers := ps' |},
          (d (with_Pid None (c_user c))).2, rest).
Proof.
  intros Hhub Hst Hall Hjoin. unfold acceptUsersList.
  cbn [acceptLoop]. rewrite decide_False by (intros Hn; by apply Hn).
  rewrite Hhub. cbn [is_err].
  destruct status as [st|].
  2: change (option_list (statusPacket <$> None))
       with (@nil (Packet + err)).
  1: change (option_list (statusPacket <$> Some st))
       with [statusPacket st].
  all: cbn [app].
  - unfold statusPacket. cbn [acceptLoop].
    rewrite decide_False by (intros Hn; by apply Hn).
    cbn [is_err]. rewrite (Hst st eq_refl). cbn [negb].
    exact (acceptLoop_users others d rest userList
      {| c_sid := c_sid c; c_user := c_user c; c_hub := hub';
         c_peers := c_peers c |} ps' ltac:(done) Hall Hjoin).
  - exact (acceptLoop_users others d rest optStatus
      {| c_sid := c_sid c; c_user := c_user c; c_hub := hub';
         c_peers := c_peers c |} ps' ltac:(done) Hall Hjoin).
Qed.

Lemma acceptUsersList_reads_to_own_info_witness :
  exists c',
    acceptUsersList
      [inl (InfoPacket "INF"
              (fun _ => ({| HubName := "hub"; HubVersion := "1";
                            HubDesc := "" |}, None))
              ({| Sev := 0; Code := 0; Msg := "" |}, None));
       statusPacket {| Sev := 0; Code := 0; Msg := "ok" |};
       userPacket (7%Z, guest 11%Z "ann");
       inl (BroadcastPacket 5%Z (fun u => (u, None)));
       userPacket (8%Z, guest 12%Z "bob")]
      {| c_sid := 5%Z; c_user := guest 10%Z "me";
         c_hub := {| HubName := ""; HubVersion := ""; HubDesc := "" |};
         c_peers := noPeers |}
    = Done (c', None, [userPacket (8%Z, guest 12%Z "bob")]) /\
    HubName (c_hub c') = "hub".
Proof.
  eexists. split.
  apply (acceptUsersList_reads_to_own_info
    {| c_sid := 5%Z; c_user := guest 10%Z "me";
       c_hub := {| HubName := ""; HubVersion := ""; HubDesc := "" |};
       c_peers := noPeers |}
    (fun _ => ({| HubName := "hub"; HubVersion := "1"; HubDesc := "" |},
               None))
    ({| Sev := 0; Code := 0; Msg := "" |}, None)
    (Some {| Sev := 0; Code := 0; Msg := "ok" |})
    [(7%Z, guest 11%Z "ann")] (fun u => (u, None))
    [userPacket (8%Z, guest 12%Z "bob")]).
  - reflexivity.
  - by intros st [= <-].
  - repeat constructor. by vm_compute.
  - reflexivity.
  - reflexivity.
Defined.

Lemma acceptLoop_success (incoming : list (Packet + err)) :
  forall (stage : Stage) (c c' : Client) (rest : list (Packet + err)),
  stage <> hubInfo ->
  acceptLoop stage incoming c = Done (c', None, rest) ->
  exists pre d,
    incoming = pre ++ inl (BroadcastPacket (c_sid c) d) :: rest /\
    Forall (foreign (c_sid c)) pre /\
    d (with_Pid None (c_user c)) = (c_user c', None) /\
    c_sid c' = c_sid c /\ c_hub c' = c_hub c.
Proof.
  induction incoming as [|x incoming IH]; intros stage c c' rest Hst Hrun;
    [done|].
  destruct x as [[typ dh ds|ID d|kind]|e]; simpl in Hrun; try done.
  - destruct stage; try done.
    destruct (decide (typ <> "STA")) as [|Htyp]; [done|].
    apply dec_stable in Htyp.
    destruct ds as [st e]. destruct (is_err e) eqn:Ee; [by destruct e|].
    destruct (Ok st); simpl in Hrun; [|done].
    destruct (IH userList c c' rest ltac:(done) Hrun)
      as (pre & d & -> & Hpre & Hd & Hs & Hh).
    exists (inl (InfoPacket typ dh (st, e)) :: pre), d.
    repeat split; try done. by constructor.
  - assert (Hbody :
      (if decide (ID = c_sid c)
       then let '(u, e) := d (with_Pid None (c_user c)) in
            Done ({| c_sid := c_sid c; c_user := u; c_hub := c_hub c;
                     c_peers := c_peers c |}, e, incoming)
       else let '(u, e) := d zeroUser in
            if is_err e then Done (c, e, incoming)
            else andThen (peerJoins ID u (c_peers c)) (fun '(ps, _) =>
                 acceptLoop userList incoming
                   {| c_sid := c_sid c; c_user := c_user c;
                      c_hub := c_hub c; c_peers := ps |}))
      = Done (c', None, rest)).
    { by destruct stage. }
    clear Hrun. destruct (decide (ID = c_sid c)) as [->|Hne].
    + destruct (d (with_Pid None (c_user c))) as [u e] eqn:Ed.
      injection Hbody as <- -> <-.
      exists [], d. repeat split; try done.
    + destruct (d zeroUser) as [u e].
      destruct (is_err e) eqn:Ee; [by destruct e|].
      destruct (peerJoins ID u (c_peers c)) as [[ps1 p1]|msg]; [|done].
      simpl in Hbody.
      destruct (IH userList _ c' rest ltac:(done) Hbody)
        as (pre & d' & -> & Hpre & Hd & Hs & Hh).
      simpl in *.
      exists (inl (BroadcastPacket ID d) :: pre), d'.
      repeat split; try done. by constructor.
Qed.

(** X27. Nothing but the own info ends the user list well. When
    [acceptUsersList] returns without an error, the first packet was the
    hub info, which decoded into the stored one, the last packet read was
    the broadcast with the own SID, which decoded over the own info with
    the PID wiped, and every packet in between was a status or the info
    of another SID; the own SID is unchanged. *)
Theorem acceptUsersList_success_shape (incoming rest : list (Packet + err))
    (c c' : Client) :
  acceptUsersList incoming c = Done (c', None, rest) ->
  exists dh ds pre d,
    incoming = inl (InfoPacket "INF" dh ds)
                 :: pre ++ inl (BroadcastPacket (c_sid c) d) :: rest /\
    Forall (foreign (c_sid c)) pre /\
    dh (c_hub c) = (c_hub c', None) /\
    d (with_Pid None (c_user c)) = (c_user c', None) /\
    c_sid c' = c_sid c.
Proof.
  unfold acceptUsersList. intros Hrun.
  destruct incoming as [|[[typ dh ds|ID d|kind]|e] incoming];
    simpl in Hrun; try done.
  destruct (decide (typ <> "INF")) as [|Htyp]; [done|].
  apply dec_stable in Htyp. subst typ.
  destruct (dh (c_hub c)) as [hub e] eqn:Eh.
  destruct (is_err e) eqn:Ee; [by destruct e|].
  destruct e; [done|].
  destruct (acceptLoop_success incoming optStatus _ c' rest ltac:(done) Hrun)
    as (pre & d & -> & Hpre & Hd & Hs & Hh).
  simpl in *. exists dh, ds, pre, d. subst hub. by repeat split.
Qed.

Lemma acceptUsersList_success_shape_witness :
  exists dh ds pre d,
    [inl (InfoPacket "INF" (fun h => (h, None))
            ({| Sev := 0; Code := 0; Msg := "" |}, None));
     userPacket (7%Z, guest 11%Z "ann");
     inl (BroadcastPacket 5%Z (fun u => (u, None)))]
    = inl (InfoPacket "INF" dh ds)
        :: pre ++ [inl (BroadcastPacket 5%Z d)] /\
    Forall (foreign 5%Z) pre.
Proof.
  destruct (acceptUsersList_success_shape
    [inl (InfoPacket "INF" (fun h => (h, None))
            ({| Sev := 0; Code := 0; Msg := "" |}, None));
     userPacket (7%Z, guest 11%Z "ann");
     inl (BroadcastPacket 5%Z (fun u => (u, None)))]
    []
    {| c_sid := 5%Z; c_user := guest 10%Z "me";
       c_hub := {| HubName := ""; HubVersion := ""; HubDesc := "" |};
       c_peers := noPeers |}
    _ eq_refl) as (dh & ds & pre & d & H1 & H2 & _).
  by exists dh, ds, pre, d.
Defined.

End AdcUsersListTheorems.
